(** * apple_xml_to_spotify: importing an Apple Music XML export into a
      Spotify playlist

    A shallow embedding of [apple_xml_to_spotify.py] and the properties of
    its library reader, search matcher, playlist synchroniser and run
    driver.

    Python values are modelled by typed Rocq data: text as [string], integers
    as [Z], [None]-able values as [option], dictionaries whose iteration
    order matters as association lists, the [seen] set of the reader as a
    [gset].  The remote service and the process environment are an explicit
    [World] threaded through a state-and-exception monad; every request the
    program issues is appended to the world's trace. *)

From Stdlib Require Import ZArith String Ascii DecimalString Lia.
From stdpp Require Import base option list gmap strings sorting.

Local Open Scope Z_scope.

(** ** Python built-ins on text *)

(** [str.lower], [str.strip], [html.unescape] and [int(str)] belong to the
    Python run time, not to the program.  The development is parametric in
    them; [ascii_text] below is an executable instance for plain ASCII
    text. *)
Class PyText := {
  str_lower : string -> string;
  str_strip : string -> string;
  html_unescape : string -> string;
  int_of_str : string -> option Z;
}.

Module AsciiText.

Definition lower_ascii (c : ascii) : ascii :=
  let n := nat_of_ascii c in
  if ((65 <=? n) && (n <=? 90))%nat then ascii_of_nat (n + 32) else c.

Fixpoint lower (s : string) : string :=
  match s with
  | String c s' => String (lower_ascii c) (lower s')
  | EmptyString => EmptyString
  end.

Definition is_space (c : ascii) : bool :=
  let n := nat_of_ascii c in
  (((9 <=? n) && (n <=? 13)) || ((28 <=? n) && (n <=? 32)))%nat.

Fixpoint lstrip (s : string) : string :=
  match s with
  | String c s' => if is_space c then lstrip s' else s
  | EmptyString => EmptyString
  end.

(** [rstrip s] drops the trailing run of white space. *)
Fixpoint rstrip (s : string) : string :=
  match s with
  | String c s' =>
      match rstrip s' with
      | EmptyString => if is_space c then EmptyString else String c EmptyString
      | r => String c r
      end
  | EmptyString => EmptyString
  end.

Definition strip (s : string) : string := rstrip (lstrip s).

Definition digit_of (c : ascii) : option Z :=
  let n := nat_of_ascii c in
  if ((48 <=? n) && (n <=? 57))%nat then Some (Z.of_nat (n - 48)) else None.

Fixpoint digits (acc : Z) (s : string) : option Z :=
  match s with
  | EmptyString => Some acc
  | String c s' =>
      match digit_of c with
      | Some d => digits (10 * acc + d) s'
      | None => None
      end
  end.

(** Decimal literals with an optional sign, surrounded by white space. *)
Definition parse_int (s : string) : option Z :=
  match strip s with
  | EmptyString => None
  | String "-" (String c r) => Z.opp <$> digits 0 (String c r)
  | String "+" (String c r) => digits 0 (String c r)
  | t => digits 0 t
  end.

End AsciiText.

(** The instance used to run the model on concrete inputs: ASCII case
    folding and white space, text free of character references. *)
Definition ascii_text : PyText := {|
  str_lower := AsciiText.lower;
  str_strip := AsciiText.strip;
  html_unescape := fun s => s;
  int_of_str := AsciiText.parse_int;
|}.

(** Truth value of a Python [str]: the empty string is false. *)
Definition str_truthy (s : string) : bool :=
  match s with EmptyString => false | String _ _ => true end.

(** Truth value of an optional string ([None] and the empty string are false). *)
Definition opt_truthy (o : option string) : bool :=
  match o with Some s => str_truthy s | None => false end.

(** ** Exceptions and results *)

Inductive exn : Type :=
  | SpotifyException (http_status : Z) (retry_after : option nat)
      (* [e.headers.get("Retry-After")], in seconds *)
  | MissingOrMalformedSource      (* [open] or [plistlib.load] failed *)
  | ValueError
  | AttributeError
  | SystemExit (code : Z).

Inductive result (A : Type) : Type :=
  | Ok (a : A)
  | Raise (e : exn)
  | OutOfFuel.
Arguments Ok {A} a.
Arguments Raise {A} e.
Arguments OutOfFuel {A}.

(** ** The library reader *)

(** A scalar of the property list, as far as [isinstance(year, int)] tells
    them apart ([bool] is a subclass of [int] in Python). *)
Inductive plist_value : Type :=
  | PInt (z : Z)
  | PBool (b : bool)
  | PStr (s : string)
  | POther.

(** One entry of the [Tracks] table: the keys the program reads. *)
Record AppleTrack := {
  trk_Name : option string;
  trk_Artist : option string;
  trk_Year : option plist_value;
  trk_TrackID : option Z;
}.

Record ApplePlaylistItem := { pli_TrackID : option Z }.

(** One entry of [Playlists]; [apl_other_keys] says whether the dictionary
    has keys besides [Name] and [Playlist Items] (it decides the truth value
    of an otherwise empty dictionary). *)
Record ApplePlaylist := {
  apl_Name : option string;
  apl_Items : option (list ApplePlaylistItem);
  apl_other_keys : bool;
}.

Record AppleLibrary := {
  lib_Tracks : option (list (string * AppleTrack));
  lib_Playlists : option (list ApplePlaylist);
}.

(** The files of the machine: [None] when the path cannot be opened or
    parsed as a property list. *)
Definition FileSystem := string -> option AppleLibrary.

(** A Track Record, [{"name": ..., "artist": ..., "year": ...}]. *)
Record TrackRecord := {
  it_name : string;
  it_artist : string;
  it_year : option Z;
}.

(** A Python [dict] with integer keys: assigning to a key that is present
    replaces its value and keeps its place, a new key goes last. *)
Fixpoint dict_set {V} (k : Z) (v : V) (d : list (Z * V)) : list (Z * V) :=
  match d with
  | [] => [(k, v)]
  | (k', v') :: d' => if Z.eqb k' k then (k, v) :: d' else (k', v') :: dict_set k v d'
  end.

Fixpoint dict_get {V} (k : Z) (d : list (Z * V)) : option V :=
  match d with
  | [] => None
  | (k', v') :: d' => if Z.eqb k' k then Some v' else dict_get k d'
  end.

Definition dict_values {V} (d : list (Z * V)) : list V := map snd d.

Section Reader.
Context `{PyText}.

(** Lines 27-29: [id_to_track[int(t.get("Track ID", _id))] = t]. *)
Fixpoint build_id_to_track (tracks_dict : list (string * AppleTrack))
    (id_to_track : list (Z * AppleTrack)) : result (list (Z * AppleTrack)) :=
  match tracks_dict with
  | [] => Ok id_to_track
  | (_id, t) :: rest =>
      match trk_TrackID t with
      | Some z => build_id_to_track rest (dict_set z t id_to_track)
      | None =>
          match int_of_str _id with
          | Some z => build_id_to_track rest (dict_set z t id_to_track)
          | None => Raise ValueError
          end
      end
  end.

Definition normalize_track (t : AppleTrack) : TrackRecord :=
  let name := str_strip (html_unescape (default EmptyString (trk_Name t))) in
  let artist := str_strip (html_unescape (default EmptyString (trk_Artist t))) in
  let year := trk_Year t in
  {| it_name := name;
     it_artist := artist;
     it_year := match year with
                | Some (PInt z) => Some z
                | Some (PBool b) => Some (if b then 1 else 0)
                | _ => None
                end |}.

(** Lines 43-46: the first playlist whose name equals the wanted one. *)
Fixpoint select_playlist (playlists : list ApplePlaylist) (preferred_playlist : string)
    : option ApplePlaylist :=
  match playlists with
  | [] => None
  | p :: rest =>
      if String.eqb (str_lower (str_strip (default EmptyString (apl_Name p))))
                    (str_lower (str_strip preferred_playlist))
      then Some p
      else select_playlist rest preferred_playlist
  end.

(** Truth value of a playlist dictionary: false when it has no key. *)
Definition playlist_truthy (p : ApplePlaylist) : bool :=
  bool_decide (is_Some (apl_Name p)) || bool_decide (is_Some (apl_Items p))
  || apl_other_keys p.

(** Lines 49-52. *)
Fixpoint playlist_items_loop (its : list ApplePlaylistItem)
    (id_to_track : list (Z * AppleTrack)) (items : list TrackRecord) : list TrackRecord :=
  match its with
  | [] => items
  | it :: rest =>
      let tid := pli_TrackID it in
      match tid with
      | Some z =>
          if negb (Z.eqb z 0) then
            match dict_get z id_to_track with
            | Some t => playlist_items_loop rest id_to_track (items ++ [normalize_track t])
            | None => playlist_items_loop rest id_to_track items
            end
          else playlist_items_loop rest id_to_track items
      | None => playlist_items_loop rest id_to_track items
      end
  end.

(** Lines 22-56 of [load_apple_xml]: the resolved source sequence [items]. *)
Definition resolve_items (fs : FileSystem) (xml_path : string)
    (preferred_playlist : option string) : result (list TrackRecord) :=
  match fs xml_path with
  | None => Raise MissingOrMalformedSource
  | Some pl =>
      let tracks_dict := default [] (lib_Tracks pl) in
      match build_id_to_track tracks_dict [] with
      | Ok id_to_track =>
          let playlists := default [] (lib_Playlists pl) in
          let selected :=
            match preferred_playlist with
            | Some pp => if str_truthy pp then select_playlist playlists pp else None
            | None => None
            end in
          match selected with
          | Some p =>
              if playlist_truthy p
              then Ok (playlist_items_loop (default [] (apl_Items p)) id_to_track [])
              else Ok (map normalize_track (dict_values id_to_track))
          | None => Ok (map normalize_track (dict_values id_to_track))
          end
      | Raise e => Raise e
      | OutOfFuel => OutOfFuel
      end
  end.

(** The deduplication key [(it["name"].lower(), it["artist"].lower())]. *)
Definition dedup_key (it : TrackRecord) : string * string :=
  (str_lower (it_name it), str_lower (it_artist it)).

(** Lines 59-65: the loop over [items] with its two accumulators. *)
Fixpoint dedup_loop (items : list TrackRecord) (seen : gset (string * string))
    (unique : list TrackRecord) : list TrackRecord :=
  match items with
  | [] => unique
  | it :: rest =>
      let key := dedup_key it in
      if str_truthy (it_name it) && str_truthy (it_artist it)
         && negb (bool_decide (key ∈ seen))
      then dedup_loop rest ({[key]} ∪ seen) (unique ++ [it])
      else dedup_loop rest seen unique
  end.

Definition load_apple_xml (fs : FileSystem) (xml_path : string)
    (preferred_playlist : option string) : result (list TrackRecord) :=
  match resolve_items fs xml_path preferred_playlist with
  | Ok items => Ok (dedup_loop items ∅ [])
  | Raise e => Raise e
  | OutOfFuel => OutOfFuel
  end.

End Reader.

(** ** The remote service and the process environment *)

Record Artist := { a_name : string }.

(** A track object of a search result: [it["name"]], [it["artists"]],
    [it["id"]]. *)
Record Candidate := {
  c_name : string;
  c_artists : list Artist;
  c_id : string;
}.

(** [res["tracks"]], when it is there. *)
Record TracksPage := { tp_items : option (list Candidate) }.

(** The answer [res] of a search; [res_tracks] is [None] when the key is
    missing or its value is false. *)
Record SearchResponse := { res_tracks : option TracksPage }.

(** What the service does with one search request. *)
Inductive reply : Type :=
  | Answer (res : SearchResponse)
  | Failure (http_status : Z) (retry_after : option nat).

(** The track object of a playlist item, restricted to [fields=track(uri)]. *)
Record TrackObj := { tk_uri : option string }.

Record PlaylistItem := { pi_track : option TrackObj }.

Record SpPlaylist := {
  pl_id : string;
  pl_name : option string;
  pl_owner : string;
  pl_public : bool;
  pl_description : string;
  pl_items : list PlaylistItem;
}.

(** One page of [playlist_items]. *)
Record ItemsPage := {
  pg_items : list PlaylistItem;
  pg_next : option string;
}.

(** Everything the program does to the outside, in the order it does it. *)
Inductive Event : Type :=
  | EvCurrentUser
  | EvCreatePlaylist (uid : string) (playlist_name : option string) (public : bool)
      (description : string)
  | EvSearch (q : string) (limit : nat)
  | EvSleep (seconds : Z)
  | EvAddItems (playlist_id : string) (items : list string)
  | EvCurrentUserPlaylists (limit offset : nat)
  | EvPlaylistItems (playlist_id : string) (limit offset : nat)
  | EvRemoveItems (playlist_id : string) (uris : list string)
  | EvPrint (to_stderr : bool) (msg : string)
  | EvWriteCsv (path : string) (rows : list TrackRecord).

(** The requests that change the remote state. *)
Definition is_write (ev : Event) : bool :=
  match ev with
  | EvCreatePlaylist _ _ _ _ | EvAddItems _ _ | EvRemoveItems _ _ => true
  | _ => false
  end.

(** The service as the run sees it.  [w_playlists] is the library of the
    authenticated user in listing order; [w_search n q] is the reaction to
    the [n]-th search request when it asks for [q]; [w_fresh n] is the id
    given to the [n]-th playlist created.

    The behaviour of the service is that of the Web API the client talks to:
    a created playlist is owned by the user and listed first, with the name
    it was given (none when the request had none); the listings return the
    slice [offset, offset + limit) of what they list, and the item listing
    names a next page exactly when items remain after the slice; adding
    appends to the playlist; removing deletes every item whose track uri is
    in the request.  The service accepts every request about a playlist of
    the library and answers 404 for any other id.  Only search requests can
    fail otherwise, as [w_search] says. *)
Record World := {
  w_user : string;
  w_playlists : list SpPlaylist;
  w_fresh : nat -> string;
  w_created : nat;
  w_search : nat -> string -> reply;
  w_searches : nat;
  w_trace : list Event;
}.

Definition with_trace (w : World) (t : list Event) : World :=
  {| w_user := w_user w; w_playlists := w_playlists w; w_fresh := w_fresh w;
     w_created := w_created w; w_search := w_search w; w_searches := w_searches w;
     w_trace := t |}.

Definition with_playlists (w : World) (ps : list SpPlaylist) : World :=
  {| w_user := w_user w; w_playlists := ps; w_fresh := w_fresh w;
     w_created := w_created w; w_search := w_search w; w_searches := w_searches w;
     w_trace := w_trace w |}.

Definition with_created (w : World) (n : nat) : World :=
  {| w_user := w_user w; w_playlists := w_playlists w; w_fresh := w_fresh w;
     w_created := n; w_search := w_search w; w_searches := w_searches w;
     w_trace := w_trace w |}.

Definition with_searches (w : World) (n : nat) : World :=
  {| w_user := w_user w; w_playlists := w_playlists w; w_fresh := w_fresh w;
     w_created := w_created w; w_search := w_search w; w_searches := n;
     w_trace := w_trace w |}.

(** ** The monad of the run: state and exceptions *)

Definition M (A : Type) : Type := World -> result A * World.

Definition ret {A} (a : A) : M A := fun w => (Ok a, w).

Definition bind {A B} (m : M A) (k : A -> M B) : M B := fun w =>
  match m w with
  | (Ok a, w') => k a w'
  | (Raise e, w') => (Raise e, w')
  | (OutOfFuel, w') => (OutOfFuel, w')
  end.

Definition raise {A} (e : exn) : M A := fun w => (Raise e, w).

Definition out_of_fuel {A} : M A := fun w => (OutOfFuel, w).

(** [try: body except e: handler e]. *)
Definition try_except {A} (body : M A) (handler : exn -> M A) : M A := fun w =>
  match body w with
  | (Raise e, w') => handler e w'
  | r => r
  end.

Definition lift {A} (r : result A) : M A := fun w => (r, w).

Definition emit (ev : Event) : M unit := fun w =>
  (Ok tt, with_trace w (w_trace w ++ [ev])).

Notation "'let!' x ':=' m 'in' k" := (bind m (fun x => k))
  (at level 10, x name, m at level 100, k at level 200).

Definition print (msg : string) : M unit := emit (EvPrint false msg).
Definition print_err (msg : string) : M unit := emit (EvPrint true msg).
Definition sys_exit {A} (code : Z) : M A := raise (SystemExit code).
Definition time_sleep (seconds : Z) : M unit := emit (EvSleep seconds).

(** *** The requests of the client [sp] *)

Definition sp_current_user : M string := fun w =>
  (Ok (w_user w), with_trace w (w_trace w ++ [EvCurrentUser])).

Definition sp_user_playlist_create (uid : string) (playlist_name : option string)
    (public : bool) (description : string) : M string := fun w =>
  let id := w_fresh w (w_created w) in
  let p := {| pl_id := id; pl_name := playlist_name; pl_owner := uid;
              pl_public := public; pl_description := description; pl_items := [] |} in
  (Ok id,
   with_trace (with_created (with_playlists w (p :: w_playlists w)) (S (w_created w)))
     (w_trace w ++ [EvCreatePlaylist uid playlist_name public description])).

Definition sp_search (q : string) (limit : nat) : M SearchResponse := fun w =>
  let w' := with_trace (with_searches w (S (w_searches w)))
              (w_trace w ++ [EvSearch q limit]) in
  match w_search w (w_searches w) q with
  | Answer res => (Ok res, w')
  | Failure st ra => (Raise (SpotifyException st ra), w')
  end.

Definition find_playlist (playlist_id : string) (ps : list SpPlaylist) : option SpPlaylist :=
  List.find (fun p => String.eqb (pl_id p) playlist_id) ps.

(** Apply [f] to the items of every playlist of the library with this id. *)
Definition update_items (playlist_id : string)
    (f : list PlaylistItem -> list PlaylistItem) (ps : list SpPlaylist) : list SpPlaylist :=
  map (fun p =>
         if String.eqb (pl_id p) playlist_id
         then {| pl_id := pl_id p; pl_name := pl_name p; pl_owner := pl_owner p;
                 pl_public := pl_public p; pl_description := pl_description p;
                 pl_items := f (pl_items p) |}
         else p) ps.

Definition not_found : exn := SpotifyException 404 None.

Definition uri_of_id (track_id : string) : string := "spotify:track:" +:+ track_id.

(** The item a track id becomes once it is in a playlist. *)
Definition added_item (track_id : string) : PlaylistItem :=
  {| pi_track := Some {| tk_uri := Some (uri_of_id track_id) |} |}.

Definition sp_playlist_add_items (playlist_id : string) (items : list string) : M unit :=
  fun w =>
    let w' := with_trace w (w_trace w ++ [EvAddItems playlist_id items]) in
    match find_playlist playlist_id (w_playlists w) with
    | Some _ =>
        let new := map added_item items in
        (Ok tt, with_playlists w' (update_items playlist_id (fun its => its ++ new) (w_playlists w)))
    | None => (Raise not_found, w')
    end.

Definition sp_current_user_playlists (limit offset : nat) : M (list SpPlaylist) := fun w =>
  (Ok (take limit (drop offset (w_playlists w))),
   with_trace w (w_trace w ++ [EvCurrentUserPlaylists limit offset])).

Definition nat_to_str (n : nat) : string := NilZero.string_of_uint (Nat.to_uint n).

Definition next_url (playlist_id : string) (limit offset : nat) : string :=
  "https://api.spotify.com/v1/playlists/" +:+ playlist_id +:+ "/tracks?offset="
  +:+ nat_to_str offset +:+ "&limit=" +:+ nat_to_str limit.

Definition sp_playlist_items (playlist_id : string) (limit offset : nat) : M ItemsPage :=
  fun w =>
    let w' := with_trace w (w_trace w ++ [EvPlaylistItems playlist_id limit offset]) in
    match find_playlist playlist_id (w_playlists w) with
    | Some p =>
        (Ok {| pg_items := take limit (drop offset (pl_items p));
               pg_next := if (offset + limit <? length (pl_items p))%nat
                          then Some (next_url playlist_id limit (offset + limit))
                          else None |}, w')
    | None => (Raise not_found, w')
    end.

(** The uri of a playlist item, when it has one. *)
Definition item_uri (it : PlaylistItem) : option string :=
  match pi_track it with
  | Some track => tk_uri track
  | None => None
  end.

Definition uri_listed (uris : list string) (it : PlaylistItem) : bool :=
  match item_uri it with
  | Some u => bool_decide (u ∈ uris)
  | None => false
  end.

Definition sp_playlist_remove_all_occurrences_of_items (playlist_id : string)
    (uris : list string) : M unit := fun w =>
  let w' := with_trace w (w_trace w ++ [EvRemoveItems playlist_id uris]) in
  match find_playlist playlist_id (w_playlists w) with
  | Some _ =>
      (Ok tt, with_playlists w'
                (update_items playlist_id
                   (List.filter (fun it => negb (uri_listed uris it))) (w_playlists w)))
  | None => (Raise not_found, w')
  end.

(** ** The program *)

Definition dquote : string := String "034" EmptyString.
Definition newline : string := String "010" EmptyString.

(** [str(z)] of an integer. *)
Definition int_to_str (z : Z) : string := NilZero.string_of_int (Z.to_int z).

(** An optional string inside an f-string: [None] prints as its name. *)
Definition fmt_opt (o : option string) : string := default "None" o.

Definition create_playlist (playlist_name : option string) (public : bool)
    (description : string) : M string :=
  let! me := sp_current_user in
  let uid := me in
  let! playlist := sp_user_playlist_create uid playlist_name public description in
  ret playlist.

(** Truth value of [year]: [None] and [0] are false. *)
Definition year_truthy (year : option Z) : bool :=
  match year with
  | Some z => negb (Z.eqb z 0)
  | None => false
  end.

(** Lines 89-95: the queries of one record, in the order they are tried. *)
Definition queries (name artist : string) (year : option Z) : list string :=
  let queries := ["track:" +:+ dquote +:+ name +:+ dquote +:+ " artist:" +:+ dquote
                  +:+ artist +:+ dquote] in
  let queries :=
    if year_truthy year
    then ("track:" +:+ dquote +:+ name +:+ dquote +:+ " artist:" +:+ dquote +:+ artist
          +:+ dquote +:+ " year:" +:+ int_to_str (default 0 year)) :: queries
    else queries in
  queries ++ [name +:+ " " +:+ artist].

(** Lines 98-107: one query, with the handler of the rate limit. *)
Definition search_attempt (q : string) : M SearchResponse :=
  try_except (sp_search q 3)
    (fun e =>
       match e with
       | SpotifyException http_status retry_after =>
           if Z.eqb http_status 429 then
             let retry := Z.of_nat (default 2%nat retry_after) in
             let! _ := time_sleep (retry + 1) in
             sp_search q 3
           else raise e
       | _ => raise e
       end).

(** Line 109: [(res.get("tracks") or {}).get("items", [])]. *)
Definition items_of (res : SearchResponse) : list Candidate :=
  match res_tracks res with
  | Some tracks => default [] (tp_items tracks)
  | None => []
  end.

Section Matcher.
Context `{PyText}.

(** Lines 115-117: the test of the exact match. *)
Definition exact_match (name artist : string) (it : Candidate) : bool :=
  let tname := str_lower (str_strip (c_name it)) in
  let anames : gset string :=
    list_to_set (map (fun a => str_lower (str_strip (a_name a))) (c_artists it)) in
  bool_decide (str_lower (str_strip name) = tname)
  && bool_decide (str_lower (str_strip artist) ∈ anames).

(** Lines 114-118: the first candidate of the pass that matches exactly. *)
Fixpoint first_exact (name artist : string) (items : list Candidate) : option Candidate :=
  match items with
  | [] => None
  | it :: rest => if exact_match name artist it then Some it else first_exact name artist rest
  end.

(** Lines 97-124: the loop over the queries. *)
Fixpoint search_loop (qs : list string) (name artist : string)
    (candidates : list Candidate) : M (option string) :=
  match qs with
  | [] => ret None
  | q :: rest =>
      let! res := search_attempt q in
      let items := items_of res in
      let candidates := candidates ++ items in
      match first_exact name artist items with
      | Some it => ret (Some (c_id it))
      | None =>
          match items with
          | it0 :: _ => ret (Some (c_id it0))
          | [] => search_loop rest name artist candidates
          end
      end
  end.

Definition search_track (name artist : string) (year : option Z) : M (option string) :=
  search_loop (queries name artist year) name artist [].

End Matcher.

(** [range(0, stop, step)], counted up while the index is below [stop]. *)
Fixpoint range_from (fuel i stop step : nat) : list nat :=
  match fuel with
  | O => []
  | S fuel' => if (i <? stop)%nat then i :: range_from fuel' (i + step) stop step else []
  end.

Definition range_step (stop step : nat) : list nat := range_from stop 0 stop step.

(** The slice [l[i : i + n]]. *)
Definition slice {A} (l : list A) (i n : nat) : list A := take n (drop i l).

Fixpoint add_loop (playlist_id : string) (track_ids : list string) (offsets : list nat) : M unit :=
  match offsets with
  | [] => ret tt
  | i :: rest =>
      let chunk := slice track_ids i 100 in
      let! _ := sp_playlist_add_items playlist_id chunk in
      add_loop playlist_id track_ids rest
  end.

Definition add_tracks_in_batches (playlist_id : string) (track_ids : list string) : M unit :=
  add_loop playlist_id track_ids (range_step (length track_ids) 100).

(** How the scan of one page of playlists ends. *)
Inductive scan : Type :=
  | Returned (playlist_id : string)
  | Scanned (candidate : option string).

Section Lookup.
Context `{PyText}.

(** Lines 146-151: the loop over one page. *)
Fixpoint scan_page (items : list SpPlaylist) (name_lc uid : string)
    (candidate : option string) : result scan :=
  match items with
  | [] => Ok (Scanned candidate)
  | p :: rest =>
      match pl_name p with
      | None => Raise AttributeError
      | Some n =>
          if String.eqb (str_lower (str_strip n)) name_lc then
            if String.eqb (pl_owner p) uid then Ok (Returned (pl_id p))
            else scan_page rest name_lc uid
                   (match candidate with None => Some (pl_id p) | Some c => Some c end)
          else scan_page rest name_lc uid candidate
      end
  end.

(** Lines 141-154: [while True] over the pages. *)
Fixpoint find_loop (fuel : nat) (name_lc uid : string) (limit offset : nat)
    (candidate : option string) : M (option string) :=
  match fuel with
  | O => out_of_fuel
  | S fuel' =>
      let! items := sp_current_user_playlists limit offset in
      match items with
      | [] => ret candidate
      | _ =>
          let! r := lift (scan_page items name_lc uid candidate) in
          match r with
          | Returned id => ret (Some id)
          | Scanned candidate =>
              let offset := (offset + length items)%nat in
              if (length items <? limit)%nat then ret candidate
              else find_loop fuel' name_lc uid limit offset candidate
          end
      end
  end.

Definition find_user_playlist_by_name (fuel : nat) (name : string) : M (option string) :=
  let name_lc := str_lower (str_strip name) in
  let! me := sp_current_user in
  let uid := me in
  find_loop fuel name_lc uid 50 0 None.

End Lookup.

(** Lines 167-171: the uris of one page that are worth removing. *)
Fixpoint collect_uris (items : list PlaylistItem) (uris : list string) : list string :=
  match items with
  | [] => uris
  | it :: rest =>
      let uri := item_uri it in
      if opt_truthy uri then collect_uris rest (uris ++ [default EmptyString uri])
      else collect_uris rest uris
  end.

(** Lines 162-174: [while True] over the pages of items. *)
Fixpoint clear_read_loop (fuel : nat) (playlist_id : string) (limit offset : nat)
    (uris : list string) : M (list string) :=
  match fuel with
  | O => out_of_fuel
  | S fuel' =>
      let! resp := sp_playlist_items playlist_id limit offset in
      let items := pg_items resp in
      match items with
      | [] => ret uris
      | _ =>
          let uris := collect_uris items uris in
          if negb (opt_truthy (pg_next resp)) then ret uris
          else clear_read_loop fuel' playlist_id limit (offset + limit) uris
      end
  end.

Fixpoint remove_loop (playlist_id : string) (uris : list string) (offsets : list nat) : M unit :=
  match offsets with
  | [] => ret tt
  | i :: rest =>
      let! _ := sp_playlist_remove_all_occurrences_of_items playlist_id (slice uris i 100) in
      remove_loop playlist_id uris rest
  end.

Definition clear_playlist (fuel : nat) (playlist_id : string) : M unit :=
  let! uris := clear_read_loop fuel playlist_id 100 0 [] in
  remove_loop playlist_id uris (range_step (length uris) 100).

(** *** The run driver *)

Inductive Mode : Type := ModeAppend | ModeReplace.

(** The command line after [argparse]. *)
Record Args := {
  arg_xml : string;
  arg_apple_playlist : option string;
  arg_spotify_name : option string;
  arg_public : bool;
  arg_log_not_found : string;
  arg_use_existing : option string;
  arg_mode : Mode;
}.

(** [os.getenv]. *)
Definition Environ := string -> option string.

Definition env_vars : list string :=
  ["SPOTIPY_CLIENT_ID"; "SPOTIPY_CLIENT_SECRET"; "SPOTIPY_REDIRECT_URI"].

(** Lines 192-195. *)
Fixpoint check_env (environ : Environ) (vars : list string) : M unit :=
  match vars with
  | [] => ret tt
  | var :: rest =>
      if negb (opt_truthy (environ var)) then
        let! _ := print_err ("ERROR: environment variable " +:+ var +:+ " is not set.") in
        sys_exit 2
      else check_env environ rest
  end.

Definition description_tag : string := "Imported from Apple Music XML".

Definition list_truthy {A} (l : list A) : bool :=
  match l with [] => false | _ :: _ => true end.

Section Driver.
Context `{PyText}.

(** Lines 233-240. *)
Fixpoint match_loop (items : list TrackRecord) (found_ids : list string)
    (misses : list TrackRecord) : M (list string * list TrackRecord) :=
  match items with
  | [] => ret (found_ids, misses)
  | it :: rest =>
      let! sid := search_track (it_name it) (it_artist it) (it_year it) in
      if opt_truthy sid then
        let found_ids := found_ids ++ [default EmptyString sid] in
        let! _ := print ("✓ " +:+ it_name it +:+ " — " +:+ it_artist it) in
        match_loop rest found_ids misses
      else
        let misses := misses ++ [it] in
        let! _ := print ("✗ NOT FOUND: " +:+ it_name it +:+ " — " +:+ it_artist it) in
        match_loop rest found_ids misses
  end.

(** Lines 210-229: the target playlist, or the end of the run. *)
Definition resolve_target (fuel : nat) (args : Args) : M string :=
  if opt_truthy (arg_use_existing args) then
    let use_existing := default EmptyString (arg_use_existing args) in
    let! playlist_id := find_user_playlist_by_name fuel use_existing in
    if negb (opt_truthy playlist_id) then
      let! _ := print_err ("Playlist '" +:+ use_existing
                           +:+ "' not found in your account.") in
      sys_exit 1
    else
      let playlist_id := default EmptyString playlist_id in
      let! _ := print ("Using existing playlist: " +:+ use_existing) in
      match arg_mode args with
      | ModeReplace =>
          let! _ := print "Clearing existing playlist contents..." in
          let! _ := clear_playlist fuel playlist_id in
          ret playlist_id
      | ModeAppend => ret playlist_id
      end
  else if opt_truthy (arg_spotify_name args) then
    let! playlist_id :=
      create_playlist (arg_spotify_name args) (arg_public args) description_tag in
    let! _ := print ("Created new playlist: " +:+ fmt_opt (arg_spotify_name args)) in
    ret playlist_id
  else
    let! _ := print_err "You must provide either --spotify-name or --use-existing." in
    sys_exit 1.

(** Lines 210-249: the run from the choice of the target playlist on. *)
Definition import_records (fuel : nat) (args : Args) (items : list TrackRecord)
    : M unit :=
  let! playlist_id := resolve_target fuel args in
  let! fm := match_loop items [] [] in
  let found_ids := fst fm in
  let misses := snd fm in
  let! _ := if list_truthy found_ids
            then add_tracks_in_batches playlist_id found_ids
            else ret tt in
  let! _ := print (newline +:+ "Done. Added " +:+ nat_to_str (length found_ids)
                   +:+ " tracks to '" +:+ fmt_opt (arg_spotify_name args) +:+ "'.") in
  if list_truthy misses then
    let! _ := emit (EvWriteCsv (arg_log_not_found args) misses) in
    print (nat_to_str (length misses) +:+ " not found → logged to "
           +:+ arg_log_not_found args)
  else ret tt.

(** [spotify_client()] only builds the client [sp]; it sends nothing, and
    the requests of [sp] are the [sp_...] steps above. *)
Definition main (fuel : nat) (args : Args) (environ : Environ) (fs : FileSystem)
    : M unit :=
  let! _ := check_env environ env_vars in
  let! items := lift (load_apple_xml fs (arg_xml args) (arg_apple_playlist args)) in
  if negb (list_truthy items) then
    let! _ := print "No tracks found in XML (check file and playlist name)." in
    sys_exit 1
  else
    let! playlist_id :=
      create_playlist (arg_spotify_name args) (arg_public args) description_tag in
    import_records fuel args items.

End Driver.

(** Whether a playlist item carries a uri that is not empty. *)
Definition has_uri (it : PlaylistItem) : bool := opt_truthy (item_uri it).

(** The removal requests of a trace, with their batches. *)
Definition removals (t : list Event) : list (string * list string) :=
  omap (fun ev => match ev with
                  | EvRemoveItems playlist_id uris => Some (playlist_id, uris)
                  | _ => None
                  end) t.

(** The remote writes of a trace. *)
Definition writes (t : list Event) : list Event := List.filter is_write t.

(** ** Vocabulary of the statements *)

Section ReaderVocabulary.
Context `{PyText}.

(** A record the reader may keep: title and artist are not empty. *)
Definition eligible (it : TrackRecord) : Prop :=
  it_name it ≠ EmptyString ∧ it_artist it ≠ EmptyString.

(** [r] stands at index [j] of [items], and no record that the reader may
    keep stands before it with the same case-insensitive key. *)
Definition first_seen (items : list TrackRecord) (j : nat) (r : TrackRecord) : Prop :=
  items !! j = Some r ∧
  ∀ j' r', (j' < j)%nat → items !! j' = Some r' → eligible r' →
           dedup_key r' ≠ dedup_key r.

(** The state of the deduplication loop after the prefix [pre] of the
    source sequence; [idx] are the places of the kept records. *)
Record dedup_inv (pre : list TrackRecord) (seen : gset (string * string))
    (unique : list TrackRecord) (idx : list nat) : Prop := {
  inv_seen : ∀ k, k ∈ seen ↔ ∃ r, r ∈ unique ∧ dedup_key r = k;
  inv_complete : ∀ r, r ∈ pre → eligible r → dedup_key r ∈ seen;
  inv_eligible : Forall eligible unique;
  inv_sorted : StronglySorted lt idx;
  inv_bound : Forall (λ j, (j < length pre)%nat) idx;
  inv_first : Forall2 (first_seen pre) idx unique;
}.

End ReaderVocabulary.

Section MatcherVocabulary.
Context `{PyText}.

(** The candidate matches the record exactly: the same title and the
    record's artist among the listed artists, up to case and surrounding
    white space. *)
Definition is_exact (name artist : string) (it : Candidate) : Prop :=
  str_lower (str_strip name) = str_lower (str_strip (c_name it))
  ∧ ∃ a, a ∈ c_artists it
         ∧ str_lower (str_strip artist) = str_lower (str_strip (a_name a)).

(** What one pass gives back from the candidates it received: the first
    exact match, else the first candidate, else nothing. *)
Inductive pass_result (name artist : string) : list Candidate → option string → Prop :=
  | pass_exact pre it post :
      Forall (λ c, ¬ is_exact name artist c) pre → is_exact name artist it →
      pass_result name artist (pre ++ it :: post) (Some (c_id it))
  | pass_first it0 rest :
      Forall (λ c, ¬ is_exact name artist c) (it0 :: rest) →
      pass_result name artist (it0 :: rest) (Some (c_id it0))
  | pass_empty : pass_result name artist [] None.

End MatcherVocabulary.

(** The three queries of a record, spelled out. *)
Definition strict_query (name artist : string) : string :=
  "track:" +:+ dquote +:+ name +:+ dquote +:+ " artist:" +:+ dquote +:+ artist +:+ dquote.

Definition year_query (name artist : string) (y : Z) : string :=
  "track:" +:+ dquote +:+ name +:+ dquote +:+ " artist:" +:+ dquote +:+ artist +:+ dquote
  +:+ " year:" +:+ int_to_str y.

Definition loose_query (name artist : string) : string := name +:+ " " +:+ artist.

(** The candidates the service returns to the [n]-th search request when it
    asks for [q], if it answers at all. *)
Definition answer_items (w : World) (n : nat) (q : string) : option (list Candidate) :=
  match w_search w n q with
  | Answer res => Some (items_of res)
  | Failure _ _ => None
  end.

(** A service that answers every search request. *)
Definition quiet (w : World) : Prop := ∀ n q, ∃ res, w_search w n q = Answer res.

(** Two states of one playlist: everything but the items is the same. *)
Definition same_playlist (p p' : SpPlaylist) : Prop :=
  pl_id p = pl_id p' ∧ pl_name p = pl_name p' ∧ pl_owner p = pl_owner p'
  ∧ pl_public p = pl_public p' ∧ pl_description p = pl_description p'.

(** What every step of the run respects: it leaves the user and the search
    behaviour of the service alone, only adds to the trace, drops no
    playlist of the library, and when one of its search requests meets an
    error other than the rate limit it ends with that error, right after
    that request. *)
Definition tame {A} (m : M A) : Prop :=
  ∀ w r w', m w = (r, w') →
    w_search w' = w_search w
    ∧ w_user w' = w_user w
    ∧ (w_searches w ≤ w_searches w')%nat
    ∧ (∃ evs, w_trace w' = w_trace w ++ evs)
    ∧ (∀ p, p ∈ w_playlists w → ∃ p', p' ∈ w_playlists w' ∧ same_playlist p p')
    ∧ ∀ n st ra, (w_searches w ≤ n < w_searches w')%nat →
        (∀ q, w_search w n q = Failure st ra) → st ≠ 429 →
        r = Raise (SpotifyException st ra) ∧ w_searches w' = S n.

(** ** Concrete inputs *)

Module Sample.

(** A service that finds nothing and numbers the playlists it creates. *)
Definition silent (n : nat) (q : string) : reply := Answer {| res_tracks := None |}.

Definition world (ps : list SpPlaylist) (search : nat -> string -> reply) : World :=
  {| w_user := "me"; w_playlists := ps; w_fresh := fun n => "new" +:+ nat_to_str n;
     w_created := 0; w_search := search; w_searches := 0; w_trace := [] |}.

Definition playlist (id : string) (name : string) (owner : string)
    (items : list PlaylistItem) : SpPlaylist :=
  {| pl_id := id; pl_name := Some name; pl_owner := owner; pl_public := false;
     pl_description := EmptyString; pl_items := items |}.

(** An item whose track object is missing, as for an unavailable track. *)
Definition no_track : PlaylistItem := {| pi_track := None |}.

(** An item whose track object has no uri. *)
Definition no_uri : PlaylistItem := {| pi_track := Some {| tk_uri := None |} |}.

Definition with_uri (u : string) : PlaylistItem :=
  {| pi_track := Some {| tk_uri := Some u |} |}.

Definition track (name artist : string) (year : Z) : AppleTrack :=
  {| trk_Name := Some name; trk_Artist := Some artist; trk_Year := Some (PInt year);
     trk_TrackID := None |}.

(** A library of two tracks that differ in case only. *)
Definition library : AppleLibrary :=
  {| lib_Tracks := Some [("1", track "Yesterday" "The Beatles" 1965);
                         ("2", track "Yesterday" "the beatles" 1965)];
     lib_Playlists := None |}.

Definition files : FileSystem := fun path =>
  if String.eqb path "library.xml" then Some library else None.

Definition credentials : Environ := fun var => Some "set".

Definition args (spotify_name use_existing : option string) (mode : Mode) : Args :=
  {| arg_xml := "library.xml"; arg_apple_playlist := None;
     arg_spotify_name := spotify_name; arg_public := false;
     arg_log_not_found := "not_found.csv"; arg_use_existing := use_existing;
     arg_mode := mode |}.

Definition candidate (name artist id : string) : Candidate :=
  {| c_name := name; c_artists := [{| a_name := artist |}]; c_id := id |}.

Definition found (cs : list Candidate) : reply :=
  Answer {| res_tracks := Some {| tp_items := Some cs |} |}.

(** A library whose only playlist lists the second track, an unknown id and
    the first track. *)
Definition library_with_playlist : AppleLibrary :=
  {| lib_Tracks := Some [("1", track "Yesterday" "The Beatles" 1965);
                         ("2", track "Help!" "The Beatles" 1965)];
     lib_Playlists :=
       Some [{| apl_Name := Some "Favourites";
                apl_Items := Some [{| pli_TrackID := Some 2 |};
                                   {| pli_TrackID := Some 7 |};
                                   {| pli_TrackID := Some 1 |}];
                apl_other_keys := true |}] |}.

Definition files_with_playlist : FileSystem := fun path =>
  if String.eqb path "library.xml" then Some library_with_playlist else None.

End Sample.

(** ** Vocabulary of the further properties *)

Section FurtherVocabulary.
Context `{PyText}.

(** The key under which one entry of the track table is filed,
    [int(t.get("Track ID", _id))], when it has one. *)
Definition entry_id (e : string * AppleTrack) : option Z :=
  match trk_TrackID e.2 with
  | Some z => Some z
  | None => int_of_str e.1
  end.

(** A playlist of the source whose name is the wanted one (line 44). *)
Definition apple_name_matches (preferred_playlist : string) (p : ApplePlaylist) : Prop :=
  str_lower (str_strip (default EmptyString (apl_Name p)))
  = str_lower (str_strip preferred_playlist).

(** A playlist of the library whose name is the wanted one (line 147). *)
Definition name_matches (name_lc : string) (p : SpPlaylist) : bool :=
  match pl_name p with
  | Some n => String.eqb (str_lower (str_strip n)) name_lc
  | None => false
  end.

(** A playlist with the wanted name that the user owns (line 148). *)
Definition owned_match (name_lc uid : string) (p : SpPlaylist) : bool :=
  name_matches name_lc p && String.eqb (pl_owner p) uid.

(** What the lookup of a name is to return from the library [ps]: the id of
    the first playlist with that name that the user owns, else of the first
    playlist with that name. *)
Definition lookup_result (name_lc uid : string) (ps : list SpPlaylist) : option string :=
  match List.find (owned_match name_lc uid) ps with
  | Some p => Some (pl_id p)
  | None => pl_id <$> List.find (name_matches name_lc) ps
  end.

(** The last track filed under [z] by the entries of the table, if any,
    else what was there before. *)
Fixpoint last_entry (tracks_dict : list (string * AppleTrack)) (z : Z)
    (before : option AppleTrack) : option AppleTrack :=
  match tracks_dict with
  | [] => before
  | e :: rest =>
      last_entry rest z (if bool_decide (entry_id e = Some z) then Some e.2 else before)
  end.

End FurtherVocabulary.

(** The ids the run keeps from the results of the matcher, one result per
    record (line 235: a result that is [None] or empty is a miss). *)
Definition found_of (results : list (option string)) : list string :=
  omap (fun r => match r with
                 | Some id => if str_truthy id then Some id else None
                 | None => None
                 end) results.

(** The records whose result is a miss, in order. *)
Fixpoint misses_of (items : list TrackRecord) (results : list (option string))
    : list TrackRecord :=
  match items, results with
  | it :: items', r :: results' =>
      if opt_truthy r then misses_of items' results' else it :: misses_of items' results'
  | _, _ => []
  end.

(** The reports written by a trace. *)
Definition reports (t : list Event) : list (string * list TrackRecord) :=
  omap (fun ev => match ev with
                  | EvWriteCsv path rows => Some (path, rows)
                  | _ => None
                  end) t.

(** A step whose every run relates the world before to the world after. *)
Definition preserves (R : World -> World -> Prop) {A} (m : M A) : Prop :=
  ∀ w r w', m w = (r, w') → R w w'.

(** Nothing is taken away: the trace grows without a removal request, and
    every playlist of the library is still there with its items in front. *)
Definition append_only (w w' : World) : Prop :=
  (∃ evs, w_trace w' = w_trace w ++ evs ∧ removals evs = [])
  ∧ ∀ p, p ∈ w_playlists w →
      ∃ p', p' ∈ w_playlists w' ∧ same_playlist p p' ∧ pl_items p `prefix_of` pl_items p'.

(** The playlist that a request about items names: listing, adding and
    removing items each carry a playlist id; no other step does. *)
Definition item_request (ev : Event) : option string :=
  match ev with
  | EvAddItems playlist_id _ | EvPlaylistItems playlist_id _ _
  | EvRemoveItems playlist_id _ => Some playlist_id
  | _ => None
  end.

(** An event that, when it is a request about items, is about [target]. *)
Definition names_only (target : string) (ev : Event) : Prop :=
  ∀ playlist_id, item_request ev = Some playlist_id → playlist_id = target.

(** From [w] to [w'] the items of no playlist but [target] are dealt with:
    every request about items names [target], and every playlist of the
    library with another id is still there exactly as it was. *)
Definition touches_only (target : string) (w w' : World) : Prop :=
  (∃ evs, w_trace w' = w_trace w ++ evs ∧ Forall (names_only target) evs)
  ∧ ∀ p, p ∈ w_playlists w → pl_id p ≠ target → p ∈ w_playlists w'.

(** The matcher's own traffic: search requests for queries of the record,
    and sleeps. *)
Definition matcher_event (qs : list string) (ev : Event) : Prop :=
  match ev with
  | EvSearch q limit => q ∈ qs ∧ limit = 3%nat
  | EvSleep _ => True
  | _ => False
  end.

Definition is_search (ev : Event) : bool :=
  match ev with EvSearch _ _ => true | _ => false end.

Definition is_sleep (ev : Event) : bool :=
  match ev with EvSleep _ => true | _ => false end.

Definition is_print (ev : Event) : bool :=
  match ev with EvPrint _ _ => true | _ => false end.

(** A candidate of the service stands behind the result of the matcher for
    the record [it]: an id that is returned is the id of a candidate that
    [search] returns for one of the queries of the record. *)
Definition matched (search : nat -> string -> reply) (it : TrackRecord)
    (r : option string) : Prop :=
  ∀ id, r = Some id →
    ∃ n q res c, q ∈ queries (it_name it) (it_artist it) (it_year it)
                 ∧ search n q = Answer res ∧ c ∈ items_of res ∧ c_id c = id.

(** The traffic of the matching loop: search requests and progress lines. *)
Definition matching_event (ev : Event) : bool := is_search ev || is_print ev.

(** The summary line of a run (line 245). *)
Definition done_line (found_ids : list string) (args : Args) : string :=
  newline +:+ "Done. Added " +:+ nat_to_str (length found_ids) +:+ " tracks to '"
  +:+ fmt_opt (arg_spotify_name args) +:+ "'.".

(** What a run does with its misses (lines 246-249). *)
Definition report_events (misses : list TrackRecord) (args : Args) : list Event :=
  match misses with
  | [] => []
  | _ :: _ =>
      [EvWriteCsv (arg_log_not_found args) misses;
       EvPrint false (nat_to_str (length misses) +:+ " not found → logged to "
                      +:+ arg_log_not_found args)]
  end.

(** The events that change nothing remotely and write no report: reads,
    searches, sleeps and printed lines. *)
Definition harmless (ev : Event) : bool :=
  match ev with
  | EvCurrentUser | EvCurrentUserPlaylists _ _ | EvPlaylistItems _ _ _
  | EvSearch _ _ | EvSleep _ | EvPrint _ _ => true
  | _ => false
  end.

(** The items of the target playlist that a run in the given mode leaves in
    place before it adds. *)
Definition kept_items (mode : Mode) (items : list PlaylistItem) : list PlaylistItem :=
  match mode with
  | ModeAppend => items
  | ModeReplace => List.filter (fun it => negb (has_uri it)) items
  end.

(** * Properties *)

Lemma str_truthy_true s : str_truthy s = true ↔ s ≠ EmptyString.
Proof. destruct s; simpl; split; congruence. Qed.

Section ReaderFacts.
Context `{PyText}.

Lemma first_seen_app pre it j r :
  (j < length pre)%nat → first_seen pre j r → first_seen (pre ++ [it]) j r.
Proof.
  intros Hj [Hl Hf]. split.
  - rewrite lookup_app_l; done.
  - intros j' r' Hlt Hl'. apply (Hf j' r' Hlt).
    rewrite lookup_app_l in Hl'; [done | lia].
Qed.

Lemma dedup_inv_init : dedup_inv [] ∅ [] [].
Proof.
  split; try constructor.
  - set_solver.
  - intros (r & Hr & _). set_solver.
  - intros r Hr. set_solver.
Qed.

Lemma dedup_inv_skip pre it seen unique idx :
  dedup_inv pre seen unique idx →
  (eligible it → dedup_key it ∈ seen) →
  dedup_inv (pre ++ [it]) seen unique idx.
Proof.
  intros [Hs Hc He Hso Hb Hf] Hit. split; try done.
  - intros r Hr Hel. apply elem_of_app in Hr as [Hr | Hr]; [by apply Hc |].
    apply list_elem_of_singleton in Hr as ->. by apply Hit.
  - eapply Forall_impl; [exact Hb |]. intros j Hj. simpl in Hj. rewrite length_app. simpl. lia.
  - clear -Hb Hf. induction Hf as [| j r idx unique Hjr Hf IH]; [constructor |].
    apply Forall_cons in Hb as [Hj Hb]. constructor; [by apply first_seen_app | by apply IH].
Qed.

Lemma dedup_inv_keep pre it seen unique idx :
  dedup_inv pre seen unique idx →
  eligible it → dedup_key it ∉ seen →
  dedup_inv (pre ++ [it]) ({[dedup_key it]} ∪ seen) (unique ++ [it]) (idx ++ [length pre]).
Proof.
  intros [Hs Hc He Hso Hb Hf] Hel Hnew. split.
  - intros k. rewrite elem_of_union, elem_of_singleton, Hs. split.
    + intros [-> | (r & Hr & Hk)].
      * exists it. split; [apply elem_of_app; right; by apply list_elem_of_singleton | done].
      * exists r. split; [apply elem_of_app; by left | done].
    + intros (r & Hr & Hk). apply elem_of_app in Hr as [Hr | Hr].
      * right. by exists r.
      * apply list_elem_of_singleton in Hr as ->. by left.
  - intros r Hr Helr. apply elem_of_app in Hr as [Hr | Hr].
    + apply elem_of_union; right. by apply Hc.
    + apply list_elem_of_singleton in Hr as ->. apply elem_of_union; left. by apply elem_of_singleton.
  - apply Forall_app; split; [done | by constructor].
  - clear -Hso Hb. induction Hso as [| j idx Hso IH Hlt]; simpl.
    + constructor; constructor.
    + apply Forall_cons in Hb as [Hj Hb]. constructor; [by apply IH |].
      apply Forall_app; split; [done | by constructor].
  - apply Forall_app; split.
    + eapply Forall_impl; [exact Hb |]. intros j Hj. simpl in Hj. rewrite length_app. simpl. lia.
    + constructor; [| constructor]. rewrite length_app. simpl. lia.
  - apply Forall2_app.
    + clear -Hb Hf. induction Hf as [| j r idx unique Hjr Hf IH]; [constructor |].
      apply Forall_cons in Hb as [Hj Hb]. constructor; [by apply first_seen_app | by apply IH].
    + constructor; [| constructor]. split.
      * rewrite lookup_app_r by lia. by rewrite Nat.sub_diag.
      * intros j' r' Hlt Hl' Hel' Hk. rewrite lookup_app_l in Hl' by lia.
        apply Hnew. rewrite <- Hk. apply Hc; [| done].
        by eapply list_elem_of_lookup_2.
Qed.

Lemma dedup_loop_inv rest : ∀ pre seen unique idx,
  dedup_inv pre seen unique idx →
  ∃ seen' idx', dedup_inv (pre ++ rest) seen' (dedup_loop rest seen unique) idx'.
Proof.
  induction rest as [| it rest IH]; intros pre seen unique idx Hinv; simpl.
  - rewrite app_nil_r. eauto.
  - replace (pre ++ it :: rest) with ((pre ++ [it]) ++ rest)
      by (rewrite <- app_assoc; done).
    destruct (str_truthy (it_name it)) eqn:Hn; simpl.
    2: { eapply IH, dedup_inv_skip; [done |]. intros [Hne _].
         apply str_truthy_true in Hne. congruence. }
    destruct (str_truthy (it_artist it)) eqn:Ha; simpl.
    2: { eapply IH, dedup_inv_skip; [done |]. intros [_ Hne].
         apply str_truthy_true in Hne. congruence. }
    case_bool_decide as Hin; simpl.
    + eapply IH, dedup_inv_skip; done.
    + eapply IH, dedup_inv_keep; [done | | done].
      split; by apply str_truthy_true.
Qed.

(** What the loop computes from the whole source sequence. *)
Lemma dedup_loop_first_seen items :
  ∃ idx, StronglySorted lt idx
         ∧ Forall2 (first_seen items) idx (dedup_loop items ∅ [])
         ∧ Forall eligible (dedup_loop items ∅ []).
Proof.
  destruct (dedup_loop_inv items [] ∅ [] [] dedup_inv_init) as (seen & idx & Hinv).
  simpl in Hinv. exists idx. destruct Hinv; done.
Qed.

Lemma sorted_lookup_lt (idx : list nat) a b ja jb :
  StronglySorted lt idx → (a < b)%nat → idx !! a = Some ja → idx !! b = Some jb →
  (ja < jb)%nat.
Proof.
  intros Hs. revert a b. induction Hs as [| j idx Hs IH Hall]; intros a b Hab Ha Hb.
  - done.
  - destruct b as [| b]; [lia |]. simpl in Hb. destruct a as [| a]; simpl in Ha.
    + injection Ha as <-. rewrite Forall_forall in Hall. apply Hall.
      by eapply list_elem_of_lookup_2.
    + apply (IH a b); [lia | done | done].
Qed.

(** When case folding sends only the empty string to the folded empty
    string, as Python's does, a first-seen record has no earlier record at
    all with its key. *)
Lemma first_seen_no_earlier items j r :
  (∀ s, str_lower s = str_lower EmptyString → s = EmptyString) →
  eligible r → first_seen items j r →
  ∀ j' r', (j' < j)%nat → items !! j' = Some r' → dedup_key r' ≠ dedup_key r.
Proof.
  intros Hlaw [Hn Ha] [_ Hf] j' r' Hlt Hl Hk. apply (Hf j' r' Hlt Hl); [| done].
  unfold dedup_key in Hk. injection Hk as Hk1 Hk2.
  split; intros Heq; rewrite Heq in *; [apply Hn | apply Ha]; by apply Hlaw.
Qed.

End ReaderFacts.

Lemma ascii_lower_empty s :
  AsciiText.lower s = AsciiText.lower EmptyString → s = EmptyString.
Proof. by destruct s. Qed.

(** C5. Whatever the file and the playlist name, the list the reader
    returns has no two records (at different places) with the same title and
    the same artist up to case, has no record with an empty title or an
    empty artist, and keeps the order of first appearance: every record it
    keeps is the first one with its key in the resolved source sequence
    [items], and two kept records stand in the order of those first
    appearances. *)
Theorem load_apple_xml_deduplicated `{PyText} (fs : FileSystem) (xml_path : string)
    (preferred_playlist : option string) (out : list TrackRecord) :
  load_apple_xml fs xml_path preferred_playlist = Ok out →
  (∀ a b ra rb, out !! a = Some ra → out !! b = Some rb →
     str_lower (it_name ra) = str_lower (it_name rb) →
     str_lower (it_artist ra) = str_lower (it_artist rb) → a = b)
  ∧ (∀ r, r ∈ out → it_name r ≠ EmptyString ∧ it_artist r ≠ EmptyString)
  ∧ ∃ items, resolve_items fs xml_path preferred_playlist = Ok items
      ∧ (∀ r, r ∈ out → ∃ j, first_seen items j r)
      ∧ (∀ a b ra rb, (a < b)%nat → out !! a = Some ra → out !! b = Some rb →
           ∃ ja jb, (ja < jb)%nat ∧ first_seen items ja ra ∧ first_seen items jb rb).
Proof.
  unfold load_apple_xml. intros Hload.
  destruct (resolve_items fs xml_path preferred_playlist) as [items | e |] eqn:Hres;
    [| discriminate | discriminate].
  injection Hload as <-.
  destruct (dedup_loop_first_seen items) as (idx & Hsorted & Hfirst & Helig).
  set (out := dedup_loop items ∅ []) in *.
  assert (Hpair : ∀ a b ra rb, (a < b)%nat → out !! a = Some ra → out !! b = Some rb →
            ∃ ja jb, (ja < jb)%nat ∧ first_seen items ja ra ∧ first_seen items jb rb).
  { intros a b ra rb Hab Ha Hb.
    destruct (Forall2_lookup_r _ _ _ _ _ Hfirst Ha) as (ja & Hja & Hfa).
    destruct (Forall2_lookup_r _ _ _ _ _ Hfirst Hb) as (jb & Hjb & Hfb).
    exists ja, jb. split; [| done]. by eapply sorted_lookup_lt. }
  assert (Hdiff : ∀ a b ra rb, (a < b)%nat → out !! a = Some ra → out !! b = Some rb →
            dedup_key ra ≠ dedup_key rb).
  { intros a b ra rb Hab Ha Hb.
    destruct (Hpair a b ra rb Hab Ha Hb) as (ja & jb & Hlt & [Hla _] & [_ Hfb]).
    apply (Hfb ja ra Hlt Hla). rewrite Forall_forall in Helig. apply Helig.
    by eapply list_elem_of_lookup_2. }
  split; [| split].
  - intros a b ra rb Ha Hb Hn Hart.
    assert (Hk : dedup_key ra = dedup_key rb) by (unfold dedup_key; congruence).
    destruct (Nat.lt_trichotomy a b) as [Hlt | [Heq | Hgt]]; [| done |].
    + by destruct (Hdiff a b ra rb Hlt Ha Hb).
    + by destruct (Hdiff b a rb ra Hgt Hb Ha).
  - intros r Hr. rewrite Forall_forall in Helig. by apply Helig.
  - exists items. split; [done |]. split; [| done].
    intros r Hr. apply list_elem_of_lookup_1 in Hr as [a Ha].
    destruct (Forall2_lookup_r _ _ _ _ _ Hfirst Ha) as (ja & _ & Hfa). by exists ja.
Qed.

Lemma load_apple_xml_deduplicated_witness :
  let out := [{| it_name := "Yesterday"; it_artist := "The Beatles"; it_year := Some 1965 |}] in
  @load_apple_xml ascii_text Sample.files "library.xml" None = Ok out
  ∧ ∀ r, r ∈ out → it_name r ≠ EmptyString ∧ it_artist r ≠ EmptyString.
Proof.
  intros out. split; [vm_compute; reflexivity |].
  apply (@load_apple_xml_deduplicated ascii_text Sample.files "library.xml" None out).
  vm_compute. reflexivity.
Defined.

(** ** Batches of one hundred *)

Lemma range_from_unfold fuel i stop step :
  range_from (S fuel) i stop step
  = if (i <? stop)%nat then i :: range_from fuel (i + step) stop step else [].
Proof. reflexivity. Qed.

(** With enough fuel the offsets cut [l] from [i] on into consecutive
    slices. *)
Lemma range_from_slices {A} (l : list A) fuel : ∀ i,
  (length l - i ≤ fuel)%nat →
  concat (map (λ j, slice l j 100) (range_from fuel i (length l) 100)) = drop i l.
Proof.
  induction fuel as [| fuel IH]; intros i Hfuel.
  - simpl. rewrite drop_ge by lia. done.
  - rewrite range_from_unfold. destruct (Nat.ltb_spec i (length l)) as [Hlt | Hge].
    + simpl. rewrite IH by lia. unfold slice.
      rewrite <- (take_drop 100 (drop i l)) at 2. by rewrite drop_drop.
    + simpl. rewrite drop_ge by lia. done.
Qed.

Lemma range_from_count fuel : ∀ i stop,
  (stop - i ≤ fuel)%nat →
  (stop - i ≤ 100 * length (range_from fuel i stop 100) < stop - i + 100)%nat.
Proof.
  induction fuel as [| fuel IH]; intros i stop Hfuel.
  - simpl. lia.
  - rewrite range_from_unfold. destruct (Nat.ltb_spec i stop) as [Hlt | Hge].
    + simpl length. specialize (IH (i + 100)%nat stop). lia.
    + simpl. lia.
Qed.

Lemma slice_length_le {A} (l : list A) i n : (length (slice l i n) ≤ n)%nat.
Proof. unfold slice. rewrite length_take. lia. Qed.

(** The batches the two batching loops send for the list [l]. *)
Lemma batches_spec {A} (l : list A) :
  let batches := map (λ j, slice l j 100) (range_step (length l) 100) in
  (length l ≤ 100 * length batches < length l + 100)%nat
  ∧ Forall (λ b, (length b ≤ 100)%nat) batches
  ∧ concat batches = l.
Proof.
  unfold range_step. split; [| split].
  - rewrite length_map. pose proof (range_from_count (length l) 0 (length l)). lia.
  - apply Forall_forall. intros b Hb. apply list_elem_of_fmap in Hb as (j & -> & _).
    apply slice_length_le.
  - rewrite range_from_slices by lia. done.
Qed.

(** *** The service keeps its playlists under the item requests *)

Lemma find_playlist_update_items pid pid' f ps :
  is_Some (find_playlist pid (update_items pid' f ps)) ↔ is_Some (find_playlist pid ps).
Proof.
  unfold find_playlist, update_items. induction ps as [| p ps IH]; simpl; [done |].
  destruct (String.eqb (pl_id p) pid') eqn:E; simpl;
    destruct (String.eqb (pl_id p) pid) eqn:E'; simpl; try done;
    split; intros _; eauto.
Qed.

Lemma update_items_compose pid f g ps :
  update_items pid g (update_items pid f ps) = update_items pid (λ its, g (f its)) ps.
Proof.
  unfold update_items. rewrite map_map. apply map_ext. intros p.
  destruct (String.eqb (pl_id p) pid) eqn:E; simpl; rewrite E; done.
Qed.

Lemma update_items_ext pid f g ps :
  (∀ its, f its = g its) → update_items pid f ps = update_items pid g ps.
Proof.
  intros Hfg. unfold update_items. apply map_ext. intros p.
  destruct (String.eqb (pl_id p) pid); [by rewrite Hfg | done].
Qed.

Lemma update_items_id pid ps : update_items pid (λ its, its) ps = ps.
Proof.
  unfold update_items. rewrite <- (map_id ps) at 2. apply map_ext. intros p.
  destruct (String.eqb (pl_id p) pid); by destruct p.
Qed.

Lemma add_loop_spec playlist_id track_ids offsets : ∀ w,
  is_Some (find_playlist playlist_id (w_playlists w)) →
  ∃ w', add_loop playlist_id track_ids offsets w = (Ok tt, w')
    ∧ w_trace w' = w_trace w
        ++ map (λ j, EvAddItems playlist_id (slice track_ids j 100)) offsets
    ∧ w_playlists w' = update_items playlist_id
        (λ its, its ++ map added_item
                         (concat (map (λ j, slice track_ids j 100) offsets)))
        (w_playlists w).
Proof.
  induction offsets as [| i offsets IH]; intros w Hex.
  - exists w. simpl. rewrite app_nil_r. split; [done | split; [done |]].
    rewrite <- (update_items_id playlist_id (w_playlists w)) at 1.
    apply update_items_ext. intros its. by rewrite app_nil_r.
  - simpl. unfold bind, sp_playlist_add_items.
    destruct Hex as [p Hp]. rewrite Hp.
    match goal with |- context [add_loop _ _ _ ?w1] => destruct (IH w1) as (w' & Hrun & Htr & Hpl) end.
    { simpl. apply find_playlist_update_items. eauto. }
    exists w'. split; [done |]. split.
    + rewrite Htr. simpl. by rewrite <- app_assoc.
    + rewrite Hpl. simpl. rewrite update_items_compose. apply update_items_ext.
      intros its. rewrite map_app, app_assoc. done.
Qed.

(** C6. Writing back [M] matched ids to a playlist of the library issues
    one add-items request per batch and nothing else: the number [n] of
    requests is the ceiling of [M / 100] (that is, [M <= 100 n < M + 100]),
    no batch holds more than 100 ids, the batches in request order
    concatenate to the input list, and the playlist ends with the new items
    in that order. *)
Theorem add_tracks_in_batches_spec (playlist_id : string) (track_ids : list string)
    (w : World) :
  is_Some (find_playlist playlist_id (w_playlists w)) →
  ∃ (batches : list (list string)) (w' : World),
    add_tracks_in_batches playlist_id track_ids w = (Ok tt, w')
    ∧ w_trace w' = w_trace w ++ map (EvAddItems playlist_id) batches
    ∧ (length track_ids ≤ 100 * length batches < length track_ids + 100)%nat
    ∧ Forall (λ b, (length b ≤ 100)%nat) batches
    ∧ concat batches = track_ids
    ∧ w_playlists w' = update_items playlist_id
        (λ its, its ++ map added_item track_ids) (w_playlists w).
Proof.
  intros Hex. unfold add_tracks_in_batches.
  destruct (add_loop_spec playlist_id track_ids
              (range_step (length track_ids) 100) w Hex) as (w' & Hrun & Htr & Hpl).
  destruct (batches_spec track_ids) as (Hcount & Hcap & Hcat).
  exists (map (λ j, slice track_ids j 100) (range_step (length track_ids) 100)), w'.
  split; [done |]. split; [by rewrite Htr, map_map |].
  split; [done |]. split; [done |]. split; [done |].
  by rewrite Hpl, Hcat.
Qed.

Lemma add_tracks_in_batches_witness :
  let w := Sample.world [Sample.playlist "pl" "Mix" "me" []] Sample.silent in
  is_Some (find_playlist "pl" (w_playlists w))
  ∧ ∃ (batches : list (list string)) (w' : World),
      add_tracks_in_batches "pl" ["a"; "b"; "c"] w = (Ok tt, w')
      ∧ w_trace w' = map (EvAddItems "pl") batches
      ∧ concat batches = ["a"; "b"; "c"].
Proof.
  intros w. split; [by eexists |].
  destruct (add_tracks_in_batches_spec "pl" ["a"; "b"; "c"] w)
    as (batches & w' & Hrun & Htr & _ & _ & Hcat & _); [by eexists |].
  by exists batches, w'.
Defined.

(** ** Clearing a playlist *)

Lemma find_playlist_update_items_eq pid f ps :
  find_playlist pid (update_items pid f ps)
  = (λ p, {| pl_id := pl_id p; pl_name := pl_name p; pl_owner := pl_owner p;
             pl_public := pl_public p; pl_description := pl_description p;
             pl_items := f (pl_items p) |}) <$> find_playlist pid ps.
Proof.
  unfold find_playlist, update_items. induction ps as [| p ps IH]; simpl; [done |].
  destruct (String.eqb (pl_id p) pid) eqn:E; simpl; rewrite E; done.
Qed.

Lemma collect_uris_acc items : ∀ uris,
  collect_uris items uris
  = uris ++ map (λ it, default EmptyString (item_uri it)) (List.filter has_uri items).
Proof.
  induction items as [| it items IH]; intros uris; simpl.
  - by rewrite app_nil_r.
  - unfold has_uri. destruct (opt_truthy (item_uri it)); rewrite IH; [| done].
    simpl. by rewrite <- app_assoc.
Qed.

Lemma collect_uris_app items1 items2 uris :
  collect_uris (items1 ++ items2) uris = collect_uris items2 (collect_uris items1 uris).
Proof.
  rewrite !collect_uris_acc, List.filter_app, map_app, app_assoc. done.
Qed.

Lemma next_url_truthy pid limit offset : opt_truthy (Some (next_url pid limit offset)) = true.
Proof. reflexivity. Qed.

Lemma page_events_cons pid o k :
  EvPlaylistItems pid 100 o
    :: map (λ i, EvPlaylistItems pid 100 (o + 100 + 100 * i)) (seq 0 k)
  = map (λ i, EvPlaylistItems pid 100 (o + 100 * i)) (seq 0 (S k)).
Proof.
  simpl. f_equal; [f_equal; lia |]. rewrite <- seq_shift, map_map.
  apply map_ext. intros i. f_equal. lia.
Qed.

(** The reading loop, started at [offset] with enough fuel, visits the pages
    one after the other up to the end of the playlist. *)
Lemma clear_read_loop_spec pid p fuel : ∀ offset uris w,
  find_playlist pid (w_playlists w) = Some p →
  (length (pl_items p) - offset < fuel)%nat →
  ∃ k, clear_read_loop fuel pid 100 offset uris w
       = (Ok (collect_uris (drop offset (pl_items p)) uris),
          with_trace w (w_trace w
             ++ map (λ i, EvPlaylistItems pid 100 (offset + 100 * i)) (seq 0 k)))
     ∧ (length (pl_items p) - offset ≤ 100 * k
        < Nat.max (length (pl_items p) - offset) 1 + 100)%nat.
Proof.
  induction fuel as [| fuel IH]; intros offset uris w Hp Hfuel; [lia |].
  simpl. unfold bind, sp_playlist_items. rewrite Hp. simpl.
  destruct (take 100 (drop offset (pl_items p))) as [| it page] eqn:Hpage.
  - exists 1%nat. assert (Hlen : length (take 100 (drop offset (pl_items p))) = 0%nat)
      by (by rewrite Hpage).
    rewrite length_take, length_drop in Hlen.
    rewrite drop_ge by lia. simpl. rewrite Nat.add_0_r. split; [done | lia].
  - assert (Hlen : length (take 100 (drop offset (pl_items p))) = S (length page))
      by (by rewrite Hpage).
    rewrite length_take, length_drop in Hlen.
    destruct (Nat.ltb_spec (offset + 100) (length (pl_items p))) as [Hmore | Hlast].
    + rewrite next_url_truthy. cbn [negb].
      match goal with |- context [clear_read_loop fuel pid 100 ?o ?u ?w1] =>
        destruct (IH o u w1) as (k & Hrun & Hk) end; [done | lia |].
      exists (S k). rewrite Hrun. split; [| lia].
      f_equal; [| ].
      * f_equal. rewrite <- Hpage, <- collect_uris_app.
        rewrite <- drop_drop, take_drop. done.
      * simpl w_trace. unfold with_trace at 1. simpl.
        rewrite <- app_assoc. simpl. rewrite page_events_cons. done.
    + cbn [negb opt_truthy]. unfold ret. exists 1%nat. split; [| lia].
      rewrite <- Hpage, take_ge by (rewrite length_drop; lia).
      simpl. by rewrite Nat.add_0_r.
Qed.

Lemma uri_listed_app uris1 uris2 it :
  uri_listed (uris1 ++ uris2) it = uri_listed uris1 it || uri_listed uris2 it.
Proof.
  unfold uri_listed. destruct (item_uri it) as [u |]; [| done].
  rewrite <- bool_decide_or. apply bool_decide_ext, elem_of_app.
Qed.

Lemma filter_listed_app uris1 uris2 (its : list PlaylistItem) :
  List.filter (λ it, negb (uri_listed uris2 it))
    (List.filter (λ it, negb (uri_listed uris1 it)) its)
  = List.filter (λ it, negb (uri_listed (uris1 ++ uris2) it)) its.
Proof.
  induction its as [| it its IH]; simpl; [done |].
  rewrite uri_listed_app.
  destruct (uri_listed uris1 it) eqn:E1; simpl; [done |].
  destruct (uri_listed uris2 it) eqn:E2; simpl; by rewrite IH.
Qed.

Lemma filter_listed_nil (its : list PlaylistItem) :
  List.filter (λ it, negb (uri_listed [] it)) its = its.
Proof.
  induction its as [| it its IH]; simpl; [done |].
  unfold uri_listed at 1. destruct (item_uri it); simpl; by rewrite IH.
Qed.

Lemma remove_loop_spec playlist_id uris offsets : ∀ w,
  is_Some (find_playlist playlist_id (w_playlists w)) →
  ∃ w', remove_loop playlist_id uris offsets w = (Ok tt, w')
    ∧ w_trace w' = w_trace w
        ++ map (λ j, EvRemoveItems playlist_id (slice uris j 100)) offsets
    ∧ w_playlists w' = update_items playlist_id
        (List.filter (λ it, negb (uri_listed
                                    (concat (map (λ j, slice uris j 100) offsets)) it)))
        (w_playlists w).
Proof.
  induction offsets as [| i offsets IH]; intros w Hex.
  - exists w. simpl. rewrite app_nil_r. split; [done | split; [done |]].
    rewrite <- (update_items_id playlist_id (w_playlists w)) at 1.
    apply update_items_ext. intros its. by rewrite filter_listed_nil.
  - simpl. unfold bind, sp_playlist_remove_all_occurrences_of_items.
    destruct Hex as [p Hp]. rewrite Hp.
    match goal with |- context [remove_loop _ _ _ ?w1] =>
      destruct (IH w1) as (w' & Hrun & Htr & Hpl) end.
    { simpl. apply find_playlist_update_items. eauto. }
    exists w'. split; [done |]. split.
    + rewrite Htr. simpl. by rewrite <- app_assoc.
    + rewrite Hpl. simpl. rewrite update_items_compose. apply update_items_ext.
      intros its. apply filter_listed_app.
Qed.

(** Removing every collected uri leaves exactly the items without one. *)
Lemma filter_listed_collected (its : list PlaylistItem) :
  List.filter (λ it, negb (uri_listed (collect_uris its []) it)) its
  = List.filter (λ it, negb (has_uri it)) its.
Proof.
  apply List.filter_ext_in. intros it Hin. f_equal.
  rewrite collect_uris_acc. simpl. unfold uri_listed, has_uri.
  destruct (item_uri it) as [u |] eqn:Hu; simpl; [| done].
  destruct (str_truthy u) eqn:Ht.
  - apply bool_decide_eq_true. apply list_elem_of_fmap. exists it.
    rewrite Hu. split; [done |]. apply list_elem_of_In, List.filter_In.
    split; [done |]. unfold has_uri. by rewrite Hu.
  - apply bool_decide_eq_false. intros Hin'.
    apply list_elem_of_fmap in Hin' as (it' & Hit' & Hin').
    apply list_elem_of_In, List.filter_In in Hin' as [_ Hhas]. unfold has_uri in Hhas.
    destruct (item_uri it') as [u' |]; simpl in *; [| done]. congruence.
Qed.

(** The whole clearing run on a playlist [p] of the library. *)
Lemma clear_playlist_run (fuel : nat) (playlist_id : string) (p : SpPlaylist) (w : World) :
  find_playlist playlist_id (w_playlists w) = Some p →
  (length (pl_items p) < fuel)%nat →
  let uris := map (λ it, default EmptyString (item_uri it)) (List.filter has_uri (pl_items p)) in
  ∃ (k : nat) (batches : list (list string)) (w' : World) (p' : SpPlaylist),
    clear_playlist fuel playlist_id w = (Ok tt, w')
    ∧ w_trace w' = w_trace w
        ++ map (λ i, EvPlaylistItems playlist_id 100 (100 * i)) (seq 0 k)
        ++ map (EvRemoveItems playlist_id) batches
    ∧ (length (pl_items p) ≤ 100 * k < Nat.max (length (pl_items p)) 1 + 100)%nat
    ∧ concat batches = uris
    ∧ (length uris ≤ 100 * length batches < length uris + 100)%nat
    ∧ Forall (λ b, (length b ≤ 100)%nat) batches
    ∧ find_playlist playlist_id (w_playlists w') = Some p'
    ∧ pl_items p' = List.filter (λ it, negb (has_uri it)) (pl_items p).
Proof.
  intros Hp Hfuel uris. unfold clear_playlist, bind.
  destruct (clear_read_loop_spec playlist_id p fuel 0 [] w Hp) as (k & Hread & Hk); [lia |].
  rewrite Hread. rewrite drop_0.
  assert (Huris : collect_uris (pl_items p) [] = uris)
    by (by rewrite collect_uris_acc).
  match goal with |- context [remove_loop _ _ _ ?w1] =>
    destruct (remove_loop_spec playlist_id (collect_uris (pl_items p) [])
                (range_step (length (collect_uris (pl_items p) [])) 100) w1)
      as (w' & Hrun & Htr & Hpl) end.
  { simpl. eauto. }
  destruct (batches_spec (collect_uris (pl_items p) [])) as (Hcount & Hcap & Hcat).
  simpl in Hcount, Hcap, Hcat. rewrite Hcat in Hpl. simpl in Htr, Hpl.
  eexists k, _, w', _. split; [exact Hrun |].
  split; [| split; [| split; [| split; [| split; [| split]]]]].
  - rewrite Htr, <- app_assoc, map_map. reflexivity.
  - rewrite Nat.sub_0_r in Hk. exact Hk.
  - rewrite <- Huris. exact Hcat.
  - rewrite <- Huris. exact Hcount.
  - exact Hcap.
  - rewrite Hpl, find_playlist_update_items_eq, Hp. reflexivity.
  - simpl. apply filter_listed_collected.
Qed.

Lemma removals_app t1 t2 : removals (t1 ++ t2) = removals t1 ++ removals t2.
Proof. unfold removals. apply omap_app. Qed.

Lemma removals_reads pid (offsets : list nat) (f : nat → nat) :
  removals (map (λ i, EvPlaylistItems pid 100 (f i)) offsets) = [].
Proof. induction offsets as [| i offsets IH]; [done | exact IH]. Qed.

Lemma removals_batches pid (batches : list (list string)) :
  removals (map (EvRemoveItems pid) batches) = map (λ b, (pid, b)) batches.
Proof. induction batches as [| b batches IH]; [done |]. simpl. by rewrite <- IH. Qed.

Lemma filter_all_have_uri (its : list PlaylistItem) :
  Forall (λ it, has_uri it = true) its → List.filter (λ it, negb (has_uri it)) its = [].
Proof. induction 1 as [| it its Hit _ IH]; [done |]. simpl. by rewrite Hit. Qed.

(** C7 (the code at the failing input). [clear_playlist] is documented as
    "Remove all items from a playlist" and replace mode as replacing the
    contents of the playlist, but on a playlist whose only item has no
    track object the run reads one page, sends no removal request (the
    claim counts one for [N = 1], the ceiling of 1/100), and the item is
    still in the playlist afterwards: one item left, not zero. *)
Lemma clear_playlist_leaves_item_without_uri :
  let p := Sample.playlist "pl" "Mix" "me" [Sample.no_track] in
  let w := Sample.world [p] Sample.silent in
  ∃ w', clear_playlist 2 "pl" w = (Ok tt, w')
    ∧ length (pl_items p) = 1%nat
    ∧ w_trace w' = [EvPlaylistItems "pl" 100 0]
    ∧ length (removals (w_trace w')) = 0%nat
    ∧ pl_items <$> find_playlist "pl" (w_playlists w') = Some [Sample.no_track].
Proof. eexists. repeat split. Qed.

(** C10. While clearing, a uri reaches a removal request only if it is not
    empty and is the uri of the track object of some item of the playlist;
    an item whose track object is absent, or has no uri or an empty one, is
    in no request and is still in the playlist afterwards. *)
Theorem clear_playlist_skips_items_without_uri (fuel : nat) (playlist_id : string)
    (p : SpPlaylist) (w : World) :
  find_playlist playlist_id (w_playlists w) = Some p →
  (length (pl_items p) < fuel)%nat →
  ∃ (evs : list Event) (w' : World) (p' : SpPlaylist),
    clear_playlist fuel playlist_id w = (Ok tt, w')
    ∧ w_trace w' = w_trace w ++ evs
    ∧ find_playlist playlist_id (w_playlists w') = Some p'
    ∧ (∀ pid uris u, (pid, uris) ∈ removals evs → u ∈ uris →
         u ≠ EmptyString
         ∧ ∃ it track, it ∈ pl_items p ∧ pi_track it = Some track ∧ tk_uri track = Some u)
    ∧ (∀ it, it ∈ pl_items p →
         (pi_track it = None
          ∨ (∃ track, pi_track it = Some track
                      ∧ (tk_uri track = None ∨ tk_uri track = Some EmptyString))) →
         it ∈ pl_items p'
         ∧ ∀ pid uris u, (pid, uris) ∈ removals evs → u ∈ uris → item_uri it ≠ Some u).
Proof.
  intros Hp Hfuel.
  destruct (clear_playlist_run fuel playlist_id p w Hp Hfuel)
    as (k & batches & w' & p' & Hrun & Htr & _ & Hcat & _ & _ & Hp' & Hleft).
  eexists _, w', p'. split; [exact Hrun |]. split; [exact Htr |]. split; [exact Hp' |].
  assert (Hsent : ∀ pid uris u,
            (pid, uris) ∈ removals
               (map (λ i, EvPlaylistItems playlist_id 100 (100 * i)) (seq 0 k)
                ++ map (EvRemoveItems playlist_id) batches) →
            u ∈ uris →
            ∃ it, it ∈ pl_items p ∧ has_uri it = true ∧ item_uri it = Some u).
  { intros pid uris u Hin Hu.
    rewrite removals_app, removals_reads, removals_batches in Hin. simpl in Hin.
    apply list_elem_of_fmap in Hin as (b & [= -> ->] & Hb).
    assert (Hcu : u ∈ concat batches).
    { apply list_elem_of_In, in_concat. exists b. by rewrite <- !list_elem_of_In. }
    rewrite Hcat in Hcu. apply list_elem_of_fmap in Hcu as (it & -> & Hit).
    apply list_elem_of_In, List.filter_In in Hit as [Hit Hhas].
    exists it. split; [by apply list_elem_of_In |]. split; [done |].
    unfold has_uri in Hhas. by destruct (item_uri it). }
  split.
  - intros pid uris u Hin Hu. destruct (Hsent pid uris u Hin Hu) as (it & Hit & Hhas & Huri).
    unfold has_uri in Hhas. rewrite Huri in Hhas. simpl in Hhas. split.
    + intros ->. discriminate.
    + unfold item_uri in Huri. destruct (pi_track it) as [track |] eqn:Htrack; [| done].
      by exists it, track.
  - intros it Hit Hno.
    assert (Hhas : has_uri it = false).
    { unfold has_uri, item_uri.
      destruct Hno as [-> | (track & -> & [-> | ->])]; reflexivity. }
    split.
    + rewrite Hleft. apply list_elem_of_In, List.filter_In.
      split; [by apply list_elem_of_In | by rewrite Hhas].
    + intros pid uris u Hin Hu Huri.
      destruct (Hsent pid uris u Hin Hu) as (it' & _ & Hhas' & Huri').
      unfold has_uri in Hhas, Hhas'. rewrite Huri in Hhas. rewrite Huri' in Hhas'.
      congruence.
Qed.

Lemma clear_playlist_skips_items_without_uri_witness :
  let p := Sample.playlist "pl" "Mix" "me"
             [Sample.no_uri; Sample.with_uri "spotify:track:a"; Sample.no_track] in
  ∃ (evs : list Event) (w' : World) (p' : SpPlaylist),
    clear_playlist 4 "pl" (Sample.world [p] Sample.silent) = (Ok tt, w')
    ∧ find_playlist "pl" (w_playlists w') = Some p'
    ∧ Sample.no_uri ∈ pl_items p' ∧ Sample.no_track ∈ pl_items p'.
Proof.
  intros p.
  destruct (clear_playlist_skips_items_without_uri 4 "pl" p (Sample.world [p] Sample.silent))
    as (evs & w' & p' & Hrun & _ & Hp' & _ & Hstay).
  - reflexivity.
  - subst p. simpl. lia.
  - exists evs, w', p'. split; [exact Hrun |]. split; [exact Hp' |]. split.
    + apply Hstay; [subst p; simpl; by repeat constructor |].
      right. exists {| tk_uri := None |}. by split; [| left].
    + apply Hstay; [subst p; simpl; by repeat constructor | by left].
Defined.

(** ** The search matcher *)

Section MatcherFacts.
Context `{PyText}.

Lemma exact_match_spec name artist it :
  exact_match name artist it = true ↔ is_exact name artist it.
Proof.
  unfold exact_match, is_exact.
  rewrite andb_true_iff, !bool_decide_eq_true, elem_of_list_to_set, list_elem_of_fmap.
  split; intros [Hn (a & Ha & Hin)]; (split; [done |]); by exists a.
Qed.

Lemma first_exact_pass name artist items :
  pass_result name artist items
    match first_exact name artist items with
    | Some it => Some (c_id it)
    | None => match items with
              | it0 :: _ => Some (c_id it0)
              | [] => None
              end
    end.
Proof.
  assert (Hsplit : ∀ l,
    match first_exact name artist l with
    | Some it => ∃ pre post, l = pre ++ it :: post
                             ∧ Forall (λ c, ¬ is_exact name artist c) pre
                             ∧ is_exact name artist it
    | None => Forall (λ c, ¬ is_exact name artist c) l
    end).
  { induction l as [| c l IH]; simpl; [constructor |].
    destruct (exact_match name artist c) eqn:E.
    - exists [], l. split; [done |]. split; [constructor | by apply exact_match_spec].
    - assert (Hc : ¬ is_exact name artist c)
        by (rewrite <- exact_match_spec; congruence).
      destruct (first_exact name artist l) as [it |].
      + destruct IH as (pre & post & -> & Hpre & Hit).
        exists (c :: pre), post. split; [done |]. split; [by constructor | done].
      + by constructor. }
  specialize (Hsplit items). destruct (first_exact name artist items) as [it |].
  - destruct Hsplit as (pre & post & -> & Hpre & Hit). by constructor.
  - destruct items as [| it0 rest]; by constructor.
Qed.


(** A pass whose candidates hold an exact match returns the first one. *)
Lemma pass_result_exact name artist items r :
  pass_result name artist items r →
  (∃ it, it ∈ items ∧ is_exact name artist it) →
  ∃ pre it post, items = pre ++ it :: post
                 ∧ Forall (λ c, ¬ is_exact name artist c) pre
                 ∧ is_exact name artist it ∧ r = Some (c_id it).
Proof.
  destruct 1 as [pre it post Hpre Hit | it0 rest Hnone |]; intros (c & Hc & Hex).
  - by exists pre, it, post.
  - rewrite Forall_forall in Hnone. by destruct (Hnone c Hc).
  - by apply elem_of_nil in Hc.
Qed.

Lemma search_attempt_answer q w res :
  w_search w (w_searches w) q = Answer res →
  search_attempt q w
  = (Ok res, with_trace (with_searches w (S (w_searches w)))
               (w_trace w ++ [EvSearch q 3])).
Proof. intros Hq. unfold search_attempt, try_except, sp_search. by rewrite Hq. Qed.

(** The loop over the queries when the service answers every request:
    [k] passes are made, all but the last come back empty, and the last
    decides. *)
Lemma search_loop_quiet name artist qs : ∀ candidates w,
  quiet w →
  ∃ (k : nat) (r : option string),
    search_loop qs name artist candidates w
    = (Ok r, with_trace (with_searches w (w_searches w + k))
               (w_trace w ++ map (λ q, EvSearch q 3) (take k qs)))
    ∧ (k ≤ length qs)%nat
    ∧ (k = 0%nat → qs = [] ∧ r = None)
    ∧ ∀ i q, (i < k)%nat → qs !! i = Some q →
        ∃ items, answer_items w (w_searches w + i) q = Some items
                 ∧ ((S i < k)%nat → items = [])
                 ∧ (S i = k → pass_result name artist items r
                              ∧ (items = [] → k = length qs)).
Proof.
  induction qs as [| q qs IH]; intros candidates w Hquiet.
  - exists 0%nat, None. simpl. rewrite Nat.add_0_r, app_nil_r.
    split; [by destruct w |]. split; [done |]. split; [done |]. intros i q Hi. lia.
  - destruct (Hquiet (w_searches w) q) as [res Hres].
    simpl. unfold bind. rewrite (search_attempt_answer q w res Hres).
    pose proof (first_exact_pass name artist (items_of res)) as Hpass.
    assert (Hitems : answer_items w (w_searches w + 0) q = Some (items_of res))
      by (unfold answer_items; by rewrite Nat.add_0_r, Hres).
    destruct (first_exact name artist (items_of res)) as [it |] eqn:Hfirst;
      [| destruct (items_of res) as [| it0 rest] eqn:Hlist].
    + exists 1%nat, (Some (c_id it)). simpl. rewrite Nat.add_1_r.
      split; [done |]. split; [lia |]. split; [lia |].
      intros i q' Hi Hq'. assert (i = 0%nat) as -> by lia. simpl in Hq'.
      injection Hq' as <-. eexists. split; [exact Hitems |]. split; [lia |].
      intros _. split; [done |]. intros Hnil. rewrite Hnil in Hfirst. done.
    + match goal with |- context [search_loop qs name artist ?c ?w1] =>
        destruct (IH c w1) as (k & r & Hrun & Hk & Hzero & Hpasses) end; [done |].
      exists (S k), r. rewrite Hrun. simpl.
      split.
      { f_equal. unfold with_trace, with_searches. simpl.
        rewrite <- app_assoc. simpl. f_equal. lia. }
      split; [lia |]. split; [lia |].
      intros [| i] q' Hi Hq'; simpl in Hq'.
      * injection Hq' as <-. exists []. split; [exact Hitems |].
        split; [done |]. intros Hk1. assert (k = 0%nat) as -> by lia.
        destruct Hzero as [-> ->]; [done |]. split; [constructor | done].
      * destruct (Hpasses i q') as (items & Hans & Hmid & Hlast); [lia | done |].
        exists items. simpl in Hans.
        replace (w_searches w + S i)%nat with (S (w_searches w + i)) by lia.
        split; [done |]. split; [intros; apply Hmid; lia |].
        intros Hk1. destruct Hlast as [Hp Hn]; [lia |]. split; [done |].
        intros Hnil. simpl. f_equal. by apply Hn.
    + exists 1%nat, (Some (c_id it0)). simpl. rewrite Nat.add_1_r.
      split; [done |]. split; [lia |]. split; [lia |].
      intros i q' Hi Hq'. assert (i = 0%nat) as -> by lia. simpl in Hq'.
      injection Hq' as <-. eexists. split; [exact Hitems |]. split; [lia |].
      intros _. split; [done |]. done.
Qed.

Lemma queries_order name artist year :
  queries name artist year
  = match year with
    | Some y => if Z.eqb y 0 then [] else [year_query name artist y]
    | None => []
    end ++ [strict_query name artist; loose_query name artist].
Proof. destruct year as [y |]; [| done]. unfold queries. simpl. by destruct (Z.eqb y 0). Qed.

Lemma queries_length name artist year :
  (2 ≤ length (queries name artist year) ≤ 3)%nat.
Proof.
  rewrite queries_order. destruct year as [y |]; [| simpl; lia].
  destruct (Z.eqb y 0); simpl; lia.
Qed.

End MatcherFacts.



(** C3 (amended). When the service answers every request and the first pass
    that comes back with candidates holds an exact match, the matcher
    returns the id of the first exact match of that pass, also when other
    candidates stand before it in the same pass.  (A pass that comes back
    with candidates and no exact match ends the search; later passes are
    not made.) *)
Theorem search_track_exact_in_first_answer `{PyText} (name artist : string)
    (year : option Z) (w : World) (k : nat) (q : string) (items : list Candidate) :
  quiet w →
  queries name artist year !! k = Some q →
  (∀ i q', (i < k)%nat → queries name artist year !! i = Some q' →
     answer_items w (w_searches w + i) q' = Some []) →
  answer_items w (w_searches w + k) q = Some items →
  (∃ it, it ∈ items ∧ is_exact name artist it) →
  ∃ pre it post,
    items = pre ++ it :: post
    ∧ Forall (λ c, ¬ is_exact name artist c) pre
    ∧ is_exact name artist it
    ∧ (search_track name artist year w).1 = Ok (Some (c_id it)).
Proof.
  intros Hquiet Hq Hempty Hans Hex.
  destruct (search_loop_quiet name artist (queries name artist year) [] w Hquiet)
    as (k' & r & Hrun & Hk' & Hzero & Hpasses).
  assert (Hlt : (k < length (queries name artist year))%nat)
    by (apply lookup_lt_is_Some; eauto).
  assert (Hne : items ≠ []).
  { destruct Hex as (it & Hit & _). intros ->. by apply elem_of_nil in Hit. }
  assert (k' = S k) as ->.
  { destruct (Nat.lt_trichotomy k' (S k)) as [Hsmall | [-> | Hbig]]; [| done |].
    - destruct k' as [| k'].
      { destruct Hzero as [Hnil _]; [done |]. rewrite Hnil in Hlt. simpl in Hlt. lia. }
      destruct (lookup_lt_is_Some_2 (queries name artist year) k') as [q' Hq']; [lia |].
      destruct (Hpasses k' q') as (items' & Hans' & _ & Hlast); [lia | done |].
      destruct Hlast as [_ Hall]; [done |].
      rewrite (Hempty k' q') in Hans' by (lia || done). injection Hans' as <-.
      specialize (Hall eq_refl). lia.
    - destruct (Hpasses k q) as (items' & Hans' & Hmid & _); [lia | done |].
      rewrite Hans in Hans'. injection Hans' as <-. destruct Hne. apply Hmid. lia. }
  destruct (Hpasses k q) as (items' & Hans' & _ & Hlast); [lia | done |].
  rewrite Hans in Hans'. injection Hans' as <-. destruct Hlast as [Hpass _]; [done |].
  destruct (pass_result_exact _ _ _ _ Hpass Hex) as (pre & it & post & -> & Hpre & Hit & ->).
  exists pre, it, post. unfold search_track. rewrite Hrun. done.
Qed.

Lemma search_track_exact_in_first_answer_witness :
  let cover := Sample.candidate "Yesterday" "Someone Else" "cover" in
  let exact := Sample.candidate "yesterday " "THE BEATLES" "exact" in
  let w := Sample.world [] (λ n q, if Nat.eqb n 0 then Sample.found []
                                   else Sample.found [cover; exact]) in
  ∃ pre it post,
    [cover; exact] = pre ++ it :: post
    ∧ Forall (λ c, ¬ @is_exact ascii_text "Yesterday" "The Beatles" c) pre
    ∧ @is_exact ascii_text "Yesterday" "The Beatles" it
    ∧ (@search_track ascii_text "Yesterday" "The Beatles" None w).1 = Ok (Some (c_id it)).
Proof.
  intros cover exact w.
  apply (@search_track_exact_in_first_answer ascii_text "Yesterday" "The Beatles" None w
           1 (loose_query "Yesterday" "The Beatles") [cover; exact]).
  - intros n q. destruct n; by eexists.
  - reflexivity.
  - intros i q' Hi Hq'. assert (i = 0%nat) as -> by lia. reflexivity.
  - reflexivity.
  - exists exact. split; [by repeat constructor |]. split; [reflexivity |].
    exists {| a_name := "THE BEATLES" |}. split; [by repeat constructor | reflexivity].
Defined.

(** The claim as the specification words it fails: the first pass returns a
    candidate that is no exact match, the next pass would return an exact
    match, and the matcher returns the id of the first. *)
Lemma search_track_keeps_first_candidates :
  let cover := Sample.candidate "Yesterday" "Someone Else" "cover" in
  let exact := Sample.candidate "Yesterday" "The Beatles" "exact" in
  let w := Sample.world [] (λ n q, if Nat.eqb n 0 then Sample.found [cover]
                                   else Sample.found [exact]) in
  queries "Yesterday" "The Beatles" None
  = [strict_query "Yesterday" "The Beatles"; loose_query "Yesterday" "The Beatles"]
  ∧ answer_items w 0 (strict_query "Yesterday" "The Beatles") = Some [cover]
  ∧ answer_items w 1 (loose_query "Yesterday" "The Beatles") = Some [exact]
  ∧ @exact_match ascii_text "Yesterday" "The Beatles" cover = false
  ∧ @exact_match ascii_text "Yesterday" "The Beatles" exact = true
  ∧ (@search_track ascii_text "Yesterday" "The Beatles" None w).1 = Ok (Some "cover").
Proof. vm_compute. repeat split. Qed.

(** ** Steps of the run *)

Lemma same_playlist_refl p : same_playlist p p.
Proof. by repeat split. Qed.

Lemma same_playlist_trans p1 p2 p3 :
  same_playlist p1 p2 → same_playlist p2 p3 → same_playlist p1 p3.
Proof. unfold same_playlist. intros (?&?&?&?&?) (?&?&?&?&?). repeat split; congruence. Qed.

Lemma update_items_same pid f ps p :
  p ∈ ps → ∃ p', p' ∈ update_items pid f ps ∧ same_playlist p p'.
Proof.
  intros Hp. unfold update_items.
  eexists. split; [apply list_elem_of_fmap; exists p; split; [reflexivity | exact Hp] |].
  destruct (String.eqb (pl_id p) pid); by repeat split.
Qed.

(** A step that makes no search request and keeps the playlists. *)
Lemma tame_local {A} (m : M A) :
  (∀ w, w_search (m w).2 = w_search w
        ∧ w_user (m w).2 = w_user w
        ∧ w_searches (m w).2 = w_searches w
        ∧ (∃ evs, w_trace (m w).2 = w_trace w ++ evs)
        ∧ (∀ p, p ∈ w_playlists w → ∃ p', p' ∈ w_playlists (m w).2 ∧ same_playlist p p')) →
  tame m.
Proof.
  intros Hm w r w' Heq. destruct (Hm w) as (Hs & Hu & Hn & Ht & Hp).
  rewrite Heq in *. simpl in *.
  split; [done |]. split; [done |]. split; [lia |]. split; [done |]. split; [done |].
  intros n st ra Hrange. lia.
Qed.

(** The first four parts of the premise of [tame_local]. *)
Ltac local_parts :=
  split; [done |]; split; [done |]; split; [done |];
  split; [first [by eexists | exists []; by rewrite app_nil_r] |].

Ltac keep_playlists :=
  let p := fresh "p" in let Hp := fresh "Hp" in
  intros p Hp; exists p; split; [done | apply same_playlist_refl].

Ltac tame_step :=
  apply tame_local; intros w; simpl; local_parts; keep_playlists.

Lemma tame_ret {A} (a : A) : tame (ret a).
Proof. tame_step. Qed.

Lemma tame_raise {A} (e : exn) : tame (@raise A e).
Proof. tame_step. Qed.

Lemma tame_out_of_fuel {A} : tame (@out_of_fuel A).
Proof. tame_step. Qed.

Lemma tame_lift {A} (r : result A) : tame (lift r).
Proof. tame_step. Qed.

Lemma tame_emit ev : tame (emit ev).
Proof. tame_step. Qed.

Lemma tame_print msg : tame (print msg).
Proof. apply tame_emit. Qed.

Lemma tame_print_err msg : tame (print_err msg).
Proof. apply tame_emit. Qed.

Lemma tame_sys_exit {A} code : tame (@sys_exit A code).
Proof. apply tame_raise. Qed.

Lemma tame_bind {A B} (m : M A) (k : A → M B) :
  tame m → (∀ a, tame (k a)) → tame (bind m k).
Proof.
  intros Hm Hk w r w' Heq. unfold bind in Heq.
  destruct (m w) as [[a | e |] w1] eqn:Hmw.
  - destruct (Hm w _ _ Hmw) as (Hs1 & Hu1 & Hn1 & [evs1 Ht1] & Hp1 & Ha1).
    destruct (Hk a w1 _ _ Heq) as (Hs2 & Hu2 & Hn2 & [evs2 Ht2] & Hp2 & Ha2).
    split; [congruence |]. split; [congruence |]. split; [lia |].
    split; [exists (evs1 ++ evs2); by rewrite Ht2, Ht1, app_assoc |].
    split.
    + intros p Hp. destruct (Hp1 p Hp) as (p1 & Hin1 & Hsame1).
      destruct (Hp2 p1 Hin1) as (p2 & Hin2 & Hsame2).
      exists p2. split; [done | by eapply same_playlist_trans].
    + intros n st ra Hrange Hfail Hst.
      destruct (decide (n < w_searches w1)%nat) as [Hlt | Hge].
      * destruct (Ha1 n st ra) as [Hr _]; [lia | done | done | discriminate].
      * apply Ha2; [lia | | done]. intros q. rewrite Hs1. apply Hfail.
  - injection Heq as <- <-.
    destruct (Hm w _ _ Hmw) as (Hs1 & Hu1 & Hn1 & Ht1 & Hp1 & Ha1).
    split; [done |]. split; [done |]. split; [done |]. split; [done |]. split; [done |].
    intros n st ra Hrange Hfail Hst.
    destruct (Ha1 n st ra Hrange Hfail Hst) as [Hr Hn]. split; [congruence | done].
  - injection Heq as <- <-.
    destruct (Hm w _ _ Hmw) as (Hs1 & Hu1 & Hn1 & Ht1 & Hp1 & Ha1).
    split; [done |]. split; [done |]. split; [done |]. split; [done |]. split; [done |].
    intros n st ra Hrange Hfail Hst.
    destruct (Ha1 n st ra Hrange Hfail Hst) as [Hr Hn]. discriminate.
Qed.

Lemma bind_ok {A B} (m : M A) (k : A → M B) (w w1 : World) (a : A) :
  m w = (Ok a, w1) → bind m k w = k a w1.
Proof. intros Hm. unfold bind. by rewrite Hm. Qed.

Lemma bind_raise {A B} (m : M A) (k : A → M B) (w w1 : World) (e : exn) :
  m w = (Raise e, w1) → bind m k w = (Raise e, w1).
Proof. intros Hm. unfold bind. by rewrite Hm. Qed.

Lemma tame_sp_current_user : tame sp_current_user.
Proof. tame_step. Qed.

Lemma tame_sp_user_playlist_create uid name public description :
  tame (sp_user_playlist_create uid name public description).
Proof.
  apply tame_local. intros w. simpl. local_parts.
  intros p Hp. exists p. split; [by apply list_elem_of_further | apply same_playlist_refl].
Qed.

Lemma tame_sp_current_user_playlists limit offset :
  tame (sp_current_user_playlists limit offset).
Proof. tame_step. Qed.

Lemma tame_sp_playlist_items pid limit offset : tame (sp_playlist_items pid limit offset).
Proof.
  apply tame_local. intros w. unfold sp_playlist_items.
  destruct (find_playlist pid (w_playlists w)); simpl; local_parts; keep_playlists.
Qed.

Lemma tame_sp_playlist_add_items pid items : tame (sp_playlist_add_items pid items).
Proof.
  apply tame_local. intros w. unfold sp_playlist_add_items.
  destruct (find_playlist pid (w_playlists w)); simpl; local_parts.
  - intros p Hp. by apply update_items_same.
  - keep_playlists.
Qed.

Lemma tame_sp_playlist_remove pid uris :
  tame (sp_playlist_remove_all_occurrences_of_items pid uris).
Proof.
  apply tame_local. intros w. unfold sp_playlist_remove_all_occurrences_of_items.
  destruct (find_playlist pid (w_playlists w)); simpl; local_parts.
  - intros p Hp. by apply update_items_same.
  - keep_playlists.
Qed.

Lemma tame_time_sleep seconds : tame (time_sleep seconds).
Proof. apply tame_emit. Qed.

Create HintDb tame.

#[local] Hint Resolve tame_ret tame_raise tame_out_of_fuel tame_lift tame_emit tame_print
  tame_print_err tame_sys_exit tame_sp_current_user tame_sp_user_playlist_create
  tame_sp_current_user_playlists tame_sp_playlist_items tame_sp_playlist_add_items
  tame_sp_playlist_remove tame_time_sleep : tame.

(** Break a composed step into its parts. *)
Ltac tame_auto :=
  repeat first
    [ solve [auto with tame]
    | apply tame_bind; [| intros ?]
    | match goal with
      | |- tame (if ?b then _ else _) => destruct b
      | |- tame (match ?x with _ => _ end) => destruct x
      end ].

Lemma tame_sp_search q limit : tame (sp_search q limit).
Proof.
  intros w r w' Heq. unfold sp_search in Heq.
  destruct (w_search w (w_searches w) q) as [res | st' ra'] eqn:Hq;
    injection Heq as <- <-; simpl;
    (split; [done |]); (split; [done |]); (split; [lia |]); (split; [by eexists |]);
    (split; [keep_playlists |]);
    intros n st ra Hrange Hfail Hst; assert (n = w_searches w) as -> by lia;
    rewrite Hfail in Hq; [discriminate |].
  injection Hq as <- <-. done.
Qed.

(** One query with its handler; the two outcomes of a first failure. *)
Lemma search_attempt_rate_limited q w ra :
  w_search w (w_searches w) q = Failure 429 ra →
  search_attempt q w
  = (match w_search w (S (w_searches w)) q with
     | Answer res => Ok res
     | Failure st' ra' => Raise (SpotifyException st' ra')
     end,
     with_trace (with_searches w (S (S (w_searches w))))
       (w_trace w ++ [EvSearch q 3; EvSleep (Z.of_nat (default 2%nat ra) + 1); EvSearch q 3])).
Proof.
  intros Hq. unfold search_attempt, try_except. unfold sp_search at 1. rewrite Hq.
  simpl. unfold bind, time_sleep, emit, sp_search. simpl.
  destruct (w_search w (S (w_searches w)) q); simpl; by rewrite <- !app_assoc.
Qed.

Lemma search_attempt_other_error q w st ra :
  w_search w (w_searches w) q = Failure st ra → st ≠ 429 →
  search_attempt q w
  = (Raise (SpotifyException st ra),
     with_trace (with_searches w (S (w_searches w))) (w_trace w ++ [EvSearch q 3])).
Proof.
  intros Hq Hst. unfold search_attempt, try_except. unfold sp_search at 1. rewrite Hq.
  apply Z.eqb_neq in Hst. by rewrite Hst.
Qed.

Lemma tame_search_attempt q : tame (search_attempt q).
Proof.
  intros w r w' Heq.
  destruct (w_search w (w_searches w) q) as [res | st0 ra0] eqn:Hq.
  - apply (tame_sp_search q 3 w r w'). rewrite <- Heq.
    unfold search_attempt, try_except, sp_search. by rewrite Hq.
  - destruct (decide (st0 = 429)) as [-> | Hne].
    + rewrite (search_attempt_rate_limited q w ra0 Hq) in Heq. injection Heq as <- <-.
      simpl. split; [done |]. split; [done |]. split; [lia |]. split; [by eexists |].
      split; [keep_playlists |].
      intros n st ra Hrange Hfail Hst.
      destruct (decide (n = w_searches w)) as [-> | Hn].
      * rewrite Hfail in Hq. congruence.
      * assert (n = S (w_searches w)) as -> by lia. rewrite Hfail. done.
    + rewrite (search_attempt_other_error q w st0 ra0 Hq Hne) in Heq.
      injection Heq as <- <-. simpl.
      split; [done |]. split; [done |]. split; [lia |]. split; [by eexists |].
      split; [keep_playlists |].
      intros n st ra Hrange Hfail Hst. assert (n = w_searches w) as -> by lia.
      rewrite Hfail in Hq. injection Hq as <- <-. done.
Qed.

#[local] Hint Resolve tame_search_attempt : tame.

Lemma tame_create_playlist name public description :
  tame (create_playlist name public description).
Proof. unfold create_playlist. tame_auto. Qed.

Lemma tame_add_loop pid ids offsets : tame (add_loop pid ids offsets).
Proof. induction offsets; simpl; tame_auto. Qed.

Lemma tame_add_tracks_in_batches pid ids : tame (add_tracks_in_batches pid ids).
Proof. apply tame_add_loop. Qed.

Lemma tame_clear_read_loop fuel pid limit : ∀ offset uris,
  tame (clear_read_loop fuel pid limit offset uris).
Proof. induction fuel; intros; simpl; tame_auto. Qed.

Lemma tame_remove_loop pid uris offsets : tame (remove_loop pid uris offsets).
Proof. induction offsets; simpl; tame_auto. Qed.

Lemma tame_clear_playlist fuel pid : tame (clear_playlist fuel pid).
Proof.
  unfold clear_playlist. apply tame_bind; [apply tame_clear_read_loop |].
  intros uris. apply tame_remove_loop.
Qed.

Lemma tame_check_env environ vars : tame (check_env environ vars).
Proof. induction vars; simpl; tame_auto. Qed.

#[local] Hint Resolve tame_create_playlist tame_add_tracks_in_batches tame_clear_playlist
  tame_check_env : tame.

Section DriverFacts.
Context `{PyText}.

Lemma tame_search_loop name artist qs : ∀ candidates,
  tame (search_loop qs name artist candidates).
Proof. induction qs; intros; simpl; tame_auto. Qed.

Lemma tame_search_track name artist year : tame (search_track name artist year).
Proof. apply tame_search_loop. Qed.

Lemma tame_find_loop fuel name_lc uid limit : ∀ offset candidate,
  tame (find_loop fuel name_lc uid limit offset candidate).
Proof. induction fuel; intros; simpl; tame_auto. Qed.

Lemma tame_find_user_playlist_by_name fuel name :
  tame (find_user_playlist_by_name fuel name).
Proof.
  unfold find_user_playlist_by_name. apply tame_bind; [auto with tame |].
  intros. apply tame_find_loop.
Qed.

Lemma tame_match_loop items : ∀ found_ids misses,
  tame (match_loop items found_ids misses).
Proof.
  induction items; intros; simpl; [auto with tame |].
  apply tame_bind; [apply tame_search_track |]. intros sid. tame_auto.
Qed.

Lemma tame_resolve_target fuel args : tame (resolve_target fuel args).
Proof.
  unfold resolve_target.
  destruct (opt_truthy (arg_use_existing args)).
  - apply tame_bind; [apply tame_find_user_playlist_by_name |]. intros. tame_auto.
  - tame_auto.
Qed.

Hint Resolve tame_search_track tame_find_user_playlist_by_name tame_match_loop
  tame_resolve_target : tame.

Lemma tame_import_records fuel args items : tame (import_records fuel args items).
Proof.
  unfold import_records.
  apply tame_bind; [apply tame_resolve_target |]. intros playlist_id.
  apply tame_bind; [apply tame_match_loop |]. intros fm. tame_auto.
Qed.

Lemma tame_main fuel args environ fs : tame (main fuel args environ fs).
Proof.
  unfold main. apply tame_bind; [auto with tame |]. intros _.
  apply tame_bind; [auto with tame |]. intros items.
  destruct (negb (list_truthy items)); [tame_auto |].
  apply tame_bind; [auto with tame |]. intros _. apply tame_import_records.
Qed.

End DriverFacts.

(** ** The run driver *)

(** C8. One query attempt of the matcher.  When the service answers the
    request with the rate-limit status 429, the matcher sleeps for the
    interval the service names (2 seconds when it names none) plus one
    second, sends the same query once more, and takes whatever that second
    request gives: its answer, or its error, which is not handled again.
    When the service answers with any other error, the attempt raises it
    at once; and whenever a search request of a run meets such an error,
    the whole run ends with that error and sends no further search. *)
Theorem search_attempt_retries_once `{PyText} :
  (∀ q w ra,
     w_search w (w_searches w) q = Failure 429 ra →
     search_attempt q w
     = (match w_search w (S (w_searches w)) q with
        | Answer res => Ok res
        | Failure st' ra' => Raise (SpotifyException st' ra')
        end,
        with_trace (with_searches w (S (S (w_searches w))))
          (w_trace w ++ [EvSearch q 3; EvSleep (Z.of_nat (default 2%nat ra) + 1);
                         EvSearch q 3])))
  ∧ (∀ q w st ra,
       w_search w (w_searches w) q = Failure st ra → st ≠ 429 →
       search_attempt q w
       = (Raise (SpotifyException st ra),
          with_trace (with_searches w (S (w_searches w))) (w_trace w ++ [EvSearch q 3])))
  ∧ (∀ fuel args environ fs w r w' n st ra,
       main fuel args environ fs w = (r, w') →
       (w_searches w ≤ n < w_searches w')%nat →
       (∀ q, w_search w n q = Failure st ra) → st ≠ 429 →
       r = Raise (SpotifyException st ra) ∧ w_searches w' = S n).
Proof.
  split; [exact search_attempt_rate_limited |].
  split; [exact search_attempt_other_error |].
  intros fuel args environ fs w r w' n st ra Hrun.
  destruct (tame_main fuel args environ fs w r w' Hrun) as (_ & _ & _ & _ & _ & Habort).
  apply Habort.
Qed.

Lemma search_attempt_retries_once_witness :
  let limited := Sample.world [] (λ n q, if Nat.eqb n 0 then Failure 429 (Some 5%nat)
                                         else Failure 429 (Some 1%nat)) in
  let broken := Sample.world [] (λ n q, Failure 500 None) in
  (search_attempt "q" limited).1 = Raise (SpotifyException 429 (Some 1%nat))
  ∧ w_trace (search_attempt "q" limited).2 = [EvSearch "q" 3; EvSleep 6; EvSearch "q" 3]
  ∧ (@main ascii_text 3 (Sample.args (Some "Mix") None ModeAppend) Sample.credentials
       Sample.files broken).1 = Raise (SpotifyException 500 None).
Proof.
  intros limited broken.
  destruct (@search_attempt_retries_once ascii_text) as (Hlimit & _ & Hrun).
  split; [| split].
  - by rewrite (Hlimit "q" limited (Some 5%nat) eq_refl).
  - by rewrite (Hlimit "q" limited (Some 5%nat) eq_refl).
  - refine (proj1 (Hrun 3%nat (Sample.args (Some "Mix") None ModeAppend) Sample.credentials
                     Sample.files broken _ _ 0%nat 500 None
                     (surjective_pairing _) _ (λ q, eq_refl) _)).
    + vm_compute. lia.
    + done.
Defined.

Lemma check_env_set (environ : Environ) (vars : list string) (w : World) :
  (∀ var, var ∈ vars → opt_truthy (environ var) = true) →
  check_env environ vars w = (Ok tt, w).
Proof.
  induction vars as [| var vars IH]; intros Hset; [done |].
  simpl. rewrite (Hset var) by apply list_elem_of_here. simpl.
  apply IH. intros v Hv. apply Hset. by apply list_elem_of_further.
Qed.

(** The run up to the creation of the first playlist. *)
Lemma main_start `{PyText} (fuel : nat) (args : Args) (environ : Environ)
    (fs : FileSystem) (w : World) (items : list TrackRecord) :
  (∀ var, var ∈ env_vars → opt_truthy (environ var) = true) →
  load_apple_xml fs (arg_xml args) (arg_apple_playlist args) = Ok items →
  items ≠ [] →
  main fuel args environ fs w
  = import_records fuel args items
      (sp_user_playlist_create (w_user w) (arg_spotify_name args) (arg_public args)
         description_tag (sp_current_user w).2).2.
Proof.
  intros Henv Hload Hitems. unfold main. unfold bind at 1.
  rewrite (check_env_set environ env_vars w Henv). unfold bind at 1, lift. rewrite Hload.
  destruct items as [| it items]; [done |]. reflexivity.
Qed.

(** C9. A run whose credentials are set and whose record list is not empty
    first asks for the current user and creates a playlist named by
    [--spotify-name] (whatever it is, also absent) with the description
    "Imported from Apple Music XML"; everything else the run does comes
    after, and the playlist stays in the library.  This holds in every mode;
    in particular a run in create mode then creates a second playlist with
    the same name, and a run given neither name ends on the usage error only
    after the creation. *)
Theorem main_creates_playlist_first `{PyText} (fuel : nat) (args : Args)
    (environ : Environ) (fs : FileSystem) (w : World) (items : list TrackRecord) :
  (∀ var, var ∈ env_vars → opt_truthy (environ var) = true) →
  load_apple_xml fs (arg_xml args) (arg_apple_playlist args) = Ok items →
  items ≠ [] →
  let created := EvCreatePlaylist (w_user w) (arg_spotify_name args) (arg_public args)
                   "Imported from Apple Music XML" in
  ∃ (r : result unit) (w' : World) (rest : list Event),
    main fuel args environ fs w = (r, w')
    ∧ w_trace w' = w_trace w ++ [EvCurrentUser; created] ++ rest
    ∧ (∃ p, p ∈ w_playlists w'
            ∧ pl_id p = w_fresh w (w_created w)
            ∧ pl_name p = arg_spotify_name args
            ∧ pl_owner p = w_user w
            ∧ pl_description p = "Imported from Apple Music XML")
    ∧ (opt_truthy (arg_use_existing args) = false →
       opt_truthy (arg_spotify_name args) = true →
       ∃ rest', rest = [EvCurrentUser; created;
                        EvPrint false ("Created new playlist: "
                                       +:+ fmt_opt (arg_spotify_name args))] ++ rest')
    ∧ (opt_truthy (arg_use_existing args) = false →
       opt_truthy (arg_spotify_name args) = false →
       r = Raise (SystemExit 1)
       ∧ rest = [EvPrint true "You must provide either --spotify-name or --use-existing."]).
Proof.
  intros Henv Hload Hitems created.
  rewrite (main_start fuel args environ fs w items Henv Hload Hitems).
  set (p0 := {| pl_id := w_fresh w (w_created w); pl_name := arg_spotify_name args;
                pl_owner := w_user w; pl_public := arg_public args;
                pl_description := description_tag; pl_items := [] |}).
  set (w1 := (sp_user_playlist_create (w_user w) (arg_spotify_name args) (arg_public args)
                description_tag (sp_current_user w).2).2).
  assert (Htr1 : w_trace w1 = w_trace w ++ [EvCurrentUser; created])
    by (subst w1; simpl; by rewrite <- app_assoc).
  assert (Hu1 : w_user w1 = w_user w) by done.
  assert (Hpl1 : p0 ∈ w_playlists w1) by apply list_elem_of_here.
  clearbody w1.
  destruct (import_records fuel args items w1) as [r w'] eqn:Hrun.
  destruct (tame_import_records fuel args items w1 r w' Hrun)
    as (_ & _ & _ & [rest Hrest] & Hkeep & _).
  exists r, w', rest. split; [done |].
  split; [by rewrite Hrest, Htr1, <- app_assoc |].
  split.
  { destruct (Hkeep p0 Hpl1) as (p & Hp & Hid & Hname & Howner & _ & Hdesc).
    exists p. simpl in *. by repeat split. }
  split.
  - intros Hreuse Hname. unfold import_records, resolve_target in Hrun.
    rewrite Hreuse, Hname in Hrun.
    match type of Hrun with bind ?m ?k w1 = _ =>
      rewrite (bind_ok m k w1 (m w1).2 (w_fresh w1 (w_created w1)) eq_refl) in Hrun;
      assert (Htr2 : w_trace (m w1).2
                     = w_trace w1 ++ [EvCurrentUser; created;
                                      EvPrint false ("Created new playlist: "
                                                     +:+ fmt_opt (arg_spotify_name args))])
        by (simpl; rewrite Hu1; by rewrite <- !app_assoc);
      set (w2 := (m w1).2) in *; clearbody w2
    end.
    match type of Hrun with ?m w2 = _ =>
      assert (Htame : tame m)
        by (apply tame_bind; [apply tame_match_loop | intros fm; tame_auto])
    end.
    destruct (Htame w2 r w' Hrun) as (_ & _ & _ & [rest' Hrest'] & _).
    exists rest'. rewrite Hrest', Htr2, <- app_assoc in Hrest.
    by apply app_inv_head in Hrest.
  - intros Hreuse Hname. unfold import_records, resolve_target in Hrun.
    rewrite Hreuse, Hname in Hrun. unfold bind, print_err, emit, sys_exit, raise in Hrun.
    injection Hrun as <- <-. split; [done |].
    simpl in Hrest. by apply app_inv_head in Hrest.
Qed.

Lemma main_creates_playlist_first_witness :
  let args := Sample.args (Some "Mix") (Some "Road trip") ModeAppend in
  let w := Sample.world [Sample.playlist "p7" "Road Trip" "me" []] Sample.silent in
  ∃ (r : result unit) (w' : World) (rest : list Event),
    @main ascii_text 3 args Sample.credentials Sample.files w = (r, w')
    ∧ w_trace w' = [EvCurrentUser;
                    EvCreatePlaylist "me" (Some "Mix") false "Imported from Apple Music XML"]
                   ++ rest
    ∧ ∃ p, p ∈ w_playlists w' ∧ pl_id p = "new0" ∧ pl_name p = Some "Mix".
Proof.
  intros args w.
  destruct (@main_creates_playlist_first ascii_text 3 args Sample.credentials Sample.files w
              [{| it_name := "Yesterday"; it_artist := "The Beatles"; it_year := Some 1965 |}])
    as (r & w' & rest & Hrun & Htr & (p & Hp & Hid & Hname & _) & _).
  - intros var _. reflexivity.
  - vm_compute. reflexivity.
  - discriminate.
  - exists r, w', rest. split; [exact Hrun |]. split; [exact Htr |].
    exists p. split; [exact Hp |]. split; [exact Hid | exact Hname].
Defined.

(** C1 (the code at the failing input). In reuse mode, with a name that no
    playlist of the library has, the run ends on exit code 1 with the "not
    found" message as the claim says, but it has already created a playlist
    named by [--spotify-name]: one remote write, not zero. *)
Theorem main_reuse_not_found_creates_playlist :
  let args := Sample.args (Some "Mix") (Some "Nope") ModeAppend in
  let w := Sample.world [] Sample.silent in
  ∃ w', @main ascii_text 3 args Sample.credentials Sample.files w = (Raise (SystemExit 1), w')
    ∧ w_trace w' = [EvCurrentUser;
                    EvCreatePlaylist "me" (Some "Mix") false "Imported from Apple Music XML";
                    EvCurrentUser;
                    EvCurrentUserPlaylists 50 0;
                    EvPrint true "Playlist 'Nope' not found in your account."]
    ∧ writes (w_trace w')
      = [EvCreatePlaylist "me" (Some "Mix") false "Imported from Apple Music XML"]
    ∧ length (w_playlists w') = 1%nat.
Proof. eexists. vm_compute. repeat split. Qed.

(** C2 (the code at the failing input). With neither [--spotify-name] nor
    [--use-existing] the run ends on exit code 1 with the usage message as
    the claim says, but only after it has sent the request that creates a
    playlist without a name: partial work is attempted. *)
Theorem main_neither_name_creates_playlist :
  let args := Sample.args None None ModeAppend in
  let w := Sample.world [] Sample.silent in
  ∃ w', @main ascii_text 3 args Sample.credentials Sample.files w = (Raise (SystemExit 1), w')
    ∧ w_trace w' = [EvCurrentUser;
                    EvCreatePlaylist "me" None false "Imported from Apple Music XML";
                    EvPrint true "You must provide either --spotify-name or --use-existing."]
    ∧ writes (w_trace w')
      = [EvCreatePlaylist "me" None false "Imported from Apple Music XML"]
    ∧ length (w_playlists w') = 1%nat.
Proof. eexists. vm_compute. repeat split. Qed.

(** * Further properties *)

(** ** The track table and the choice of the source *)

Lemma dict_get_set_eq {V} (k : Z) (v : V) (d : list (Z * V)) :
  dict_get k (dict_set k v d) = Some v.
Proof.
  induction d as [| [k' v'] d IH]; simpl; [by rewrite Z.eqb_refl |].
  destruct (Z.eqb k' k) eqn:E; simpl; [by rewrite Z.eqb_refl | by rewrite E].
Qed.

Lemma dict_get_set_ne {V} (k k' : Z) (v : V) (d : list (Z * V)) :
  k ≠ k' → dict_get k' (dict_set k v d) = dict_get k' d.
Proof.
  intros Hne. induction d as [| [k0 v0] d IH]; simpl.
  - destruct (Z.eqb_spec k k'); [done | done].
  - destruct (Z.eqb_spec k0 k) as [-> | Hk0]; simpl.
    + destruct (Z.eqb_spec k k'); [done | done].
    + destruct (Z.eqb_spec k0 k'); [done | exact IH].
Qed.

Lemma dict_set_keys {V} (k : Z) (v : V) (d : list (Z * V)) :
  ∀ k', k' ∈ map fst (dict_set k v d) ↔ k' = k ∨ k' ∈ map fst d.
Proof.
  induction d as [| [k0 v0] d IH]; intros k'; simpl.
  - rewrite list_elem_of_singleton. split; [by left | intros [-> | Hin]; [done |]].
    by apply elem_of_nil in Hin.
  - destruct (Z.eqb_spec k0 k) as [-> | Hk0]; simpl; rewrite !elem_of_cons.
    + tauto.
    + rewrite IH. tauto.
Qed.

Lemma dict_set_nodup {V} (k : Z) (v : V) (d : list (Z * V)) :
  NoDup (map fst d) → NoDup (map fst (dict_set k v d)).
Proof.
  induction d as [| [k0 v0] d IH]; simpl; intros Hnd.
  - apply NoDup_singleton.
  - apply NoDup_cons in Hnd as [Hk0 Hnd].
    destruct (Z.eqb_spec k0 k) as [-> | Hne]; simpl.
    + by apply NoDup_cons.
    + apply NoDup_cons. split; [| by apply IH].
      rewrite dict_set_keys. intros [-> | Hin]; done.
Qed.

Section TableFacts.
Context `{PyText}.

Lemma build_id_to_track_acc tracks_dict : ∀ d0,
  NoDup (map fst d0) →
  match build_id_to_track tracks_dict d0 with
  | Ok d => Forall (λ e, is_Some (entry_id e)) tracks_dict
            ∧ NoDup (map fst d)
            ∧ ∀ z, dict_get z d = last_entry tracks_dict z (dict_get z d0)
  | Raise e => e = ValueError ∧ ∃ e', e' ∈ tracks_dict ∧ entry_id e' = None
  | OutOfFuel => False
  end.
Proof.
  induction tracks_dict as [| [k t] rest IH]; intros d0 Hnd; simpl.
  - split; [constructor | done].
  - assert (Hstep : ∀ z, entry_id (k, t) = Some z →
              match build_id_to_track rest (dict_set z t d0) with
              | Ok d => Forall (λ e, is_Some (entry_id e)) ((k, t) :: rest)
                        ∧ NoDup (map fst d)
                        ∧ ∀ z', dict_get z' d
                                = last_entry rest z'
                                    (if bool_decide (entry_id (k, t) = Some z')
                                     then Some t else dict_get z' d0)
              | Raise e => e = ValueError
                           ∧ ∃ e', e' ∈ (k, t) :: rest ∧ entry_id e' = None
              | OutOfFuel => False
              end).
    { intros z Hz. specialize (IH (dict_set z t d0) (dict_set_nodup z t d0 Hnd)).
      destruct (build_id_to_track rest (dict_set z t d0)) as [d | e |]; [| | done].
      - destruct IH as (Hall & Hnd' & Hget). split; [constructor; [by rewrite Hz | done] |].
        split; [done |]. intros z'. rewrite Hget. f_equal. rewrite Hz.
        case_bool_decide as Hzz.
        + injection Hzz as ->. apply dict_get_set_eq.
        + apply dict_get_set_ne. congruence.
      - destruct IH as (-> & e' & He' & Hnone). split; [done |].
        exists e'. split; [by apply list_elem_of_further | done]. }
    destruct (trk_TrackID t) as [z |] eqn:Ht.
    + apply Hstep. unfold entry_id. simpl. by rewrite Ht.
    + destruct (int_of_str k) as [z |] eqn:Hk.
      * apply Hstep. unfold entry_id. simpl. by rewrite Ht.
      * split; [done |]. exists (k, t). split; [apply list_elem_of_here |].
        unfold entry_id. simpl. by rewrite Ht.
Qed.

Lemma last_entry_spec tracks_dict z : ∀ before t,
  last_entry tracks_dict z before = Some t ↔
  (∃ pre k post, tracks_dict = pre ++ (k, t) :: post
                 ∧ entry_id (k, t) = Some z
                 ∧ ∀ e, e ∈ post → entry_id e ≠ Some z)
  ∨ (before = Some t ∧ ∀ e, e ∈ tracks_dict → entry_id e ≠ Some z).
Proof.
  induction tracks_dict as [| [k0 t0] rest IH]; intros before t; simpl.
  - split.
    + intros ->. right. split; [done |]. intros e He. by apply elem_of_nil in He.
    + intros [(pre & k & post & Heq & _) | [Hb _]]; [| done].
      destruct pre; simpl in Heq; discriminate.
  - rewrite IH. split.
    + intros [(pre & k & post & -> & Hid & Hpost) | [Hbefore Hrest]].
      * left. by exists ((k0, t0) :: pre), k, post.
      * case_bool_decide as Hid.
        -- injection Hbefore as ->. left. by exists [], k0, rest.
        -- right. split; [done |]. intros e He.
           apply elem_of_cons in He as [-> | He]; [done | by apply Hrest].
    + intros [(pre & k & post & Heq & Hid & Hpost) | [-> Hall]].
      * destruct pre as [| e0 pre]; simpl in Heq; simplify_eq.
        -- right. rewrite bool_decide_eq_true_2 by done. done.
        -- left. by exists pre, k, post.
      * right. rewrite bool_decide_eq_false_2 by (apply Hall, list_elem_of_here).
        split; [done |]. intros e He. by apply Hall, list_elem_of_further.
Qed.

End TableFacts.

(** X1. Filing the track table under integer keys fails, with [ValueError],
    exactly when some entry has no [Track ID] and a key that is no integer.
    Otherwise the keys of the result are distinct, and looking up [z] gives
    the last entry of the table filed under [z]: a later entry replaces an
    earlier one with the same id. *)
Theorem build_id_to_track_last_wins `{PyText} (tracks_dict : list (string * AppleTrack)) :
  match build_id_to_track tracks_dict [] with
  | Ok d =>
      Forall (λ e, is_Some (entry_id e)) tracks_dict
      ∧ NoDup (map fst d)
      ∧ ∀ z t, dict_get z d = Some t ↔
          ∃ pre k post, tracks_dict = pre ++ (k, t) :: post
                        ∧ entry_id (k, t) = Some z
                        ∧ ∀ e, e ∈ post → entry_id e ≠ Some z
  | Raise e => e = ValueError ∧ ∃ e', e' ∈ tracks_dict ∧ entry_id e' = None
  | OutOfFuel => False
  end.
Proof.
  pose proof (build_id_to_track_acc tracks_dict [] (NoDup_nil_2)) as Hacc.
  destruct (build_id_to_track tracks_dict []) as [d | e |]; [| done | done].
  destruct Hacc as (Hall & Hnd & Hget). split; [done |]. split; [done |].
  intros z t. rewrite Hget, last_entry_spec. simpl. split.
  - intros [Hlast | [Hnone _]]; [done | discriminate].
  - intros Hlast. by left.
Qed.

Section SourceFacts.
Context `{PyText}.

Lemma select_playlist_none playlists preferred_playlist :
  (∀ p, p ∈ playlists → ¬ apple_name_matches preferred_playlist p) →
  select_playlist playlists preferred_playlist = None.
Proof.
  induction playlists as [| p playlists IH]; intros Hno; simpl; [done |].
  destruct (String.eqb_spec
              (str_lower (str_strip (default EmptyString (apl_Name p))))
              (str_lower (str_strip preferred_playlist))) as [Heq | Hne].
  - destruct (Hno p); [apply list_elem_of_here | exact Heq].
  - apply IH. intros p' Hp'. apply Hno. by apply list_elem_of_further.
Qed.

Lemma select_playlist_first pre p post preferred_playlist :
  Forall (λ q, ¬ apple_name_matches preferred_playlist q) pre →
  apple_name_matches preferred_playlist p →
  select_playlist (pre ++ p :: post) preferred_playlist = Some p.
Proof.
  intros Hpre Hp. induction Hpre as [| q pre Hq _ IH]; simpl.
  - unfold apple_name_matches in Hp. rewrite Hp. by rewrite String.eqb_refl.
  - destruct (String.eqb_spec
                (str_lower (str_strip (default EmptyString (apl_Name q))))
                (str_lower (str_strip preferred_playlist))) as [Heq | Hne]; [| exact IH].
    by destruct Hq.
Qed.

(** The loop over the playlist items as one pass that drops what it cannot
    resolve. *)
Lemma playlist_items_loop_omap its id_to_track : ∀ items,
  playlist_items_loop its id_to_track items
  = items ++ omap (λ it, z ← pli_TrackID it;
                         if Z.eqb z 0 then None
                         else normalize_track <$> dict_get z id_to_track) its.
Proof.
  induction its as [| it its IH]; intros items; simpl; [by rewrite app_nil_r |].
  destruct (pli_TrackID it) as [z |]; simpl; [| apply IH].
  destruct (Z.eqb z 0); simpl; [apply IH |].
  destruct (dict_get z id_to_track) as [t |]; simpl; [| apply IH].
  rewrite IH, <- app_assoc. done.
Qed.

(** Every key of an eligible source record is the key of a kept record. *)
Lemma dedup_loop_complete items r :
  r ∈ items → eligible r →
  ∃ r', r' ∈ dedup_loop items ∅ [] ∧ dedup_key r' = dedup_key r.
Proof.
  intros Hr Hel.
  destruct (dedup_loop_inv items [] ∅ [] [] dedup_inv_init) as (seen & idx & Hinv).
  simpl in Hinv. destruct Hinv as [Hseen Hcomplete _ _ _ _].
  apply Hseen, Hcomplete; done.
Qed.

Lemma dedup_loop_nodup_keys items : NoDup (dedup_key <$> dedup_loop items ∅ []).
Proof.
  destruct (dedup_loop_first_seen items) as (idx & Hsorted & Hfirst & Helig).
  apply NoDup_alt. intros a b key Ha Hb.
  apply list_lookup_fmap_Some in Ha as (ra & -> & Ha).
  apply list_lookup_fmap_Some in Hb as (rb & Hkey & Hb).
  assert (Hlt : ∀ i j ri rj, (i < j)%nat →
            dedup_loop items ∅ [] !! i = Some ri → dedup_loop items ∅ [] !! j = Some rj →
            dedup_key ri ≠ dedup_key rj).
  { intros i j ri rj Hij Hi Hj.
    destruct (Forall2_lookup_r _ _ _ _ _ Hfirst Hi) as (ji & Hji & [Hli _]).
    destruct (Forall2_lookup_r _ _ _ _ _ Hfirst Hj) as (jj & Hjj & [_ Hfj]).
    apply (Hfj ji ri); [by eapply sorted_lookup_lt | done |].
    rewrite Forall_forall in Helig. apply Helig. by eapply list_elem_of_lookup_2. }
  destruct (Nat.lt_trichotomy a b) as [Hab | [-> | Hba]]; [| done |].
  - by destruct (Hlt a b ra rb Hab Ha Hb).
  - by destruct (Hlt b a rb ra Hba Hb Ha).
Qed.

(** A list that is already clean goes through the loop unchanged. *)
Lemma dedup_loop_fixed l : ∀ seen unique,
  Forall eligible l → NoDup (dedup_key <$> l) →
  (∀ r, r ∈ l → dedup_key r ∉ seen) →
  dedup_loop l seen unique = unique ++ l.
Proof.
  induction l as [| it l IH]; intros seen unique Hel Hnd Hnew; simpl;
    [by rewrite app_nil_r |].
  apply Forall_cons in Hel as [[Hn Ha] Hel]. rewrite fmap_cons in Hnd.
  apply NoDup_cons in Hnd as [Hit Hnd].
  apply str_truthy_true in Hn, Ha. rewrite Hn, Ha. simpl.
  rewrite bool_decide_eq_false_2 by (apply Hnew, list_elem_of_here). simpl.
  rewrite IH; [by rewrite <- app_assoc | done | done |].
  intros r Hr. rewrite elem_of_union, elem_of_singleton. intros [Hk | Hin].
  - apply Hit. rewrite <- Hk. apply list_elem_of_fmap. by exists r.
  - by apply (Hnew r (list_elem_of_further _ _ _ Hr)).
Qed.

End SourceFacts.

(** X2. Naming a playlist that the file does not have is no error: the
    reader then reads the whole track table, exactly as when no playlist is
    named. *)
Theorem load_apple_xml_unknown_playlist `{PyText} (fs : FileSystem) (xml_path : string)
    (preferred_playlist : string) :
  (∀ pl p, fs xml_path = Some pl → p ∈ default [] (lib_Playlists pl) →
           ¬ apple_name_matches preferred_playlist p) →
  load_apple_xml fs xml_path (Some preferred_playlist) = load_apple_xml fs xml_path None.
Proof.
  intros Hno. unfold load_apple_xml, resolve_items.
  destruct (fs xml_path) as [pl |] eqn:Hfs; [| done].
  destruct (build_id_to_track (default [] (lib_Tracks pl)) []) as [d | e |]; [| done | done].
  destruct (str_truthy preferred_playlist); [| done].
  by rewrite (select_playlist_none _ _ (λ p, Hno pl p eq_refl)).
Qed.

Lemma load_apple_xml_unknown_playlist_witness :
  @load_apple_xml ascii_text Sample.files_with_playlist "library.xml" (Some "Workout")
  = @load_apple_xml ascii_text Sample.files_with_playlist "library.xml" None.
Proof.
  apply (@load_apple_xml_unknown_playlist ascii_text).
  intros pl p [= <-] Hp. apply list_elem_of_singleton in Hp as ->. discriminate.
Defined.

(** X3. When the file has a playlist with the wanted name (up to case and
    surrounding white space), the reader takes the first such playlist and
    resolves its items in the order they are listed; an item without a
    track id, with the id 0 or with an id that the track table does not
    have is skipped, and tracks that the playlist does not list are not
    read. *)
Theorem resolve_items_selected_playlist `{PyText} (fs : FileSystem) (xml_path : string)
    (preferred_playlist : string) (pl : AppleLibrary) (pre post : list ApplePlaylist)
    (p : ApplePlaylist) (id_to_track : list (Z * AppleTrack)) :
  fs xml_path = Some pl →
  build_id_to_track (default [] (lib_Tracks pl)) [] = Ok id_to_track →
  preferred_playlist ≠ EmptyString →
  lib_Playlists pl = Some (pre ++ p :: post) →
  Forall (λ q, ¬ apple_name_matches preferred_playlist q) pre →
  apple_name_matches preferred_playlist p →
  playlist_truthy p = true →
  resolve_items fs xml_path (Some preferred_playlist)
  = Ok (omap (λ it, z ← pli_TrackID it;
                    if Z.eqb z 0 then None
                    else normalize_track <$> dict_get z id_to_track)
          (default [] (apl_Items p))).
Proof.
  intros Hfs Hbuild Hpp Hlists Hpre Hp Htruthy. unfold resolve_items.
  rewrite Hfs, Hbuild, Hlists. apply str_truthy_true in Hpp. rewrite Hpp. simpl.
  rewrite (select_playlist_first _ _ _ _ Hpre Hp), Htruthy.
  by rewrite playlist_items_loop_omap.
Qed.

Lemma resolve_items_selected_playlist_witness :
  @resolve_items ascii_text Sample.files_with_playlist "library.xml" (Some " favourites")
  = Ok [{| it_name := "Help!"; it_artist := "The Beatles"; it_year := Some 1965 |};
        {| it_name := "Yesterday"; it_artist := "The Beatles"; it_year := Some 1965 |}].
Proof.
  rewrite (@resolve_items_selected_playlist ascii_text Sample.files_with_playlist
             "library.xml" " favourites" Sample.library_with_playlist [] []
             {| apl_Name := Some "Favourites";
                apl_Items := Some [{| pli_TrackID := Some 2 |};
                                   {| pli_TrackID := Some 7 |};
                                   {| pli_TrackID := Some 1 |}];
                apl_other_keys := true |}
             [(1, Sample.track "Yesterday" "The Beatles" 1965);
              (2, Sample.track "Help!" "The Beatles" 1965)]);
    try reflexivity.
  - discriminate.
  - constructor.
Defined.

(** X4. The reader loses no key: every record of the resolved source
    sequence that has a title and an artist is represented in the output by
    a record with the same title and artist up to case. *)
Theorem load_apple_xml_complete `{PyText} (fs : FileSystem) (xml_path : string)
    (preferred_playlist : option string) (items out : list TrackRecord)
    (r : TrackRecord) :
  resolve_items fs xml_path preferred_playlist = Ok items →
  load_apple_xml fs xml_path preferred_playlist = Ok out →
  r ∈ items → it_name r ≠ EmptyString → it_artist r ≠ EmptyString →
  ∃ r', r' ∈ out
        ∧ str_lower (it_name r') = str_lower (it_name r)
        ∧ str_lower (it_artist r') = str_lower (it_artist r).
Proof.
  intros Hres Hload Hr Hn Ha. unfold load_apple_xml in Hload. rewrite Hres in Hload.
  injection Hload as <-.
  destruct (dedup_loop_complete items r Hr (conj Hn Ha)) as (r' & Hr' & Hkey).
  exists r'. split; [done |]. unfold dedup_key in Hkey. by injection Hkey.
Qed.

Lemma load_apple_xml_complete_witness :
  ∃ r', r' ∈ [{| it_name := "Yesterday"; it_artist := "The Beatles"; it_year := Some 1965 |}]
        ∧ AsciiText.lower (it_name r') = "yesterday"
        ∧ AsciiText.lower (it_artist r') = "the beatles".
Proof.
  apply (@load_apple_xml_complete ascii_text Sample.files "library.xml" None
           [{| it_name := "Yesterday"; it_artist := "The Beatles"; it_year := Some 1965 |};
            {| it_name := "Yesterday"; it_artist := "the beatles"; it_year := Some 1965 |}]
           [{| it_name := "Yesterday"; it_artist := "The Beatles"; it_year := Some 1965 |}]
           {| it_name := "Yesterday"; it_artist := "the beatles"; it_year := Some 1965 |}).
  - vm_compute. reflexivity.
  - vm_compute. reflexivity.
  - by repeat constructor.
  - discriminate.
  - discriminate.
Defined.

(** X5. Deduplication is idempotent: the records the loop keeps go through
    the loop again unchanged. *)
Theorem dedup_loop_idempotent `{PyText} (items : list TrackRecord) :
  dedup_loop (dedup_loop items ∅ []) ∅ [] = dedup_loop items ∅ [].
Proof.
  destruct (dedup_loop_first_seen items) as (idx & _ & _ & Helig).
  rewrite dedup_loop_fixed; [done | done | apply dedup_loop_nodup_keys |].
  intros r _. apply not_elem_of_empty.
Qed.

(** ** The matcher on any service *)

(** One query attempt sends the query once, or once more after a sleep, and
    an answer it returns is an answer of the service to that query. *)
Lemma search_attempt_events (q : string) (w : World) :
  ∃ r evs n,
    search_attempt q w
    = (r, with_trace (with_searches w (w_searches w + n)) (w_trace w ++ evs))
    ∧ r ≠ OutOfFuel
    ∧ (evs = [EvSearch q 3] ∨ ∃ s, evs = [EvSearch q 3; EvSleep s; EvSearch q 3])
    ∧ ∀ res, r = Ok res → ∃ m, w_search w m q = Answer res.
Proof.
  destruct (w_search w (w_searches w) q) as [res | st ra] eqn:Hq.
  - exists (Ok res), [EvSearch q 3], 1%nat.
    rewrite (search_attempt_answer q w res Hq), Nat.add_1_r.
    split; [done |]. split; [done |]. split; [by left |].
    intros res' [= <-]. eauto.
  - destruct (decide (st = 429)) as [-> | Hne].
    + eexists _, _, 2%nat. rewrite (search_attempt_rate_limited q w ra Hq).
      replace (w_searches w + 2)%nat with (S (S (w_searches w))) by lia.
      split; [reflexivity |]. split; [by destruct (w_search w (S (w_searches w)) q) |].
      split; [right; by eexists |].
      intros res Hres. exists (S (w_searches w)).
      destruct (w_search w (S (w_searches w)) q); [by injection Hres as -> | done].
    + exists (Raise (SpotifyException st ra)), [EvSearch q 3], 1%nat.
      rewrite (search_attempt_other_error q w st ra Hq Hne), Nat.add_1_r.
      split; [done |]. split; [done |]. split; [by left |]. done.
Qed.

Section MatcherBounds.
Context `{PyText}.

Lemma first_exact_in name artist items it :
  first_exact name artist items = Some it → it ∈ items.
Proof.
  induction items as [| c items IH]; simpl; [done |].
  destruct (exact_match name artist c).
  - intros [= ->]. apply list_elem_of_here.
  - intros Hit. by apply list_elem_of_further, IH.
Qed.

Lemma search_loop_events name artist qs : ∀ candidates w,
  ∃ r evs n,
    search_loop qs name artist candidates w
    = (r, with_trace (with_searches w (w_searches w + n)) (w_trace w ++ evs))
    ∧ r ≠ OutOfFuel
    ∧ Forall (matcher_event qs) evs
    ∧ (length (List.filter is_search evs) ≤ 2 * length qs)%nat
    ∧ (length (List.filter is_sleep evs) ≤ length qs)%nat
    ∧ ∀ id, r = Ok (Some id) →
        ∃ m q res c, q ∈ qs ∧ w_search w m q = Answer res
                     ∧ c ∈ items_of res ∧ c_id c = id.
Proof.
  induction qs as [| q qs IH]; intros candidates w.
  - exists (Ok None), [], 0%nat. simpl. rewrite Nat.add_0_r, app_nil_r.
    split; [by destruct w |]. split; [done |]. split; [constructor |].
    split; [lia |]. split; [lia |]. done.
  - destruct (search_attempt_events q w) as (r1 & evs1 & n1 & Hrun1 & Hfuel1 & Hevs1 & Hres1).
    assert (Hshape : Forall (matcher_event (q :: qs)) evs1
                     ∧ (length (List.filter is_search evs1) ≤ 2)%nat
                     ∧ (length (List.filter is_sleep evs1) ≤ 1)%nat).
    { assert (Hq : q ∈ q :: qs) by apply list_elem_of_here.
      destruct Hevs1 as [-> | [s ->]]; simpl; (split; [| lia]);
        repeat constructor; done. }
    destruct Hshape as (Hall1 & Hsearch1 & Hsleep1).
    simpl. unfold bind. rewrite Hrun1.
    destruct r1 as [res | e |]; [| | done].
    + destruct (Hres1 res eq_refl) as [m Hm].
      assert (Hhit : ∀ c, c ∈ items_of res →
                ∃ m q' res' c', q' ∈ q :: qs ∧ w_search w m q' = Answer res'
                                ∧ c' ∈ items_of res' ∧ c_id c' = c_id c).
      { intros c Hc. exists m, q, res, c. split; [apply list_elem_of_here | done]. }
      destruct (first_exact name artist (items_of res)) as [it |] eqn:Hfirst;
        [| destruct (items_of res) as [| it0 rest] eqn:Hitems].
      * exists (Ok (Some (c_id it))), evs1, n1. split; [done |]. split; [done |].
        split; [done |]. split; [simpl; lia |]. split; [simpl; lia |].
        intros id [= <-]. apply Hhit. by eapply first_exact_in.
      * match goal with |- context [search_loop qs name artist ?c ?w1] =>
          destruct (IH c w1) as (r & evs & n & Hrun & Hfuel & Hall & Hsearch & Hsleep & Hid)
        end.
        exists r, (evs1 ++ evs), (n1 + n)%nat. rewrite Hrun. simpl.
        split.
        { f_equal. unfold with_trace, with_searches. simpl.
          rewrite <- app_assoc. f_equal. lia. }
        split; [done |].
        split.
        { apply Forall_app. split; [done |]. eapply Forall_impl; [exact Hall |].
          intros ev. unfold matcher_event. destruct ev; try done.
          intros [Hq ->]. split; [by apply list_elem_of_further | done]. }
        rewrite !List.filter_app, !length_app. split; [simpl; lia |]. split; [simpl; lia |].
        intros id Hr. destruct (Hid id Hr) as (m' & q' & res' & c' & Hq' & Hans & Hc' & Hcid).
        exists m', q', res', c'. split; [by apply list_elem_of_further | done].
      * exists (Ok (Some (c_id it0))), evs1, n1. split; [done |]. split; [done |].
        split; [done |]. split; [simpl; lia |]. split; [simpl; lia |].
        intros id [= <-]. apply Hhit. apply list_elem_of_here.
    + exists (Raise e), evs1, n1. split; [done |]. split; [done |]. split; [done |].
      split; [simpl; lia |]. split; [simpl; lia |]. done.
Qed.

End MatcherBounds.

(** X6. Whatever the service does, matching one record ends (with a result
    or an exception), sends nothing but search requests for the queries of
    that record and sleeps, at most six search requests and three sleeps,
    and leaves the playlists of the library as they are. *)
Theorem search_track_bounded `{PyText} (name artist : string) (year : option Z)
    (w : World) :
  ∃ r evs w',
    search_track name artist year w = (r, w')
    ∧ r ≠ OutOfFuel
    ∧ w_trace w' = w_trace w ++ evs
    ∧ Forall (matcher_event (queries name artist year)) evs
    ∧ (length (List.filter is_search evs) ≤ 6)%nat
    ∧ (length (List.filter is_sleep evs) ≤ 3)%nat
    ∧ w_playlists w' = w_playlists w.
Proof.
  destruct (search_loop_events name artist (queries name artist year) [] w)
    as (r & evs & n & Hrun & Hfuel & Hall & Hsearch & Hsleep & _).
  pose proof (queries_length name artist year) as Hlen.
  exists r, evs. eexists. split; [exact Hrun |]. split; [done |]. split; [done |].
  split; [done |]. split; [lia |]. split; [lia |]. done.
Qed.

(** X7. Whatever the service does, an id the matcher returns is the id of a
    candidate that the service returned for one of the queries of the
    record: the matcher invents no id. *)
Theorem search_track_returns_candidate `{PyText} (name artist : string)
    (year : option Z) (w w' : World) (id : string) :
  search_track name artist year w = (Ok (Some id), w') →
  ∃ n q res c,
    q ∈ queries name artist year
    ∧ w_search w n q = Answer res
    ∧ c ∈ items_of res
    ∧ c_id c = id.
Proof.
  intros Hrun.
  destruct (search_loop_events name artist (queries name artist year) [] w)
    as (r & evs & n & Hrun' & _ & _ & _ & _ & Hid).
  unfold search_track in Hrun. rewrite Hrun in Hrun'. injection Hrun' as <- _.
  by apply Hid.
Qed.

Lemma search_track_returns_candidate_witness :
  let cover := Sample.candidate "Yesterday" "Someone Else" "cover" in
  let w := Sample.world [] (λ n q, if Nat.eqb n 0 then Failure 429 None
                                   else Sample.found [cover]) in
  ∃ n q res c,
    q ∈ queries "Yesterday" "The Beatles" None
    ∧ w_search w n q = Answer res
    ∧ c ∈ items_of res
    ∧ c_id c = "cover".
Proof.
  intros cover w.
  apply (@search_track_returns_candidate ascii_text "Yesterday" "The Beatles" None w
           (@search_track ascii_text "Yesterday" "The Beatles" None w).2 "cover").
  vm_compute. reflexivity.
Defined.

(** ** Looking up, clearing and refilling a playlist *)

Lemma find_app_first {A} (f : A → bool) (l1 l2 : list A) :
  List.find f (l1 ++ l2)
  = match List.find f l1 with
    | Some x => Some x
    | None => List.find f l2
    end.
Proof. induction l1 as [| x l1 IH]; simpl; [done |]. by destruct (f x). Qed.

Section LookupFacts.
Context `{PyText}.

(** The scan of one page whose playlists all have a name. *)
Lemma scan_page_spec name_lc uid items : ∀ candidate,
  Forall (λ p, is_Some (pl_name p)) items →
  scan_page items name_lc uid candidate
  = Ok match List.find (owned_match name_lc uid) items with
       | Some p => Returned (pl_id p)
       | None => Scanned match candidate with
                         | Some c => Some c
                         | None => pl_id <$> List.find (name_matches name_lc) items
                         end
       end.
Proof.
  induction items as [| p items IH]; intros candidate Hnamed.
  - simpl. by destruct candidate.
  - apply Forall_cons in Hnamed as [[n Hn] Hnamed].
    assert (Hnm : name_matches name_lc p = String.eqb (str_lower (str_strip n)) name_lc)
      by (unfold name_matches; by rewrite Hn).
    assert (Hown : owned_match name_lc uid p
                   = String.eqb (str_lower (str_strip n)) name_lc
                     && String.eqb (pl_owner p) uid)
      by (unfold owned_match; by rewrite Hnm).
    cbn [scan_page List.find]. rewrite Hn, Hown, Hnm, !IH by done.
    destruct (String.eqb (str_lower (str_strip n)) name_lc); simpl; [| done].
    destruct (String.eqb (pl_owner p) uid); simpl; [done |].
    destruct (List.find (owned_match name_lc uid) items); [done |].
    by destruct candidate.
Qed.

(** The loop over the pages, from [offset] on. *)
Lemma find_loop_spec name_lc uid fuel : ∀ offset candidate w,
  Forall (λ p, is_Some (pl_name p)) (w_playlists w) →
  (length (w_playlists w) - offset < fuel)%nat →
  ∃ offsets,
    find_loop fuel name_lc uid 50 offset candidate w
    = (Ok match List.find (owned_match name_lc uid) (drop offset (w_playlists w)) with
          | Some p => Some (pl_id p)
          | None =>
              match candidate with
              | Some c => Some c
              | None => pl_id <$> List.find (name_matches name_lc)
                                    (drop offset (w_playlists w))
              end
          end,
       with_trace w (w_trace w ++ map (EvCurrentUserPlaylists 50) offsets)).
Proof.
  induction fuel as [| fuel IH]; intros offset candidate w Hnamed Hfuel; [lia |].
  simpl. unfold bind, sp_current_user_playlists.
  pose proof (take_drop 50 (drop offset (w_playlists w))) as Hsplit.
  rewrite drop_drop in Hsplit.
  destruct (take 50 (drop offset (w_playlists w))) as [| p page] eqn:Hpage.
  - exists [offset]. simpl in Hsplit.
    assert (Hlen : length (take 50 (drop offset (w_playlists w))) = 0%nat)
      by (by rewrite Hpage).
    rewrite length_take, length_drop in Hlen.
    rewrite (drop_ge (w_playlists w) offset) by lia. simpl. by destruct candidate.
  - assert (Hlen : length (take 50 (drop offset (w_playlists w))) = length (p :: page))
      by (by rewrite Hpage).
    rewrite length_take, length_drop in Hlen.
    assert (Hpnamed : Forall (λ p, is_Some (pl_name p)) (p :: page)).
    { rewrite <- Hpage. apply Forall_take, Forall_drop, Hnamed. }
    unfold lift. rewrite (scan_page_spec name_lc uid (p :: page) candidate Hpnamed).
    rewrite <- Hsplit, !find_app_first.
    destruct (List.find (owned_match name_lc uid) (p :: page)) as [q |] eqn:Howned.
    + exists [offset]. done.
    + destruct (Nat.ltb_spec (length (p :: page)) 50) as [Hshort | Hfull].
      * exists [offset]. rewrite (drop_ge (w_playlists w) (offset + 50)) by lia.
        unfold ret. f_equal. f_equal.
        destruct candidate; [done |].
        by destruct (List.find (name_matches name_lc) (p :: page)).
      * match goal with |- context [find_loop fuel name_lc uid 50 ?o ?c ?w1] =>
          destruct (IH o c w1) as [offsets Hrun] end; [done | simpl; lia |].
        exists (offset :: offsets). rewrite Hrun. simpl w_playlists.
        replace (offset + length (p :: page))%nat with (offset + 50)%nat by lia.
        f_equal.
        -- f_equal. destruct (List.find (owned_match name_lc uid)
                               (drop (offset + 50) (w_playlists w))); [done |].
           destruct candidate; [done |].
           by destruct (List.find (name_matches name_lc) (p :: page)).
        -- unfold with_trace. simpl. by rewrite <- app_assoc.
Qed.

End LookupFacts.

Section LookupRun.
Context `{PyText}.

(** The whole lookup on a library whose playlists all have a name. *)
Lemma find_user_playlist_by_name_run (fuel : nat) (name : string) (w : World) :
  Forall (λ p, is_Some (pl_name p)) (w_playlists w) →
  (length (w_playlists w) < fuel)%nat →
  ∃ offsets,
    find_user_playlist_by_name fuel name w
    = (Ok (lookup_result (str_lower (str_strip name)) (w_user w) (w_playlists w)),
       with_trace w (w_trace w ++ EvCurrentUser
                                  :: map (EvCurrentUserPlaylists 50) offsets)).
Proof.
  intros Hnamed Hfuel. unfold find_user_playlist_by_name, bind, sp_current_user.
  match goal with |- context [find_loop fuel ?n ?u 50 0 None ?w1] =>
    destruct (find_loop_spec n u fuel 0 None w1) as [offsets Hrun] end;
    [done | simpl; lia |].
  exists offsets. rewrite Hrun. simpl. rewrite drop_0. f_equal.
  unfold with_trace. simpl. by rewrite <- app_assoc.
Qed.

End LookupRun.

(** X8. Looking up a playlist by name in a library whose playlists all have
    a name: with enough fuel for the pages, the lookup returns the id of the
    first playlist with that name (up to case and surrounding white space)
    that the current user owns; when there is none, the id of the first
    playlist with that name; when there is none either, [None].  It asks
    for the current user and for pages of 50 playlists and changes
    nothing. *)
Theorem find_user_playlist_by_name_spec `{PyText} (fuel : nat) (name : string) (w : World) :
  Forall (λ p, is_Some (pl_name p)) (w_playlists w) →
  (length (w_playlists w) < fuel)%nat →
  ∃ offsets,
    find_user_playlist_by_name fuel name w
    = (Ok match List.find (owned_match (str_lower (str_strip name)) (w_user w))
                  (w_playlists w) with
          | Some p => Some (pl_id p)
          | None => pl_id <$> List.find (name_matches (str_lower (str_strip name)))
                                (w_playlists w)
          end,
       with_trace w (w_trace w ++ EvCurrentUser
                                  :: map (EvCurrentUserPlaylists 50) offsets)).
Proof. exact (find_user_playlist_by_name_run fuel name w). Qed.

Lemma find_user_playlist_by_name_witness :
  let theirs := Sample.playlist "p1" "Road Trip" "someone" [] in
  let mine := Sample.playlist "p2" " road trip" "me" [] in
  let w := Sample.world [theirs; mine] Sample.silent in
  (@find_user_playlist_by_name ascii_text 3 "ROAD TRIP" w).1 = Ok (Some "p2").
Proof.
  intros theirs mine w.
  destruct (@find_user_playlist_by_name_spec ascii_text 3 "ROAD TRIP" w) as [offsets Hrun].
  - repeat constructor; by eexists.
  - simpl. lia.
  - rewrite Hrun. reflexivity.
Defined.

(** X9. A playlist that has just been created is what the lookup of its
    name returns: it is listed first and owned by the current user, so the
    lookup ends on the first page with its id, whatever else the library
    holds. *)
Theorem create_playlist_then_find `{PyText} (fuel : nat) (name : string) (public : bool)
    (description : string) (w : World) :
  ∃ id w1 w2,
    create_playlist (Some name) public description w = (Ok id, w1)
    ∧ id = w_fresh w (w_created w)
    ∧ find_user_playlist_by_name (S fuel) name w1 = (Ok (Some id), w2)
    ∧ w_playlists w2 = w_playlists w1.
Proof.
  set (w1 := (create_playlist (Some name) public description w).2).
  exists (w_fresh w (w_created w)), w1,
    (find_user_playlist_by_name (S fuel) name w1).2.
  split; [reflexivity |]. split; [reflexivity |].
  assert (Hfind : find_user_playlist_by_name (S fuel) name w1
                  = (Ok (Some (w_fresh w (w_created w))),
                     with_trace w1 (w_trace w1 ++ [EvCurrentUser;
                                                   EvCurrentUserPlaylists 50 0]))).
  { unfold find_user_playlist_by_name, bind, sp_current_user. cbn [find_loop].
    unfold bind, sp_current_user_playlists, lift. subst w1. simpl.
    rewrite !String.eqb_refl. simpl. by rewrite <- !app_assoc. }
  rewrite Hfind. done.
Qed.

(** The library after a clearing run. *)
Lemma clear_playlist_library (fuel : nat) (playlist_id : string) (p : SpPlaylist)
    (w : World) :
  find_playlist playlist_id (w_playlists w) = Some p →
  (length (pl_items p) < fuel)%nat →
  ∃ (k : nat) (w' : World),
    clear_playlist fuel playlist_id w = (Ok tt, w')
    ∧ w_trace w' = w_trace w
        ++ map (λ i, EvPlaylistItems playlist_id 100 (100 * i)) (seq 0 k)
        ++ map (λ j, EvRemoveItems playlist_id
                       (slice (collect_uris (pl_items p) []) j 100))
             (range_step (length (collect_uris (pl_items p) [])) 100)
    ∧ w_playlists w' = update_items playlist_id
        (List.filter (λ it, negb (uri_listed (collect_uris (pl_items p) []) it)))
        (w_playlists w).
Proof.
  intros Hp Hfuel. unfold clear_playlist, bind.
  destruct (clear_read_loop_spec playlist_id p fuel 0 [] w Hp) as (k & Hread & Hk); [lia |].
  rewrite Hread, drop_0.
  match goal with |- context [remove_loop _ _ _ ?w1] =>
    destruct (remove_loop_spec playlist_id (collect_uris (pl_items p) [])
                (range_step (length (collect_uris (pl_items p) [])) 100) w1)
      as (w' & Hrun & Htr & Hpl) end.
  { simpl. eauto. }
  destruct (batches_spec (collect_uris (pl_items p) [])) as (_ & _ & Hcat).
  simpl in Hcat. rewrite Hcat in Hpl. simpl in Htr, Hpl.
  exists k, w'. split; [exact Hrun |]. split; [| exact Hpl].
  rewrite Htr, <- app_assoc. reflexivity.
Qed.

(** X10. Clearing leaves the rest of the library alone: a playlist with
    another id stands at the same place, unchanged, after the run, and the
    library has as many playlists as before. *)
Theorem clear_playlist_leaves_others (fuel : nat) (playlist_id : string) (p : SpPlaylist)
    (w : World) :
  find_playlist playlist_id (w_playlists w) = Some p →
  (length (pl_items p) < fuel)%nat →
  ∃ w', clear_playlist fuel playlist_id w = (Ok tt, w')
    ∧ length (w_playlists w') = length (w_playlists w)
    ∧ ∀ i q, w_playlists w !! i = Some q → pl_id q ≠ playlist_id →
             w_playlists w' !! i = Some q.
Proof.
  intros Hp Hfuel.
  destruct (clear_playlist_library fuel playlist_id p w Hp Hfuel)
    as (k & w' & Hrun & _ & Hpl).
  exists w'. split; [done |]. rewrite Hpl. unfold update_items.
  split; [by rewrite length_map |].
  intros i q Hq Hne. change (map ?f ?l) with (f <$> l).
  rewrite list_lookup_fmap, Hq. simpl.
  destruct (String.eqb_spec (pl_id q) playlist_id); [done | done].
Qed.

Lemma clear_playlist_leaves_others_witness :
  let other := Sample.playlist "other" "Keep" "me" [Sample.with_uri "spotify:track:a"] in
  let target := Sample.playlist "pl" "Mix" "me" [Sample.with_uri "spotify:track:a"] in
  let w := Sample.world [other; target] Sample.silent in
  ∃ w', clear_playlist 2 "pl" w = (Ok tt, w')
        ∧ w_playlists w' !! 0%nat = Some other.
Proof.
  intros other target w.
  destruct (clear_playlist_leaves_others 2 "pl" target w) as (w' & Hrun & _ & Hkeep).
  - reflexivity.
  - simpl. lia.
  - exists w'. split; [exact Hrun |]. apply Hkeep; [reflexivity | discriminate].
Defined.

Lemma filter_has_uri_leftover (its : list PlaylistItem) :
  List.filter has_uri (List.filter (λ it, negb (has_uri it)) its) = [].
Proof.
  induction its as [| it its IH]; simpl; [done |].
  destruct (has_uri it) eqn:E; simpl; [done |]. by rewrite E.
Qed.

Lemma filter_length_le {A} (f : A → bool) (l : list A) :
  (length (List.filter f l) ≤ length l)%nat.
Proof. induction l as [| x l IH]; simpl; [lia |]. destruct (f x); simpl; lia. Qed.

(** X11. Clearing twice is clearing once: the second run only reads the
    pages of the playlist, sends no removal request and leaves the library
    as the first run left it. *)
Theorem clear_playlist_twice (fuel : nat) (playlist_id : string) (p : SpPlaylist)
    (w : World) :
  find_playlist playlist_id (w_playlists w) = Some p →
  (length (pl_items p) < fuel)%nat →
  ∃ (w1 w2 : World) (k : nat),
    clear_playlist fuel playlist_id w = (Ok tt, w1)
    ∧ clear_playlist fuel playlist_id w1 = (Ok tt, w2)
    ∧ w_trace w2 = w_trace w1
        ++ map (λ i, EvPlaylistItems playlist_id 100 (100 * i)) (seq 0 k)
    ∧ w_playlists w2 = w_playlists w1.
Proof.
  intros Hp Hfuel.
  destruct (clear_playlist_run fuel playlist_id p w Hp Hfuel)
    as (_ & _ & w1 & p1 & Hrun1 & _ & _ & _ & _ & _ & Hp1 & Hleft).
  assert (Hfuel1 : (length (pl_items p1) < fuel)%nat).
  { rewrite Hleft. pose proof (filter_length_le (λ it, negb (has_uri it)) (pl_items p)). lia. }
  destruct (clear_playlist_library fuel playlist_id p1 w1 Hp1 Hfuel1)
    as (k & w2 & Hrun2 & Htr2 & Hpl2).
  assert (Hnone : collect_uris (pl_items p1) [] = []).
  { rewrite collect_uris_acc, Hleft, filter_has_uri_leftover. done. }
  rewrite Hnone in Htr2, Hpl2. simpl in Htr2. rewrite app_nil_r in Htr2.
  exists w1, w2, k. split; [done |]. split; [done |]. split; [done |].
  rewrite Hpl2. rewrite <- (update_items_id playlist_id (w_playlists w1)) at 2.
  apply update_items_ext. intros its. apply filter_listed_nil.
Qed.

Lemma clear_playlist_twice_witness :
  let target := Sample.playlist "pl" "Mix" "me"
                  [Sample.with_uri "spotify:track:a"; Sample.no_track] in
  let w := Sample.world [target] Sample.silent in
  ∃ (w1 w2 : World) (k : nat),
    clear_playlist 3 "pl" w = (Ok tt, w1)
    ∧ clear_playlist 3 "pl" w1 = (Ok tt, w2)
    ∧ w_playlists w2 = w_playlists w1.
Proof.
  intros target w.
  destruct (clear_playlist_twice 3 "pl" target w) as (w1 & w2 & k & H1 & H2 & _ & Hpl).
  - reflexivity.
  - simpl. lia.
  - by exists w1, w2, k.
Defined.

(** X12. Replacing the contents: clearing a playlist of the library and then
    adding matched ids leaves it with the items that could not be removed
    (those without a uri) followed by one item per id, in the order of the
    ids; when every old item had a uri the playlist holds exactly the new
    items.  Its id, name, owner, visibility and description stay. *)
Theorem clear_then_add (fuel : nat) (playlist_id : string) (p : SpPlaylist)
    (track_ids : list string) (w : World) :
  find_playlist playlist_id (w_playlists w) = Some p →
  (length (pl_items p) < fuel)%nat →
  ∃ (w' : World) (p' : SpPlaylist),
    (let! _ := clear_playlist fuel playlist_id in
     add_tracks_in_batches playlist_id track_ids) w = (Ok tt, w')
    ∧ find_playlist playlist_id (w_playlists w') = Some p'
    ∧ same_playlist p p'
    ∧ pl_items p' = List.filter (λ it, negb (has_uri it)) (pl_items p)
                    ++ map added_item track_ids
    ∧ (Forall (λ it, has_uri it = true) (pl_items p) →
       pl_items p' = map added_item track_ids).
Proof.
  intros Hp Hfuel.
  destruct (clear_playlist_run fuel playlist_id p w Hp Hfuel)
    as (_ & _ & w1 & p1 & Hrun1 & _ & _ & _ & _ & _ & Hp1 & Hleft).
  assert (Hsame1 : same_playlist p p1).
  { destruct (clear_playlist_library fuel playlist_id p w Hp Hfuel)
      as (k & w1' & Hrun1' & _ & Hpl). rewrite Hrun1 in Hrun1'. injection Hrun1' as <-.
    rewrite Hpl, find_playlist_update_items_eq, Hp in Hp1. injection Hp1 as <-.
    by repeat split. }
  destruct (add_loop_spec playlist_id track_ids (range_step (length track_ids) 100) w1)
    as (w' & Hrun2 & _ & Hpl2); [eauto |].
  destruct (batches_spec track_ids) as (_ & _ & Hcat). simpl in Hcat. rewrite Hcat in Hpl2.
  eexists w', _. unfold bind. rewrite Hrun1. split; [exact Hrun2 |].
  split; [by rewrite Hpl2, find_playlist_update_items_eq, Hp1 |].
  split; [destruct Hsame1 as (?&?&?&?&?); by repeat split |].
  split; [simpl; by rewrite Hleft |].
  intros Hall. simpl. by rewrite Hleft, (filter_all_have_uri _ Hall).
Qed.

Lemma clear_then_add_witness :
  let target := Sample.playlist "pl" "Mix" "me" [Sample.with_uri "spotify:track:old"] in
  let w := Sample.world [target] Sample.silent in
  ∃ (w' : World) (p' : SpPlaylist),
    (let! _ := clear_playlist 2 "pl" in add_tracks_in_batches "pl" ["a"; "b"]) w = (Ok tt, w')
    ∧ find_playlist "pl" (w_playlists w') = Some p'
    ∧ pl_items p' = [added_item "a"; added_item "b"].
Proof.
  intros target w.
  destruct (clear_then_add 2 "pl" target ["a"; "b"] w)
    as (w' & p' & Hrun & Hp' & _ & _ & Hitems).
  - reflexivity.
  - simpl. lia.
  - exists w', p'. split; [exact Hrun |]. split; [exact Hp' |].
    apply Hitems. by repeat constructor.
Defined.

(** X21. What a clearing run removes.  On a playlist of [N] items, [K] of
    which carry a uri that is not empty, the run reads the items page by
    page, 100 at a time from offset 0 upwards ([k] pages, the ceiling of
    [N / 100] and at least one), then issues the uris of those [K] items,
    in order, in the ceiling of [K / 100] removal requests of at most 100
    uris each.  Afterwards the playlist holds exactly its items without
    such a uri; when every item carries one ([K = N]) no item is left. *)
Theorem clear_playlist_removes_uri_items (fuel : nat) (playlist_id : string)
    (p : SpPlaylist) (w : World) :
  find_playlist playlist_id (w_playlists w) = Some p →
  (length (pl_items p) < fuel)%nat →
  ∃ (k : nat) (batches : list (list string)) (w' : World) (p' : SpPlaylist),
    clear_playlist fuel playlist_id w = (Ok tt, w')
    ∧ w_trace w' = w_trace w
        ++ map (λ i, EvPlaylistItems playlist_id 100 (100 * i)) (seq 0 k)
        ++ map (EvRemoveItems playlist_id) batches
    ∧ (length (pl_items p) ≤ 100 * k < Nat.max (length (pl_items p)) 1 + 100)%nat
    ∧ concat batches
      = map (λ it, default EmptyString (item_uri it)) (List.filter has_uri (pl_items p))
    ∧ (length (List.filter has_uri (pl_items p)) ≤ 100 * length batches
       < length (List.filter has_uri (pl_items p)) + 100)%nat
    ∧ Forall (λ b, (length b ≤ 100)%nat) batches
    ∧ find_playlist playlist_id (w_playlists w') = Some p'
    ∧ pl_items p' = List.filter (λ it, negb (has_uri it)) (pl_items p)
    ∧ (Forall (λ it, has_uri it = true) (pl_items p) → pl_items p' = []).
Proof.
  intros Hp Hfuel.
  destruct (clear_playlist_run fuel playlist_id p w Hp Hfuel)
    as (k & batches & w' & p' & Hrun & Htr & Hk & Hcat & Hcount & Hcap & Hp' & Hleft).
  exists k, batches, w', p'. rewrite length_map in Hcount.
  repeat (split; [assumption |]).
  intros Hall. rewrite Hleft. by apply filter_all_have_uri.
Qed.

Lemma clear_playlist_removes_uri_items_witness :
  let w := Sample.world [Sample.playlist "pl" "Mix" "me"
                           [Sample.with_uri "spotify:track:a"; Sample.no_track]]
             Sample.silent in
  ∃ (k : nat) (batches : list (list string)) (w' : World) (p' : SpPlaylist),
    clear_playlist 3 "pl" w = (Ok tt, w')
    ∧ w_trace w' = map (λ i, EvPlaylistItems "pl" 100 (100 * i)) (seq 0 k)
                   ++ map (EvRemoveItems "pl") batches
    ∧ concat batches = ["spotify:track:a"]
    ∧ length batches = 1%nat
    ∧ pl_items p' = [Sample.no_track].
Proof.
  intros w.
  destruct (clear_playlist_removes_uri_items 3 "pl"
              (Sample.playlist "pl" "Mix" "me"
                 [Sample.with_uri "spotify:track:a"; Sample.no_track]) w)
    as (k & batches & w' & p' & Hrun & Htr & _ & Hcat & Hcount & _ & _ & Hleft & _).
  - reflexivity.
  - simpl. lia.
  - exists k, batches, w', p'. simpl in Hcount. repeat split; try assumption. lia.
Defined.

(** ** The run driver: early exits and what a run never does *)

Lemma check_env_missing (environ : Environ) (pre : list string) (var : string)
    (post : list string) (w : World) :
  (∀ v, v ∈ pre → opt_truthy (environ v) = true) →
  opt_truthy (environ var) = false →
  check_env environ (pre ++ var :: post) w
  = (Raise (SystemExit 2),
     with_trace w (w_trace w ++ [EvPrint true ("ERROR: environment variable " +:+ var
                                               +:+ " is not set.")])).
Proof.
  induction pre as [| v pre IH]; intros Hpre Hvar; simpl.
  - by rewrite Hvar.
  - rewrite (Hpre v) by apply list_elem_of_here. simpl.
    apply IH; [| done]. intros v' Hv'. apply Hpre. by apply list_elem_of_further.
Qed.

(** X13. When one of the three credentials is not set (or is empty), the
    run names the first such variable, in the order client id, client
    secret, redirect URI, on the error stream and exits with code 2; it
    reads no file and sends nothing to the service. *)
Theorem main_missing_credential `{PyText} (fuel : nat) (args : Args) (environ : Environ)
    (fs : FileSystem) (w : World) (pre : list string) (var : string) (post : list string) :
  env_vars = pre ++ var :: post →
  (∀ v, v ∈ pre → opt_truthy (environ v) = true) →
  opt_truthy (environ var) = false →
  main fuel args environ fs w
  = (Raise (SystemExit 2),
     with_trace w (w_trace w ++ [EvPrint true ("ERROR: environment variable " +:+ var
                                               +:+ " is not set.")])).
Proof.
  intros Hvars Hpre Hvar. unfold main.
  apply bind_raise. rewrite Hvars. by apply check_env_missing.
Qed.

Lemma main_missing_credential_witness :
  let environ : Environ := λ var, if String.eqb var "SPOTIPY_CLIENT_SECRET" then Some EmptyString
                                  else Some "set" in
  (@main ascii_text 0 (Sample.args None None ModeAppend) environ Sample.files
     (Sample.world [] Sample.silent)).1 = Raise (SystemExit 2).
Proof.
  intros environ.
  rewrite (@main_missing_credential ascii_text 0 (Sample.args None None ModeAppend) environ
             Sample.files (Sample.world [] Sample.silent)
             ["SPOTIPY_CLIENT_ID"] "SPOTIPY_CLIENT_SECRET" ["SPOTIPY_REDIRECT_URI"]).
  - reflexivity.
  - reflexivity.
  - intros v Hv. apply list_elem_of_singleton in Hv as ->. reflexivity.
  - reflexivity.
Defined.

(** X14. With the credentials set, a source that gives no record ends the
    run with the message "No tracks found in XML (check file and playlist
    name)." and exit code 1, and a source that cannot be read ends it with
    the reader's exception; in both cases nothing is sent to the service. *)
Theorem main_nothing_to_import `{PyText} (fuel : nat) (args : Args) (environ : Environ)
    (fs : FileSystem) (w : World) :
  (∀ var, var ∈ env_vars → opt_truthy (environ var) = true) →
  (load_apple_xml fs (arg_xml args) (arg_apple_playlist args) = Ok [] →
   main fuel args environ fs w
   = (Raise (SystemExit 1),
      with_trace w (w_trace w
                    ++ [EvPrint false "No tracks found in XML (check file and playlist name)."])))
  ∧ (∀ e, load_apple_xml fs (arg_xml args) (arg_apple_playlist args) = Raise e →
          main fuel args environ fs w = (Raise e, w))
  ∧ (fs (arg_xml args) = None →
     main fuel args environ fs w = (Raise MissingOrMalformedSource, w)).
Proof.
  intros Henv.
  assert (Hraise : ∀ e, load_apple_xml fs (arg_xml args) (arg_apple_playlist args) = Raise e →
            main fuel args environ fs w = (Raise e, w)).
  { intros e Hload. unfold main. unfold bind at 1.
    rewrite (check_env_set environ env_vars w Henv). unfold bind at 1, lift.
    by rewrite Hload. }
  split; [| split; [exact Hraise |]].
  - intros Hload. unfold main. unfold bind at 1.
    rewrite (check_env_set environ env_vars w Henv). unfold bind at 1, lift.
    by rewrite Hload.
  - intros Hfs. apply Hraise. unfold load_apple_xml, resolve_items. by rewrite Hfs.
Qed.

Lemma main_nothing_to_import_witness :
  let args := {| arg_xml := "missing.xml"; arg_apple_playlist := None;
                 arg_spotify_name := Some "Mix"; arg_public := false;
                 arg_log_not_found := "not_found.csv"; arg_use_existing := None;
                 arg_mode := ModeAppend |} in
  let w := Sample.world [] Sample.silent in
  @main ascii_text 0 args Sample.credentials Sample.files w
  = (Raise MissingOrMalformedSource, w).
Proof.
  intros args w.
  apply (@main_nothing_to_import ascii_text 0 args Sample.credentials Sample.files w).
  - intros var _. reflexivity.
  - reflexivity.
Defined.

(** ** Runs that only add *)

Section Preservation.
Variable R : World → World → Prop.
Hypothesis R_refl : ∀ w, R w w.
Hypothesis R_trans : ∀ w1 w2 w3, R w1 w2 → R w2 w3 → R w1 w3.

Lemma preserves_ret {A} (a : A) : preserves R (ret a).
Proof. intros w r w' [= <- <-]. apply R_refl. Qed.

Lemma preserves_raise {A} (e : exn) : preserves R (@raise A e).
Proof. intros w r w' [= <- <-]. apply R_refl. Qed.

Lemma preserves_out_of_fuel {A} : preserves R (@out_of_fuel A).
Proof. intros w r w' [= <- <-]. apply R_refl. Qed.

Lemma preserves_lift {A} (x : result A) : preserves R (lift x).
Proof. intros w r w' [= <- <-]. apply R_refl. Qed.

Lemma preserves_bind {A B} (m : M A) (k : A → M B) :
  preserves R m → (∀ a, preserves R (k a)) → preserves R (bind m k).
Proof.
  intros Hm Hk w r w' Hrun. unfold bind in Hrun.
  destruct (m w) as [[a | e |] w1] eqn:Hmw.
  - eapply R_trans; [by eapply Hm | by eapply Hk].
  - injection Hrun as <- <-. by eapply Hm.
  - injection Hrun as <- <-. by eapply Hm.
Qed.

End Preservation.

Lemma append_only_refl w : append_only w w.
Proof.
  split; [exists []; by rewrite app_nil_r |].
  intros p Hp. exists p. split; [done |]. split; [apply same_playlist_refl | done].
Qed.

Lemma append_only_trans w1 w2 w3 :
  append_only w1 w2 → append_only w2 w3 → append_only w1 w3.
Proof.
  intros [(evs1 & Ht1 & Hr1) Hp1] [(evs2 & Ht2 & Hr2) Hp2]. split.
  - exists (evs1 ++ evs2). rewrite Ht2, Ht1, <- app_assoc, removals_app, Hr1, Hr2. done.
  - intros p Hp. destruct (Hp1 p Hp) as (p' & Hin' & Hsame' & Hpre').
    destruct (Hp2 p' Hin') as (p'' & Hin'' & Hsame'' & Hpre'').
    exists p''. split; [done |]. split; [by eapply same_playlist_trans |].
    by etrans.
Qed.

(** A step that only writes to the trace, and no removal request. *)
Lemma append_only_trace (w : World) (evs : list Event) :
  removals evs = [] → append_only w (with_trace w (w_trace w ++ evs)).
Proof.
  intros Hevs. split; [by exists evs |].
  intros p Hp. exists p. split; [done |]. split; [apply same_playlist_refl | done].
Qed.

Lemma preserves_emit ev :
  removals [ev] = [] → preserves append_only (emit ev).
Proof. intros Hev w r w' [= <- <-]. by apply append_only_trace. Qed.

Lemma preserves_sp_current_user : preserves append_only sp_current_user.
Proof. intros w r w' [= <- <-]. by apply append_only_trace. Qed.

Lemma preserves_sp_user_playlist_create uid name public description :
  preserves append_only (sp_user_playlist_create uid name public description).
Proof.
  intros w r w' [= <- <-]. split; [by eexists |].
  intros p Hp. exists p. split; [by apply list_elem_of_further |].
  split; [apply same_playlist_refl | done].
Qed.

Lemma preserves_sp_current_user_playlists limit offset :
  preserves append_only (sp_current_user_playlists limit offset).
Proof. intros w r w' [= <- <-]. by apply append_only_trace. Qed.

Lemma preserves_sp_playlist_add_items pid items :
  preserves append_only (sp_playlist_add_items pid items).
Proof.
  intros w r w' Hrun. unfold sp_playlist_add_items in Hrun.
  destruct (find_playlist pid (w_playlists w)); injection Hrun as <- <-.
  - split; [by eexists |]. intros p Hp. simpl. unfold update_items.
    eexists. split; [apply list_elem_of_fmap; exists p; split; [reflexivity | exact Hp] |].
    destruct (String.eqb (pl_id p) pid); simpl.
    + split; [by repeat split | by apply prefix_app_r].
    + split; [apply same_playlist_refl | done].
  - by apply append_only_trace.
Qed.

Lemma preserves_search_attempt q : preserves append_only (search_attempt q).
Proof.
  intros w r w' Hrun.
  destruct (search_attempt_events q w) as (r1 & evs & n & Hrun1 & _ & Hevs & _).
  rewrite Hrun in Hrun1. injection Hrun1 as _ ->. split.
  - exists evs. split; [done |]. by destruct Hevs as [-> | [s ->]].
  - intros p Hp. exists p. split; [done |]. split; [apply same_playlist_refl | done].
Qed.

Create HintDb append.

#[local] Hint Resolve append_only_refl append_only_trans : append.
#[local] Hint Resolve preserves_sp_current_user preserves_sp_user_playlist_create
  preserves_sp_current_user_playlists preserves_sp_playlist_add_items
  preserves_search_attempt : append.
#[local] Hint Extern 1 (preserves append_only (ret _)) =>
  apply (preserves_ret append_only append_only_refl) : append.
#[local] Hint Extern 1 (preserves append_only (raise _)) =>
  apply (preserves_raise append_only append_only_refl) : append.
#[local] Hint Extern 1 (preserves append_only (sys_exit _)) =>
  apply (preserves_raise append_only append_only_refl) : append.
#[local] Hint Extern 1 (preserves append_only out_of_fuel) =>
  apply (preserves_out_of_fuel append_only append_only_refl) : append.
#[local] Hint Extern 1 (preserves append_only (lift _)) =>
  apply (preserves_lift append_only append_only_refl) : append.
#[local] Hint Extern 1 (preserves append_only (emit _)) =>
  apply preserves_emit; reflexivity : append.
#[local] Hint Extern 1 (preserves append_only (print _)) =>
  apply preserves_emit; reflexivity : append.
#[local] Hint Extern 1 (preserves append_only (print_err _)) =>
  apply preserves_emit; reflexivity : append.

(** Break a composed step into its parts. *)
Ltac append_auto :=
  repeat first
    [ solve [auto with append]
    | apply (preserves_bind append_only append_only_trans); [| intros ?]
    | match goal with
      | |- preserves _ (if ?b then _ else _) => destruct b
      | |- preserves _ (match ?x with _ => _ end) => destruct x
      end ].

Lemma preserves_create_playlist name public description :
  preserves append_only (create_playlist name public description).
Proof. unfold create_playlist. append_auto. Qed.

Lemma preserves_add_loop pid ids offsets : preserves append_only (add_loop pid ids offsets).
Proof. induction offsets; simpl; append_auto. Qed.

Lemma preserves_add_tracks_in_batches pid ids :
  preserves append_only (add_tracks_in_batches pid ids).
Proof. apply preserves_add_loop. Qed.

Lemma preserves_check_env environ vars : preserves append_only (check_env environ vars).
Proof. induction vars; simpl; append_auto. Qed.

#[local] Hint Resolve preserves_create_playlist preserves_add_tracks_in_batches
  preserves_check_env : append.

Section AppendFacts.
Context `{PyText}.

Lemma preserves_search_loop name artist qs : ∀ candidates,
  preserves append_only (search_loop qs name artist candidates).
Proof. induction qs; intros; simpl; append_auto. Qed.

Lemma preserves_search_track name artist year :
  preserves append_only (search_track name artist year).
Proof. apply preserves_search_loop. Qed.

Lemma preserves_find_loop fuel name_lc uid limit : ∀ offset candidate,
  preserves append_only (find_loop fuel name_lc uid limit offset candidate).
Proof. induction fuel; intros; simpl; append_auto. Qed.

Lemma preserves_find_user_playlist_by_name fuel name :
  preserves append_only (find_user_playlist_by_name fuel name).
Proof.
  unfold find_user_playlist_by_name.
  apply (preserves_bind append_only append_only_trans); [auto with append |].
  intros. apply preserves_find_loop.
Qed.

Lemma preserves_match_loop items : ∀ found_ids misses,
  preserves append_only (match_loop items found_ids misses).
Proof.
  induction items; intros; simpl; [auto with append |].
  apply (preserves_bind append_only append_only_trans); [apply preserves_search_track |].
  intros sid. append_auto.
Qed.

Lemma preserves_resolve_target fuel args :
  arg_mode args = ModeAppend ∨ opt_truthy (arg_use_existing args) = false →
  preserves append_only (resolve_target fuel args).
Proof.
  intros Hmode. unfold resolve_target.
  destruct (opt_truthy (arg_use_existing args)).
  - destruct Hmode as [-> | ?]; [| done].
    apply (preserves_bind append_only append_only_trans);
      [apply preserves_find_user_playlist_by_name |].
    intros. append_auto.
  - append_auto.
Qed.

Lemma preserves_import_records fuel args items :
  arg_mode args = ModeAppend ∨ opt_truthy (arg_use_existing args) = false →
  preserves append_only (import_records fuel args items).
Proof.
  intros Hmode. unfold import_records.
  apply (preserves_bind append_only append_only_trans);
    [by apply preserves_resolve_target |].
  intros playlist_id.
  apply (preserves_bind append_only append_only_trans); [apply preserves_match_loop |].
  intros fm. append_auto.
Qed.

End AppendFacts.

(** X16. A run that is not in replace mode on an existing playlist (append
    mode, or no [--use-existing]) takes nothing away, whatever the service
    answers and however the run ends: it sends no removal request, and every
    playlist of the library is still there afterwards with the same id,
    name and owner and with its former items, in order, at the front. *)
Theorem main_append_only `{PyText} (fuel : nat) (args : Args) (environ : Environ)
    (fs : FileSystem) (w w' : World) (r : result unit) :
  arg_mode args = ModeAppend ∨ opt_truthy (arg_use_existing args) = false →
  main fuel args environ fs w = (r, w') →
  (∃ evs, w_trace w' = w_trace w ++ evs ∧ removals evs = [])
  ∧ ∀ p, p ∈ w_playlists w →
      ∃ p', p' ∈ w_playlists w' ∧ same_playlist p p' ∧ pl_items p `prefix_of` pl_items p'.
Proof.
  intros Hmode Hrun.
  assert (Hmain : preserves append_only (main fuel args environ fs)).
  { unfold main.
    apply (preserves_bind append_only append_only_trans); [auto with append |]. intros _.
    apply (preserves_bind append_only append_only_trans); [auto with append |]. intros items.
    destruct (negb (list_truthy items)); [append_auto |].
    apply (preserves_bind append_only append_only_trans); [auto with append |]. intros _.
    by apply preserves_import_records. }
  exact (Hmain w r w' Hrun).
Qed.

Lemma main_append_only_witness :
  let mine := Sample.playlist "p1" "Road Trip" "me" [Sample.with_uri "spotify:track:a"] in
  let w := Sample.world [mine]
             (λ n q, Sample.found [Sample.candidate "Yesterday" "The Beatles" "y1"]) in
  let w' := (@main ascii_text 3 (Sample.args (Some "Mix") (Some "Road Trip") ModeAppend)
               Sample.credentials Sample.files w).2 in
  ∃ p', p' ∈ w_playlists w' ∧ same_playlist mine p' ∧ pl_items mine `prefix_of` pl_items p'.
Proof.
  intros mine w w'.
  apply (@main_append_only ascii_text 3 (Sample.args (Some "Mix") (Some "Road Trip") ModeAppend)
           Sample.credentials Sample.files w w' _ (or_introl eq_refl) (surjective_pairing _)).
  apply list_elem_of_here.
Defined.

(** ** The one playlist of a run *)

Lemma touches_only_refl t w : touches_only t w w.
Proof.
  split; [| done]. exists []. split; [by rewrite app_nil_r | constructor].
Qed.

Lemma touches_only_trans t w1 w2 w3 :
  touches_only t w1 w2 → touches_only t w2 w3 → touches_only t w1 w3.
Proof.
  intros [(evs1 & Ht1 & Hf1) Hp1] [(evs2 & Ht2 & Hf2) Hp2]. split.
  - exists (evs1 ++ evs2). split; [by rewrite Ht2, Ht1, <- app_assoc |].
    by apply Forall_app.
  - intros p Hp Hne. apply Hp2; [by apply Hp1 | done].
Qed.

(** A step that only writes to the trace. *)
Lemma touches_only_trace t (w : World) (evs : list Event) :
  Forall (names_only t) evs → touches_only t w (with_trace w (w_trace w ++ evs)).
Proof. intros Hevs. split; [by exists evs | done]. Qed.

Lemma names_only_other t ev : item_request ev = None → names_only t ev.
Proof. intros Hev pid. by rewrite Hev. Qed.

Lemma update_items_other t f ps p :
  p ∈ ps → pl_id p ≠ t → p ∈ update_items t f ps.
Proof.
  intros Hp Hne. unfold update_items. apply list_elem_of_fmap. exists p.
  split; [| done]. by destruct (String.eqb_spec (pl_id p) t).
Qed.

Lemma touches_emit t ev : item_request ev = None → preserves (touches_only t) (emit ev).
Proof.
  intros Hev w r w' [= <- <-]. apply touches_only_trace.
  constructor; [by apply names_only_other | constructor].
Qed.

Lemma touches_sp_current_user t : preserves (touches_only t) sp_current_user.
Proof.
  intros w r w' [= <- <-]. apply touches_only_trace.
  constructor; [by apply names_only_other | constructor].
Qed.

Lemma touches_sp_user_playlist_create t uid name public description :
  preserves (touches_only t) (sp_user_playlist_create uid name public description).
Proof.
  intros w r w' [= <- <-]. split.
  - eexists. split; [reflexivity |].
    constructor; [by apply names_only_other | constructor].
  - intros p Hp _. by apply list_elem_of_further.
Qed.

Lemma touches_sp_current_user_playlists t limit offset :
  preserves (touches_only t) (sp_current_user_playlists limit offset).
Proof.
  intros w r w' [= <- <-]. apply touches_only_trace.
  constructor; [by apply names_only_other | constructor].
Qed.

Lemma touches_sp_playlist_items t limit offset :
  preserves (touches_only t) (sp_playlist_items t limit offset).
Proof.
  intros w r w' Hrun. unfold sp_playlist_items in Hrun.
  destruct (find_playlist t (w_playlists w)); injection Hrun as <- <-;
    apply touches_only_trace; (constructor; [| constructor]); by intros pid [= <-].
Qed.

Lemma touches_sp_playlist_add_items t items :
  preserves (touches_only t) (sp_playlist_add_items t items).
Proof.
  intros w r w' Hrun. unfold sp_playlist_add_items in Hrun.
  destruct (find_playlist t (w_playlists w)); injection Hrun as <- <-.
  - split.
    + eexists. split; [reflexivity |]. constructor; [| constructor]. by intros pid [= <-].
    + intros p Hp Hne. by apply update_items_other.
  - apply touches_only_trace. constructor; [| constructor]. by intros pid [= <-].
Qed.

Lemma touches_sp_playlist_remove t uris :
  preserves (touches_only t) (sp_playlist_remove_all_occurrences_of_items t uris).
Proof.
  intros w r w' Hrun. unfold sp_playlist_remove_all_occurrences_of_items in Hrun.
  destruct (find_playlist t (w_playlists w)); injection Hrun as <- <-.
  - split.
    + eexists. split; [reflexivity |]. constructor; [| constructor]. by intros pid [= <-].
    + intros p Hp Hne. by apply update_items_other.
  - apply touches_only_trace. constructor; [| constructor]. by intros pid [= <-].
Qed.

Lemma touches_search_attempt t q : preserves (touches_only t) (search_attempt q).
Proof.
  intros w r w' Hrun.
  destruct (search_attempt_events q w) as (r1 & evs & n & Hrun1 & _ & Hevs & _).
  rewrite Hrun in Hrun1. injection Hrun1 as _ ->. split; [| done].
  exists evs. split; [done |].
  destruct Hevs as [-> | [s ->]]; repeat constructor; by apply names_only_other.
Qed.

Create HintDb touch.

#[local] Hint Resolve touches_sp_current_user touches_sp_user_playlist_create
  touches_sp_current_user_playlists touches_sp_playlist_items
  touches_sp_playlist_add_items touches_sp_playlist_remove touches_search_attempt : touch.
#[local] Hint Extern 1 (preserves (touches_only _) (ret _)) =>
  apply (preserves_ret _ (touches_only_refl _)) : touch.
#[local] Hint Extern 1 (preserves (touches_only _) (raise _)) =>
  apply (preserves_raise _ (touches_only_refl _)) : touch.
#[local] Hint Extern 1 (preserves (touches_only _) (sys_exit _)) =>
  apply (preserves_raise _ (touches_only_refl _)) : touch.
#[local] Hint Extern 1 (preserves (touches_only _) out_of_fuel) =>
  apply (preserves_out_of_fuel _ (touches_only_refl _)) : touch.
#[local] Hint Extern 1 (preserves (touches_only _) (lift _)) =>
  apply (preserves_lift _ (touches_only_refl _)) : touch.
#[local] Hint Extern 1 (preserves (touches_only _) (emit _)) =>
  apply touches_emit; reflexivity : touch.
#[local] Hint Extern 1 (preserves (touches_only _) (print _)) =>
  apply touches_emit; reflexivity : touch.
#[local] Hint Extern 1 (preserves (touches_only _) (print_err _)) =>
  apply touches_emit; reflexivity : touch.

(** Break a composed step into its parts. *)
Ltac touch_auto :=
  repeat first
    [ solve [auto with touch]
    | apply (preserves_bind _ (touches_only_trans _)); [| intros ?]
    | match goal with
      | |- preserves _ (if ?b then _ else _) => destruct b
      | |- preserves _ (match ?x with _ => _ end) => destruct x
      end ].

Lemma touches_create_playlist t name public description :
  preserves (touches_only t) (create_playlist name public description).
Proof. unfold create_playlist. touch_auto. Qed.

Lemma touches_add_loop t ids offsets : preserves (touches_only t) (add_loop t ids offsets).
Proof. induction offsets; simpl; touch_auto. Qed.

Lemma touches_add_tracks_in_batches t ids :
  preserves (touches_only t) (add_tracks_in_batches t ids).
Proof. apply touches_add_loop. Qed.

Lemma touches_clear_read_loop t fuel limit : ∀ offset uris,
  preserves (touches_only t) (clear_read_loop fuel t limit offset uris).
Proof. induction fuel; intros; simpl; touch_auto. Qed.

Lemma touches_remove_loop t uris offsets :
  preserves (touches_only t) (remove_loop t uris offsets).
Proof. induction offsets; simpl; touch_auto. Qed.

Lemma touches_clear_playlist t fuel : preserves (touches_only t) (clear_playlist fuel t).
Proof.
  unfold clear_playlist.
  apply (preserves_bind _ (touches_only_trans _)); [apply touches_clear_read_loop |].
  intros uris. apply touches_remove_loop.
Qed.

Lemma touches_check_env t environ vars : preserves (touches_only t) (check_env environ vars).
Proof. induction vars; simpl; touch_auto. Qed.

#[local] Hint Resolve touches_create_playlist touches_add_tracks_in_batches
  touches_clear_playlist touches_check_env : touch.

Section TouchFacts.
Context `{PyText}.

Lemma touches_search_loop t name artist qs : ∀ candidates,
  preserves (touches_only t) (search_loop qs name artist candidates).
Proof. induction qs; intros; simpl; touch_auto. Qed.

Lemma touches_search_track t name artist year :
  preserves (touches_only t) (search_track name artist year).
Proof. apply touches_search_loop. Qed.

Lemma touches_find_loop t fuel name_lc uid limit : ∀ offset candidate,
  preserves (touches_only t) (find_loop fuel name_lc uid limit offset candidate).
Proof. induction fuel; intros; simpl; touch_auto. Qed.

Lemma touches_find_user_playlist_by_name t fuel name :
  preserves (touches_only t) (find_user_playlist_by_name fuel name).
Proof.
  unfold find_user_playlist_by_name.
  apply (preserves_bind _ (touches_only_trans _)); [auto with touch |].
  intros. apply touches_find_loop.
Qed.

Lemma touches_match_loop t items : ∀ found_ids misses,
  preserves (touches_only t) (match_loop items found_ids misses).
Proof.
  induction items; intros; simpl; [auto with touch |].
  apply (preserves_bind _ (touches_only_trans _)); [apply touches_search_track |].
  intros sid. touch_auto.
Qed.

(** The steps after the choice of the target (lines 231-249) deal with the
    playlist they are given. *)
Lemma touches_after_target t args items :
  preserves (touches_only t)
    (let! fm := match_loop items [] [] in
     let found_ids := fst fm in
     let misses := snd fm in
     let! _ := if list_truthy found_ids
               then add_tracks_in_batches t found_ids
               else ret tt in
     let! _ := print (newline +:+ "Done. Added " +:+ nat_to_str (length found_ids)
                      +:+ " tracks to '" +:+ fmt_opt (arg_spotify_name args) +:+ "'.") in
     if list_truthy misses then
       let! _ := emit (EvWriteCsv (arg_log_not_found args) misses) in
       print (nat_to_str (length misses) +:+ " not found → logged to "
              +:+ arg_log_not_found args)
     else ret tt).
Proof.
  apply (preserves_bind _ (touches_only_trans _)); [apply touches_match_loop |].
  intros fm. touch_auto.
Qed.

(** The choice of the target (lines 210-229): whatever it returns is the
    one playlist whose items it has dealt with. *)
Lemma resolve_target_touches fuel args w r w' :
  resolve_target fuel args w = (r, w') →
  ∃ t, touches_only t w w' ∧ ∀ playlist_id, r = Ok playlist_id → playlist_id = t.
Proof.
  unfold resolve_target. intros Hrun.
  destruct (opt_truthy (arg_use_existing args));
    [| destruct (opt_truthy (arg_spotify_name args))].
  - unfold bind at 1 in Hrun.
    destruct (find_user_playlist_by_name fuel (default EmptyString (arg_use_existing args)) w)
      as [[found | e |] w1] eqn:Hfind.
    + exists (default EmptyString found).
      pose proof (touches_find_user_playlist_by_name (default EmptyString found) _ _ _ _ _
                    Hfind) as Hw1.
      destruct (negb (opt_truthy found)).
      * injection Hrun as <- <-. split; [| done].
        eapply touches_only_trans; [exact Hw1 |].
        apply touches_only_trace. constructor; [by apply names_only_other | constructor].
      * unfold bind at 1 in Hrun. cbn [print emit] in Hrun.
        match type of Hrun with context [with_trace w1 ?t1] =>
          assert (Hw2 : touches_only (default EmptyString found) w (with_trace w1 t1))
        end.
        { eapply touches_only_trans; [exact Hw1 |].
          apply touches_only_trace. constructor; [by apply names_only_other | constructor]. }
        destruct (arg_mode args).
        -- injection Hrun as <- <-. split; [exact Hw2 |]. by intros pid [= <-].
        -- unfold bind at 1 in Hrun. cbn [print emit] in Hrun.
           unfold bind at 1 in Hrun.
           match type of Hrun with context [clear_playlist fuel ?t ?w2] =>
             destruct (clear_playlist fuel t w2) as [[[] | e |] w3] eqn:Hclear;
             pose proof (touches_clear_playlist _ _ _ _ _ Hclear) as Hw3
           end; injection Hrun as <- <-.
           ++ split; [| by intros pid [= <-]].
              eapply touches_only_trans; [| exact Hw3].
              eapply touches_only_trans; [exact Hw2 |].
              apply touches_only_trace.
              constructor; [by apply names_only_other | constructor].
           ++ split; [| done].
              eapply touches_only_trans; [| exact Hw3].
              eapply touches_only_trans; [exact Hw2 |].
              apply touches_only_trace.
              constructor; [by apply names_only_other | constructor].
           ++ split; [| done].
              eapply touches_only_trans; [| exact Hw3].
              eapply touches_only_trans; [exact Hw2 |].
              apply touches_only_trace.
              constructor; [by apply names_only_other | constructor].
    + injection Hrun as <- <-. exists EmptyString. split; [| done].
      by eapply touches_find_user_playlist_by_name.
    + injection Hrun as <- <-. exists EmptyString. split; [| done].
      by eapply touches_find_user_playlist_by_name.
  - unfold bind at 1 in Hrun.
    destruct (create_playlist (arg_spotify_name args) (arg_public args) description_tag w)
      as [[playlist_id | e |] w1] eqn:Hcreate.
    + injection Hrun as <- <-. exists playlist_id. split; [| by intros pid [= <-]].
      eapply touches_only_trans; [by eapply touches_create_playlist |].
      apply touches_only_trace. constructor; [by apply names_only_other | constructor].
    + injection Hrun as <- <-. exists EmptyString. split; [| done].
      by eapply touches_create_playlist.
    + injection Hrun as <- <-. exists EmptyString. split; [| done].
      by eapply touches_create_playlist.
  - injection Hrun as <- <-. exists EmptyString. split; [| done].
    apply touches_only_trace. constructor; [by apply names_only_other | constructor].
Qed.

Lemma import_records_touches fuel args items w r w' :
  import_records fuel args items w = (r, w') → ∃ t, touches_only t w w'.
Proof.
  unfold import_records. intros Hrun. unfold bind at 1 in Hrun.
  destruct (resolve_target fuel args w) as [[playlist_id | e |] w1] eqn:Htarget;
    destruct (resolve_target_touches _ _ _ _ _ Htarget) as (t & Hw1 & Hid).
  - rewrite (Hid playlist_id eq_refl) in Hrun. exists t.
    eapply touches_only_trans; [exact Hw1 |].
    exact (touches_after_target t args items w1 r w' Hrun).
  - injection Hrun as <- <-. by exists t.
  - injection Hrun as <- <-. by exists t.
Qed.

Lemma main_touches fuel args environ fs w r w' :
  main fuel args environ fs w = (r, w') → ∃ t, touches_only t w w'.
Proof.
  unfold main. intros Hrun. unfold bind at 1 in Hrun.
  destruct (check_env environ env_vars w) as [[[] | e |] w1] eqn:Henv;
    [| injection Hrun as <- <-; exists EmptyString; by eapply touches_check_env ..].
  unfold bind at 1, lift at 1 in Hrun.
  destruct (load_apple_xml fs (arg_xml args) (arg_apple_playlist args)) as [items | e |];
    [| injection Hrun as <- <-; exists EmptyString; by eapply touches_check_env ..].
  destruct (negb (list_truthy items)).
  - injection Hrun as <- <-. exists EmptyString.
    eapply touches_only_trans; [by eapply touches_check_env |].
    apply touches_only_trace. constructor; [by apply names_only_other | constructor].
  - unfold bind at 1 in Hrun.
    destruct (create_playlist (arg_spotify_name args) (arg_public args) description_tag w1)
      as [[playlist_id | e |] w2] eqn:Hcreate.
    + destruct (import_records_touches _ _ _ _ _ _ Hrun) as (t & Hw').
      exists t. eapply touches_only_trans; [by eapply touches_check_env |].
      eapply touches_only_trans; [by eapply touches_create_playlist | exact Hw'].
    + injection Hrun as <- <-. exists EmptyString.
      eapply touches_only_trans; [by eapply touches_check_env |].
      by eapply touches_create_playlist.
    + injection Hrun as <- <-. exists EmptyString.
      eapply touches_only_trans; [by eapply touches_check_env |].
      by eapply touches_create_playlist.
Qed.

End TouchFacts.

(** X15. A run deals with the items of one playlist only, in every mode,
    whatever the service answers and however the run ends: all the requests
    it sends about items (listing, removing, adding) name one and the same
    playlist id, and every playlist of the library with another id is in the
    library afterwards exactly as it was, items included. *)
Theorem main_touches_one_playlist `{PyText} (fuel : nat) (args : Args) (environ : Environ)
    (fs : FileSystem) (w w' : World) (r : result unit) :
  main fuel args environ fs w = (r, w') →
  ∃ (target : string) (evs : list Event),
    w_trace w' = w_trace w ++ evs
    ∧ Forall (names_only target) evs
    ∧ ∀ p, p ∈ w_playlists w → pl_id p ≠ target → p ∈ w_playlists w'.
Proof.
  intros Hrun.
  destruct (main_touches fuel args environ fs w r w' Hrun) as (t & (evs & Htr & Hevs) & Hkeep).
  by exists t, evs.
Qed.

Lemma main_touches_one_playlist_witness :
  let mine := Sample.playlist "p1" "Road Trip" "me" [Sample.with_uri "spotify:track:a"] in
  let other := Sample.playlist "p2" "Chill" "me" [Sample.with_uri "spotify:track:a"] in
  let w := Sample.world [mine; other]
             (λ n q, Sample.found [Sample.candidate "Yesterday" "The Beatles" "y1"]) in
  let run := @main ascii_text 3 (Sample.args (Some "Mix") (Some "Road Trip") ModeReplace)
               Sample.credentials Sample.files w in
  EvRemoveItems "p1" ["spotify:track:a"] ∈ w_trace run.2
  ∧ pl_items <$> find_playlist "p1" (w_playlists run.2) = Some [added_item "y1"]
  ∧ other ∈ w_playlists run.2.
Proof.
  intros mine other w run.
  assert (Hrem : EvRemoveItems "p1" ["spotify:track:a"] ∈ w_trace run.2).
  { vm_compute. repeat first [apply list_elem_of_here | apply list_elem_of_further]. }
  split; [exact Hrem |]. split; [vm_compute; reflexivity |].
  destruct (@main_touches_one_playlist ascii_text 3
              (Sample.args (Some "Mix") (Some "Road Trip") ModeReplace)
              Sample.credentials Sample.files w run.2 run.1 (surjective_pairing _))
    as (target & evs & Htr & Hevs & Hkeep).
  apply Hkeep; [apply list_elem_of_further, list_elem_of_here |].
  change (w_trace w ++ evs) with evs in Htr. rewrite Htr in Hrem.
  rewrite Forall_forall in Hevs.
  rewrite <- (Hevs _ Hrem "p1" eq_refl). discriminate.
Defined.

(** ** A whole run in create mode *)

Lemma found_misses_length (items : list TrackRecord) (results : list (option string)) :
  length results = length items →
  (length (found_of results) + length (misses_of items results))%nat = length items.
Proof.
  revert results. induction items as [| it items IH]; intros [| r results] Hlen;
    simpl in *; try done.
  specialize (IH results ltac:(lia)).
  destruct r as [id |]; simpl; [| lia]. destruct (str_truthy id); simpl; lia.
Qed.

Lemma matching_events_searches (qs : list string) :
  Forall (λ ev, matching_event ev = true) (map (λ q, EvSearch q 3) qs).
Proof. induction qs; by constructor. Qed.

Lemma filter_print_searches (qs : list string) :
  List.filter is_print (map (λ q, EvSearch q 3) qs) = [].
Proof. induction qs; [done | exact IHqs]. Qed.

Section RunFacts.
Context `{PyText}.

(** The matching loop when the service answers every request: one result
    per record, the ids kept and the misses set aside in order, one
    progress line per record, and nothing sent but search requests. *)
Lemma match_loop_quiet items : ∀ found_ids misses w,
  quiet w →
  ∃ results evs n,
    match_loop items found_ids misses w
    = (Ok (found_ids ++ found_of results, misses ++ misses_of items results),
       with_trace (with_searches w (w_searches w + n)) (w_trace w ++ evs))
    ∧ Forall2 (matched (w_search w)) items results
    ∧ Forall (λ ev, matching_event ev = true) evs
    ∧ length (List.filter is_print evs) = length items.
Proof.
  induction items as [| it items IH]; intros found_ids misses w Hquiet.
  - exists [], [], 0%nat. simpl. rewrite !app_nil_r, Nat.add_0_r.
    split; [by destruct w |]. split; [constructor |]. split; [constructor | done].
  - simpl. unfold bind, search_track.
    destruct (search_loop_quiet (it_name it) (it_artist it)
                (queries (it_name it) (it_artist it) (it_year it)) [] w Hquiet)
      as (k & r & Hrun & _).
    destruct (search_loop_events (it_name it) (it_artist it)
                (queries (it_name it) (it_artist it) (it_year it)) [] w)
      as (r' & evs' & n' & Hrun' & _ & _ & _ & _ & Hid).
    assert (Hr : Ok r = r') by (rewrite Hrun in Hrun'; exact (f_equal fst Hrun')).
    subst r'. clear Hrun'. rewrite Hrun.
    assert (Hmatched : matched (w_search w) it r).
    { intros id ->. by apply Hid. }
    set (searches := map (λ q, EvSearch q 3)
                       (take k (queries (it_name it) (it_artist it) (it_year it)))) in *.
    destruct (opt_truthy r) eqn:Htruthy; unfold print, emit; simpl.
    + match goal with |- context [match_loop items ?f ?m ?w1] =>
        destruct (IH f m w1) as (results & evs & n & Hloop & Hres & Hevs & Hprints) end;
        [exact Hquiet |].
      exists (r :: results),
        (searches ++ EvPrint false ("✓ " +:+ it_name it +:+ " — " +:+ it_artist it) :: evs),
        (k + n)%nat.
      rewrite Hloop. split.
      { destruct r as [id |]; [| done]. simpl in Htruthy. simpl. rewrite Htruthy.
        f_equal; [by rewrite <- app_assoc |].
        unfold with_trace, with_searches. simpl. f_equal; [lia |].
        by rewrite <- !app_assoc. }
      split; [by constructor |]. split.
      { apply Forall_app. split; [apply matching_events_searches | by constructor]. }
      rewrite List.filter_app, length_app. unfold searches.
      rewrite filter_print_searches. simpl. by rewrite Hprints.
    + match goal with |- context [match_loop items ?f ?m ?w1] =>
        destruct (IH f m w1) as (results & evs & n & Hloop & Hres & Hevs & Hprints) end;
        [exact Hquiet |].
      exists (r :: results),
        (searches ++ EvPrint false ("✗ NOT FOUND: " +:+ it_name it +:+ " — "
                                    +:+ it_artist it) :: evs),
        (k + n)%nat.
      rewrite Hloop. split.
      { assert (Hnone : found_of (r :: results) = found_of results).
        { destruct r as [id |]; [| done]. simpl in Htruthy. simpl. by rewrite Htruthy. }
        rewrite Hnone, Htruthy. f_equal; [by rewrite <- app_assoc |].
        unfold with_trace, with_searches. simpl. f_equal; [lia |].
        by rewrite <- !app_assoc. }
      split; [by constructor |]. split.
      { apply Forall_app. split; [apply matching_events_searches | by constructor]. }
      rewrite List.filter_app, length_app. unfold searches.
      rewrite filter_print_searches. simpl. by rewrite Hprints.
Qed.

Lemma add_if_any playlist_id found_ids w :
  (if list_truthy found_ids then add_tracks_in_batches playlist_id found_ids else ret tt) w
  = add_tracks_in_batches playlist_id found_ids w.
Proof. by destruct found_ids. Qed.

Lemma report_run (misses : list TrackRecord) (args : Args) (w : World) :
  (if list_truthy misses then
     let! _ := emit (EvWriteCsv (arg_log_not_found args) misses) in
     print (nat_to_str (length misses) +:+ " not found → logged to "
            +:+ arg_log_not_found args)
   else ret tt) w
  = (Ok tt, with_trace w (w_trace w ++ report_events misses args)).
Proof.
  destruct misses as [| it misses]; simpl.
  - unfold ret. rewrite app_nil_r. by destruct w.
  - unfold bind, emit, print, emit, with_trace. simpl. by rewrite <- app_assoc.
Qed.

(** A run in create mode on a service that answers every search request. *)
Lemma main_create_mode_run (fuel : nat) (args : Args) (environ : Environ)
    (fs : FileSystem) (w : World) (items : list TrackRecord) :
  (∀ var, var ∈ env_vars → opt_truthy (environ var) = true) →
  load_apple_xml fs (arg_xml args) (arg_apple_playlist args) = Ok items →
  items ≠ [] →
  opt_truthy (arg_use_existing args) = false →
  opt_truthy (arg_spotify_name args) = true →
  quiet w →
  let created := EvCreatePlaylist (w_user w) (arg_spotify_name args) (arg_public args)
                   description_tag in
  let target := w_fresh w (S (w_created w)) in
  ∃ (results : list (option string)) (evs : list Event) (w' : World) (p : SpPlaylist),
    main fuel args environ fs w = (Ok tt, w')
    ∧ Forall2 (matched (w_search w)) items results
    ∧ Forall (λ ev, matching_event ev = true) evs
    ∧ length (List.filter is_print evs) = length items
    ∧ w_trace w'
      = w_trace w
        ++ [EvCurrentUser; created; EvCurrentUser; created;
            EvPrint false ("Created new playlist: " +:+ fmt_opt (arg_spotify_name args))]
        ++ evs
        ++ map (λ j, EvAddItems target (slice (found_of results) j 100))
             (range_step (length (found_of results)) 100)
        ++ [EvPrint false (done_line (found_of results) args)]
        ++ report_events (misses_of items results) args
    ∧ find_playlist target (w_playlists w') = Some p
    ∧ pl_name p = arg_spotify_name args
    ∧ pl_owner p = w_user w
    ∧ pl_items p = map added_item (found_of results).
Proof.
  intros Henv Hload Hitems Hreuse Hname Hquiet created target.
  rewrite (main_start fuel args environ fs w items Henv Hload Hitems).
  set (w1 := (sp_user_playlist_create (w_user w) (arg_spotify_name args) (arg_public args)
                description_tag (sp_current_user w).2).2).
  unfold import_records, resolve_target. rewrite Hreuse, Hname.
  match goal with |- context [bind ?m ?k w1] =>
    rewrite (bind_ok m k w1 (m w1).2 target eq_refl);
    set (w2 := (m w1).2)
  end.
  set (p2 := {| pl_id := target; pl_name := arg_spotify_name args; pl_owner := w_user w;
                pl_public := arg_public args; pl_description := description_tag;
                pl_items := [] |}).
  assert (Htr2 : w_trace w2
                 = w_trace w
                   ++ [EvCurrentUser; created; EvCurrentUser; created;
                       EvPrint false ("Created new playlist: "
                                      +:+ fmt_opt (arg_spotify_name args))])
    by (subst w2 w1; simpl; by rewrite <- !app_assoc).
  assert (Hsearch2 : w_search w2 = w_search w) by done.
  assert (Hquiet2 : quiet w2) by exact Hquiet.
  assert (Hfind2 : find_playlist target (w_playlists w2) = Some p2).
  { subst w2 w1. unfold find_playlist. simpl. by rewrite String.eqb_refl. }
  clearbody w2. clear w1.
  destruct (match_loop_quiet items [] [] w2 Hquiet2)
    as (results & evs & n & Hloop & Hres & Hevs & Hprints).
  simpl in Hloop. rewrite (bind_ok _ _ _ _ _ Hloop). simpl fst. simpl snd.
  set (w3 := with_trace (with_searches w2 (w_searches w2 + n)) (w_trace w2 ++ evs)) in *.
  set (found := found_of results) in *. set (misses := misses_of items results) in *.
  unfold bind at 1. rewrite add_if_any. unfold add_tracks_in_batches.
  destruct (add_loop_spec target found (range_step (length found) 100) w3)
    as (w4 & Hadd & Htr4 & Hpl4); [subst w3; simpl; eauto |].
  rewrite Hadd. erewrite (bind_ok (print _) _ w4); [| reflexivity]. rewrite report_run.
  destruct (batches_spec found) as (_ & _ & Hcat). simpl in Hcat. rewrite Hcat in Hpl4.
  exists results, evs. eexists _, _. split; [reflexivity |].
  split; [by rewrite <- Hsearch2 |]. split; [done |]. split; [done |].
  split.
  { simpl. rewrite Htr4. subst w3. simpl. rewrite Htr2. rewrite <- !app_assoc. done. }
  split.
  { simpl. rewrite Hpl4. subst w3. simpl.
    by rewrite find_playlist_update_items_eq, Hfind2. }
  done.
Qed.

End RunFacts.

Lemma reports_app t1 t2 : reports (t1 ++ t2) = reports t1 ++ reports t2.
Proof. unfold reports. apply omap_app. Qed.

Lemma writes_app t1 t2 : writes (t1 ++ t2) = writes t1 ++ writes t2.
Proof. unfold writes. apply List.filter_app. Qed.

Lemma matching_events_silent (evs : list Event) :
  Forall (λ ev, matching_event ev = true) evs →
  reports evs = [] ∧ writes evs = [] ∧ removals evs = [].
Proof.
  induction 1 as [| ev evs Hev _ (Hrep & Hwr & Hrem)]; [done |].
  change (ev :: evs) with ([ev] ++ evs).
  rewrite reports_app, writes_app, removals_app, Hrep, Hwr, Hrem.
  destruct ev; try discriminate Hev; done.
Qed.

Lemma add_events_silent (playlist_id : string) (batches : list (list string)) :
  reports (map (EvAddItems playlist_id) batches) = []
  ∧ writes (map (EvAddItems playlist_id) batches) = map (EvAddItems playlist_id) batches
  ∧ removals (map (EvAddItems playlist_id) batches) = [].
Proof.
  induction batches as [| b batches (Hrep & Hwr & Hrem)]; [done |].
  change (map (EvAddItems playlist_id) (b :: batches))
    with ([EvAddItems playlist_id b] ++ map (EvAddItems playlist_id) batches).
  by rewrite reports_app, writes_app, removals_app, Hrep, Hwr, Hrem.
Qed.

Lemma report_events_summary (misses : list TrackRecord) (args : Args) :
  reports (report_events misses args)
  = match misses with [] => [] | _ :: _ => [(arg_log_not_found args, misses)] end
  ∧ writes (report_events misses args) = []
  ∧ removals (report_events misses args) = [].
Proof. by destruct misses. Qed.

(** X17. A run in create mode on a service that answers every search
    request ends normally.  Each record gets one result of the matcher, and
    an id among them is the id of a candidate the service returned for a
    query of that record.  The kept ids and the misses add up to the
    records; the second playlist created holds exactly one item per kept
    id, in the order of the records; the only remote writes are the two
    creations and the add-items requests, whose batches concatenate to the
    kept ids; and the report is written exactly when there are misses, with
    the missed records in order. *)
Theorem main_create_mode `{PyText} (fuel : nat) (args : Args) (environ : Environ)
    (fs : FileSystem) (w : World) (items : list TrackRecord) :
  (∀ var, var ∈ env_vars → opt_truthy (environ var) = true) →
  load_apple_xml fs (arg_xml args) (arg_apple_playlist args) = Ok items →
  items ≠ [] →
  opt_truthy (arg_use_existing args) = false →
  opt_truthy (arg_spotify_name args) = true →
  quiet w →
  let created := EvCreatePlaylist (w_user w) (arg_spotify_name args) (arg_public args)
                   "Imported from Apple Music XML" in
  let target := w_fresh w (S (w_created w)) in
  ∃ (results : list (option string)) (evs : list Event) (batches : list (list string))
    (w' : World) (p : SpPlaylist),
    main fuel args environ fs w = (Ok tt, w')
    ∧ Forall2 (matched (w_search w)) items results
    ∧ (length (found_of results) + length (misses_of items results))%nat = length items
    ∧ find_playlist target (w_playlists w') = Some p
    ∧ pl_name p = arg_spotify_name args
    ∧ pl_items p = map added_item (found_of results)
    ∧ w_trace w' = w_trace w ++ evs
    ∧ writes evs = [created; created] ++ map (EvAddItems target) batches
    ∧ concat batches = found_of results
    ∧ removals evs = []
    ∧ reports evs = match misses_of items results with
                    | [] => []
                    | _ :: _ => [(arg_log_not_found args, misses_of items results)]
                    end.
Proof.
  intros Henv Hload Hitems Hreuse Hname Hquiet created target.
  destruct (main_create_mode_run fuel args environ fs w items Henv Hload Hitems Hreuse
              Hname Hquiet)
    as (results & evs & w' & p & Hrun & Hres & Hevs & _ & Htr & Hp & Hpname & _ & Hpitems).
  destruct (matching_events_silent evs Hevs) as (Hrep & Hwr & Hrem).
  destruct (batches_spec (found_of results)) as (_ & _ & Hcat).
  set (batches := map (λ j, slice (found_of results) j 100)
                    (range_step (length (found_of results)) 100)) in *.
  destruct (add_events_silent target batches) as (Hrep' & Hwr' & Hrem').
  destruct (report_events_summary (misses_of items results) args) as (Hrep'' & Hwr'' & Hrem'').
  eexists results, _, batches, w', p. split; [exact Hrun |]. split; [exact Hres |].
  split; [apply found_misses_length; symmetry; by eapply Forall2_length |].
  split; [exact Hp |]. split; [exact Hpname |]. split; [exact Hpitems |].
  split; [exact Htr |].
  fold target. rewrite <- (map_map (λ j, slice (found_of results) j 100) (EvAddItems target)).
  fold batches.
  rewrite !writes_app, !removals_app, !reports_app, Hrep, Hwr, Hrem, Hrep', Hwr', Hrem',
    Hrep'', Hwr'', Hrem''.
  split; [by rewrite app_nil_r |]. split; [exact Hcat |]. split; [done |]. done.
Qed.

Lemma main_create_mode_witness :
  let w := Sample.world []
             (λ n q, Sample.found [Sample.candidate "Yesterday" "The Beatles" "y1"]) in
  let items := [{| it_name := "Yesterday"; it_artist := "The Beatles";
                   it_year := Some 1965 |}] in
  ∃ (results : list (option string)) (w' : World) (p : SpPlaylist),
    @main ascii_text 0 (Sample.args (Some "Mix") None ModeAppend) Sample.credentials
      Sample.files w = (Ok tt, w')
    ∧ find_playlist "new1" (w_playlists w') = Some p
    ∧ pl_items p = map added_item (found_of results)
    ∧ (length (found_of results) + length (misses_of items results))%nat = 1%nat.
Proof.
  intros w items.
  destruct (@main_create_mode ascii_text 0 (Sample.args (Some "Mix") None ModeAppend)
              Sample.credentials Sample.files w
              [{| it_name := "Yesterday"; it_artist := "The Beatles"; it_year := Some 1965 |}])
    as (results & evs & batches & w' & p & Hrun & _ & Hlen & Hp & _ & Hitems & _).
  - intros var _. reflexivity.
  - vm_compute. reflexivity.
  - discriminate.
  - reflexivity.
  - reflexivity.
  - intros n q. by eexists.
  - by exists results, w', p.
Defined.

Lemma nothing_matched (search : nat → string → reply) (items : list TrackRecord)
    (results : list (option string)) :
  (∀ n q res, search n q = Answer res → items_of res = []) →
  Forall2 (matched search) items results →
  found_of results = [] ∧ misses_of items results = items.
Proof.
  intros Hsilent. induction 1 as [| it r items results Hr _ [Hfound Hmisses]]; [done |].
  assert (r = None) as ->.
  { destruct r as [id |]; [| done].
    destruct (Hr id eq_refl) as (n & q & res & c & _ & Hans & Hc & _).
    rewrite (Hsilent n q res Hans) in Hc. by apply elem_of_nil in Hc. }
  simpl. by rewrite Hmisses.
Qed.

(** X18. When the service answers every search request and never returns a
    candidate, a run in create mode still ends normally: it sends no
    add-items request (the two creations are its only remote writes), the
    new playlist stays empty, and the report holds every record, in
    order. *)
Theorem main_nothing_found `{PyText} (fuel : nat) (args : Args) (environ : Environ)
    (fs : FileSystem) (w : World) (items : list TrackRecord) :
  (∀ var, var ∈ env_vars → opt_truthy (environ var) = true) →
  load_apple_xml fs (arg_xml args) (arg_apple_playlist args) = Ok items →
  items ≠ [] →
  opt_truthy (arg_use_existing args) = false →
  opt_truthy (arg_spotify_name args) = true →
  (∀ n q, ∃ res, w_search w n q = Answer res ∧ items_of res = []) →
  let created := EvCreatePlaylist (w_user w) (arg_spotify_name args) (arg_public args)
                   "Imported from Apple Music XML" in
  ∃ (evs : list Event) (w' : World) (p : SpPlaylist),
    main fuel args environ fs w = (Ok tt, w')
    ∧ w_trace w' = w_trace w ++ evs
    ∧ writes evs = [created; created]
    ∧ reports evs = [(arg_log_not_found args, items)]
    ∧ find_playlist (w_fresh w (S (w_created w))) (w_playlists w') = Some p
    ∧ pl_items p = [].
Proof.
  intros Henv Hload Hitems Hreuse Hname Hsilent created.
  assert (Hquiet : quiet w).
  { intros n q. destruct (Hsilent n q) as (res & Hres & _). by exists res. }
  destruct (main_create_mode_run fuel args environ fs w items Henv Hload Hitems Hreuse
              Hname Hquiet)
    as (results & evs & w' & p & Hrun & Hres & Hevs & _ & Htr & Hp & _ & _ & Hpitems).
  destruct (nothing_matched (w_search w) items results) as [Hfound Hmisses]; [| done |].
  { intros n q res Hans. destruct (Hsilent n q) as (res' & Hres' & Hnone). congruence. }
  rewrite Hfound, Hmisses in *.
  destruct (matching_events_silent evs Hevs) as (Hrep & Hwr & Hrem).
  destruct (report_events_summary items args) as (Hrep' & Hwr' & _).
  eexists _, w', p. split; [exact Hrun |]. split; [exact Htr |].
  rewrite !writes_app, !reports_app, Hrep, Hwr, Hrep', Hwr'.
  split; [done |]. split; [by destruct items |]. split; [exact Hp | exact Hpitems].
Qed.

Lemma main_nothing_found_witness :
  ∃ (evs : list Event) (w' : World),
    @main ascii_text 0 (Sample.args (Some "Mix") None ModeAppend) Sample.credentials
      Sample.files (Sample.world [] Sample.silent) = (Ok tt, w')
    ∧ w_trace w' = evs
    ∧ reports evs
      = [("not_found.csv",
          [{| it_name := "Yesterday"; it_artist := "The Beatles"; it_year := Some 1965 |}])].
Proof.
  destruct (@main_nothing_found ascii_text 0 (Sample.args (Some "Mix") None ModeAppend)
              Sample.credentials Sample.files (Sample.world [] Sample.silent)
              [{| it_name := "Yesterday"; it_artist := "The Beatles"; it_year := Some 1965 |}])
    as (evs & w' & p & Hrun & Htr & _ & Hrep & _).
  - intros var _. reflexivity.
  - vm_compute. reflexivity.
  - discriminate.
  - reflexivity.
  - reflexivity.
  - intros n q. by eexists.
  - by exists evs, w'.
Defined.

(** ** A whole run in reuse mode *)

Lemma bind_bind {A B C} (m : M A) (f : A → M B) (g : B → M C) (w : World) :
  bind (bind m f) g w = bind m (λ a, bind (f a) g) w.
Proof. unfold bind. by destruct (m w) as [[a | e |] w1]. Qed.

Lemma harmless_silent (evs : list Event) :
  Forall (λ ev, harmless ev = true) evs →
  reports evs = [] ∧ writes evs = [] ∧ removals evs = [].
Proof.
  induction 1 as [| ev evs Hev _ (Hrep & Hwr & Hrem)]; [done |].
  change (ev :: evs) with ([ev] ++ evs).
  rewrite reports_app, writes_app, removals_app, Hrep, Hwr, Hrem.
  destruct ev; try discriminate Hev; done.
Qed.

Lemma matching_harmless (evs : list Event) :
  Forall (λ ev, matching_event ev = true) evs → Forall (λ ev, harmless ev = true) evs.
Proof.
  intros Hall. eapply Forall_impl; [exact Hall |]. intros ev Hev. by destruct ev.
Qed.

Lemma remove_events_summary (playlist_id : string) (batches : list (list string)) :
  reports (map (EvRemoveItems playlist_id) batches) = []
  ∧ writes (map (EvRemoveItems playlist_id) batches)
    = map (EvRemoveItems playlist_id) batches.
Proof.
  induction batches as [| b batches (Hrep & Hwr)]; [done |].
  change (map (EvRemoveItems playlist_id) (b :: batches))
    with ([EvRemoveItems playlist_id b] ++ map (EvRemoveItems playlist_id) batches).
  by rewrite reports_app, writes_app, Hrep, Hwr.
Qed.

Lemma harmless_pages (limit : nat) (offsets : list nat) :
  Forall (λ ev, harmless ev = true) (map (EvCurrentUserPlaylists limit) offsets).
Proof. induction offsets; by constructor. Qed.

Lemma harmless_reads (playlist_id : string) (f : nat → nat) (l : list nat) :
  Forall (λ ev, harmless ev = true) (map (λ i, EvPlaylistItems playlist_id 100 (f i)) l).
Proof. induction l; by constructor. Qed.

Section ReuseFacts.
Context `{PyText}.

(** The choice of an existing target, and its clearing in replace mode. *)
Lemma resolve_target_reuse (fuel : nat) (args : Args) (w : World) (name tid : string)
    (p : SpPlaylist) :
  arg_use_existing args = Some name → name ≠ EmptyString →
  Forall (λ q, is_Some (pl_name q)) (w_playlists w) →
  (length (w_playlists w) < fuel)%nat →
  lookup_result (str_lower (str_strip name)) (w_user w) (w_playlists w) = Some tid →
  tid ≠ EmptyString →
  find_playlist tid (w_playlists w) = Some p →
  (length (pl_items p) < fuel)%nat →
  ∃ (pre : list Event) (batches : list (list string)) (w' : World) (p' : SpPlaylist),
    resolve_target fuel args w = (Ok tid, w')
    ∧ w_trace w' = w_trace w ++ pre ++ map (EvRemoveItems tid) batches
    ∧ Forall (λ ev, harmless ev = true) pre
    ∧ (arg_mode args = ModeAppend → batches = [])
    ∧ w_search w' = w_search w
    ∧ find_playlist tid (w_playlists w') = Some p'
    ∧ same_playlist p p'
    ∧ pl_items p' = kept_items (arg_mode args) (pl_items p).
Proof.
  intros Huse Hname Hnamed Hfuel Hlookup Htid Hp Hitems.
  apply str_truthy_true in Hname, Htid.
  destruct (find_user_playlist_by_name_run fuel name w Hnamed Hfuel) as [offsets Hfind].
  rewrite Hlookup in Hfind.
  unfold resolve_target. rewrite Huse. cbn [opt_truthy default]. rewrite Hname. unfold id.
  rewrite (bind_ok _ _ _ _ _ Hfind). cbn [opt_truthy default]. rewrite Htid. cbn [negb].
  unfold id.
  set (w1 := with_trace w (w_trace w ++ EvCurrentUser
                                        :: map (EvCurrentUserPlaylists 50) offsets)).
  assert (Hlist : Forall (λ ev, harmless ev = true)
                    (EvCurrentUser :: map (EvCurrentUserPlaylists 50) offsets
                     ++ [EvPrint false ("Using existing playlist: " +:+ name)])).
  { constructor; [done |]. apply Forall_app. split; [apply harmless_pages |].
    by repeat constructor. }
  erewrite (bind_ok (print _) _ w1); [| reflexivity].
  destruct (arg_mode args) eqn:Hmode.
  - eexists _, [], _, p. split; [reflexivity |]. simpl. rewrite app_nil_r.
    split; [by rewrite <- !app_assoc |]. split; [exact Hlist |].
    split; [done |]. split; [done |]. split; [exact Hp |].
    split; [apply same_playlist_refl | done].
  - erewrite (bind_ok (print _) _); [| reflexivity].
    match goal with |- context [bind (clear_playlist fuel tid) ?k ?w2] =>
      destruct (clear_playlist_run fuel tid p w2 Hp Hitems)
        as (k' & batches & w' & p' & Hrun & Htr & _ & _ & _ & _ & Hp' & Hleft);
      destruct (clear_playlist_library fuel tid p w2 Hp Hitems)
        as (k'' & w'' & Hrun' & _ & Hpl);
      pose proof (tame_clear_playlist fuel tid w2 (Ok tt) w' Hrun) as (Hsearch & _)
    end.
    rewrite Hrun in Hrun'. injection Hrun' as <-.
    rewrite (bind_ok _ _ _ _ _ Hrun).
    eexists (EvCurrentUser :: map (EvCurrentUserPlaylists 50) offsets
             ++ [EvPrint false ("Using existing playlist: " +:+ name)]
             ++ [EvPrint false "Clearing existing playlist contents..."]
             ++ map (λ i, EvPlaylistItems tid 100 (100 * i)) (seq 0 k')),
      batches, w', p'.
    split; [reflexivity |]. split.
    { rewrite Htr. subst w1. cbn [w_trace with_trace].
      rewrite <- ?app_assoc. simpl. rewrite <- ?app_assoc. simpl.
      by rewrite <- ?app_assoc. }
    split.
    { constructor; [done |]. apply Forall_app. split; [apply harmless_pages |].
      simpl. constructor; [done |]. constructor; [done |]. apply harmless_reads. }
    split; [done |]. split; [exact Hsearch |]. split; [exact Hp' |].
    split; [| exact Hleft].
    subst w1. cbn [w_playlists with_trace] in Hpl.
    rewrite Hpl, find_playlist_update_items_eq, Hp in Hp'. injection Hp' as <-.
    by repeat split.
Qed.

(** A run in reuse mode on a service that answers every search request;
    [p1] is the playlist that the run creates before it looks the name
    up. *)
Lemma main_reuse_mode_run (fuel : nat) (args : Args) (environ : Environ)
    (fs : FileSystem) (w : World) (items : list TrackRecord) (name tid : string)
    (p : SpPlaylist) :
  let p1 := {| pl_id := w_fresh w (w_created w); pl_name := arg_spotify_name args;
               pl_owner := w_user w; pl_public := arg_public args;
               pl_description := description_tag; pl_items := [] |} in
  let created := EvCreatePlaylist (w_user w) (arg_spotify_name args) (arg_public args)
                   description_tag in
  (∀ var, var ∈ env_vars → opt_truthy (environ var) = true) →
  load_apple_xml fs (arg_xml args) (arg_apple_playlist args) = Ok items →
  items ≠ [] →
  arg_use_existing args = Some name → name ≠ EmptyString →
  Forall (λ q, is_Some (pl_name q)) (p1 :: w_playlists w) →
  (S (length (w_playlists w)) < fuel)%nat →
  lookup_result (str_lower (str_strip name)) (w_user w) (p1 :: w_playlists w) = Some tid →
  tid ≠ EmptyString →
  find_playlist tid (p1 :: w_playlists w) = Some p →
  (length (pl_items p) < fuel)%nat →
  quiet w →
  ∃ (results : list (option string)) (evs : list Event)
    (removed added : list (list string)) (w' : World) (p' : SpPlaylist),
    main fuel args environ fs w = (Ok tt, w')
    ∧ Forall2 (matched (w_search w)) items results
    ∧ find_playlist tid (w_playlists w') = Some p'
    ∧ same_playlist p p'
    ∧ pl_items p' = kept_items (arg_mode args) (pl_items p)
                    ++ map added_item (found_of results)
    ∧ w_trace w' = w_trace w ++ evs
    ∧ writes evs = [created] ++ map (EvRemoveItems tid) removed
                   ++ map (EvAddItems tid) added
    ∧ (arg_mode args = ModeAppend → removed = [])
    ∧ concat added = found_of results
    ∧ reports evs = match misses_of items results with
                    | [] => []
                    | _ :: _ => [(arg_log_not_found args, misses_of items results)]
                    end.
Proof.
  intros p1 created Henv Hload Hitems Huse Hname Hnamed Hfuel Hlookup Htid Hp Hpfuel Hquiet.
  rewrite (main_start fuel args environ fs w items Henv Hload Hitems).
  set (w1 := (sp_user_playlist_create (w_user w) (arg_spotify_name args) (arg_public args)
                description_tag (sp_current_user w).2).2).
  assert (Htr1 : w_trace w1 = w_trace w ++ [EvCurrentUser; created])
    by (subst w1; simpl; by rewrite <- app_assoc).
  destruct (resolve_target_reuse fuel args w1 name tid p Huse Hname Hnamed Hfuel Hlookup
              Htid Hp Hpfuel)
    as (pre & removed & w2 & p2 & Hres & Htr2 & Hpre & Hmode & Hsearch2 & Hp2 & Hsame2 & Hitems2).
  change (w_search w1) with (w_search w) in Hsearch2. clearbody w1.
  unfold import_records. rewrite (bind_ok _ _ _ _ _ Hres).
  assert (Hquiet2 : quiet w2).
  { intros n q. rewrite Hsearch2. apply Hquiet. }
  destruct (match_loop_quiet items [] [] w2 Hquiet2)
    as (results & evs & n & Hloop & Hmatched & Hevs & _).
  simpl in Hloop. rewrite (bind_ok _ _ _ _ _ Hloop). simpl fst. simpl snd.
  set (w3 := with_trace (with_searches w2 (w_searches w2 + n)) (w_trace w2 ++ evs)) in *.
  unfold bind at 1. rewrite add_if_any. unfold add_tracks_in_batches.
  destruct (add_loop_spec tid (found_of results)
              (range_step (length (found_of results)) 100) w3)
    as (w4 & Hadd & Htr4 & Hpl4); [subst w3; simpl; eauto |].
  rewrite Hadd. erewrite (bind_ok (print _) _ w4); [| reflexivity]. rewrite report_run.
  destruct (batches_spec (found_of results)) as (_ & _ & Hcat). simpl in Hcat.
  rewrite Hcat in Hpl4.
  set (added := map (λ j, slice (found_of results) j 100)
                  (range_step (length (found_of results)) 100)) in *.
  destruct (harmless_silent pre Hpre) as (Hrep1 & Hwr1 & _).
  destruct (harmless_silent evs (matching_harmless evs Hevs)) as (Hrep2 & Hwr2 & _).
  destruct (remove_events_summary tid removed) as (Hrep3 & Hwr3).
  destruct (add_events_silent tid added) as (Hrep4 & Hwr4 & _).
  destruct (report_events_summary (misses_of items results) args) as (Hrep5 & Hwr5 & _).
  eexists results, _, removed, added, _, _. split; [reflexivity |].
  split; [by rewrite <- Hsearch2 |].
  split.
  { simpl. rewrite Hpl4. subst w3. simpl.
    by rewrite find_playlist_update_items_eq, Hp2. }
  split; [destruct Hsame2 as (?&?&?&?&?); by repeat split |].
  split; [simpl; by rewrite Hitems2 |].
  split.
  { simpl. rewrite Htr4. subst w3. simpl. rewrite Htr2, Htr1.
    rewrite <- (map_map (λ j, slice (found_of results) j 100) (EvAddItems tid)).
    fold added. rewrite <- !app_assoc. reflexivity. }
  rewrite !writes_app, !reports_app, Hrep1, Hwr1, Hrep2, Hwr2, Hrep3, Hwr3, Hrep4, Hwr4,
    Hrep5, Hwr5.
  split; [simpl; by rewrite app_nil_r |]. split; [exact Hmode |]. split; [exact Hcat |].
  done.
Qed.

End ReuseFacts.

(** X19. A run in reuse mode on a service that answers every search
    request, when [--spotify-name] is another name than [--use-existing]:
    the target is the playlist that the lookup of the name gives in the
    user's library (the playlist created at the start of the run does not
    stand in its way).  The run ends normally; in append mode the target
    keeps its items and in replace mode only those without a uri, and the
    kept ids follow, one item each, in the order of the records.  The
    remote writes are the creation at the start, the removal requests (none
    in append mode) and the add-items requests, and the report is written
    exactly when there are misses. *)
Theorem main_reuse_mode `{PyText} (fuel : nat) (args : Args) (environ : Environ)
    (fs : FileSystem) (w : World) (items : list TrackRecord) (name sname tid : string)
    (p : SpPlaylist) :
  (∀ var, var ∈ env_vars → opt_truthy (environ var) = true) →
  load_apple_xml fs (arg_xml args) (arg_apple_playlist args) = Ok items →
  items ≠ [] →
  arg_use_existing args = Some name → name ≠ EmptyString →
  arg_spotify_name args = Some sname →
  str_lower (str_strip sname) ≠ str_lower (str_strip name) →
  Forall (λ q, is_Some (pl_name q)) (w_playlists w) →
  (S (length (w_playlists w)) < fuel)%nat →
  lookup_result (str_lower (str_strip name)) (w_user w) (w_playlists w) = Some tid →
  tid ≠ EmptyString →
  w_fresh w (w_created w) ≠ tid →
  find_playlist tid (w_playlists w) = Some p →
  (length (pl_items p) < fuel)%nat →
  quiet w →
  ∃ (results : list (option string)) (evs : list Event)
    (removed added : list (list string)) (w' : World) (p' : SpPlaylist),
    main fuel args environ fs w = (Ok tt, w')
    ∧ Forall2 (matched (w_search w)) items results
    ∧ find_playlist tid (w_playlists w') = Some p'
    ∧ same_playlist p p'
    ∧ pl_items p' = kept_items (arg_mode args) (pl_items p)
                    ++ map added_item (found_of results)
    ∧ w_trace w' = w_trace w ++ evs
    ∧ writes evs = [EvCreatePlaylist (w_user w) (Some sname) (arg_public args)
                      "Imported from Apple Music XML"]
                   ++ map (EvRemoveItems tid) removed ++ map (EvAddItems tid) added
    ∧ (arg_mode args = ModeAppend → removed = [])
    ∧ concat added = found_of results
    ∧ reports evs = match misses_of items results with
                    | [] => []
                    | _ :: _ => [(arg_log_not_found args, misses_of items results)]
                    end.
Proof.
  intros Henv Hload Hitems Huse Hname Hsname Hdiff Hnamed Hfuel Hlookup Htid Hfresh Hp
    Hpfuel Hquiet.
  apply String.eqb_neq in Hdiff, Hfresh.
  pose proof (main_reuse_mode_run fuel args environ fs w items name tid p) as Hrun.
  simpl in Hrun. rewrite Hsname in Hrun. apply Hrun; try done.
  - constructor; [by eexists | done].
  - unfold lookup_result, owned_match, name_matches in *. simpl. by rewrite Hdiff.
  - unfold find_playlist. simpl. by rewrite Hfresh.
Qed.

Lemma main_reuse_mode_witness :
  let mine := Sample.playlist "p1" "Road Trip" "me" [Sample.with_uri "spotify:track:a"] in
  let w := Sample.world [mine]
             (λ n q, Sample.found [Sample.candidate "Yesterday" "The Beatles" "y1"]) in
  ∃ (results : list (option string)) (w' : World) (p' : SpPlaylist),
    @main ascii_text 3 (Sample.args (Some "Mix") (Some "road trip") ModeAppend)
      Sample.credentials Sample.files w = (Ok tt, w')
    ∧ find_playlist "p1" (w_playlists w') = Some p'
    ∧ pl_items p' = [Sample.with_uri "spotify:track:a"] ++ map added_item (found_of results).
Proof.
  intros mine w.
  destruct (@main_reuse_mode ascii_text 3
              (Sample.args (Some "Mix") (Some "road trip") ModeAppend)
              Sample.credentials Sample.files w
              [{| it_name := "Yesterday"; it_artist := "The Beatles"; it_year := Some 1965 |}]
              "road trip" "Mix" "p1" mine)
    as (results & evs & removed & added & w' & p' & Hrun & _ & Hp' & _ & Hitems & _).
  - intros var _. reflexivity.
  - vm_compute. reflexivity.
  - discriminate.
  - reflexivity.
  - discriminate.
  - reflexivity.
  - discriminate.
  - repeat constructor. by eexists.
  - simpl. lia.
  - reflexivity.
  - discriminate.
  - discriminate.
  - reflexivity.
  - simpl. lia.
  - intros n q. by eexists.
  - by exists results, w', p'.
Defined.

(** X20. A run in reuse mode whose [--spotify-name] is the name given to
    [--use-existing] (up to case and surrounding white space) does not reach
    the existing playlist: the lookup finds the playlist that the run has
    just created under that name, which is listed first and owned by the
    user, and the kept ids go there, in either mode. *)
Theorem main_reuse_same_name `{PyText} (fuel : nat) (args : Args) (environ : Environ)
    (fs : FileSystem) (w : World) (items : list TrackRecord) (name sname : string) :
  (∀ var, var ∈ env_vars → opt_truthy (environ var) = true) →
  load_apple_xml fs (arg_xml args) (arg_apple_playlist args) = Ok items →
  items ≠ [] →
  arg_use_existing args = Some name → name ≠ EmptyString →
  arg_spotify_name args = Some sname →
  str_lower (str_strip sname) = str_lower (str_strip name) →
  Forall (λ q, is_Some (pl_name q)) (w_playlists w) →
  (S (length (w_playlists w)) < fuel)%nat →
  w_fresh w (w_created w) ≠ EmptyString →
  quiet w →
  ∃ (results : list (option string)) (w' : World) (p' : SpPlaylist),
    main fuel args environ fs w = (Ok tt, w')
    ∧ Forall2 (matched (w_search w)) items results
    ∧ find_playlist (w_fresh w (w_created w)) (w_playlists w') = Some p'
    ∧ pl_name p' = Some sname
    ∧ pl_description p' = "Imported from Apple Music XML"
    ∧ pl_items p' = map added_item (found_of results).
Proof.
  intros Henv Hload Hitems Huse Hname Hsname Hsame Hnamed Hfuel Hfresh Hquiet.
  pose proof (main_reuse_mode_run fuel args environ fs w items name
                (w_fresh w (w_created w))
                {| pl_id := w_fresh w (w_created w); pl_name := arg_spotify_name args;
                   pl_owner := w_user w; pl_public := arg_public args;
                   pl_description := description_tag; pl_items := [] |}) as Hrun.
  simpl in Hrun. rewrite Hsname in Hrun.
  destruct Hrun
    as (results & evs & removed & added & w' & p' & Hmain & Hres & Hp' & Hsamep & Hpitems & _);
    try done.
  - constructor; [by eexists | done].
  - unfold lookup_result, owned_match, name_matches. simpl.
    by rewrite Hsame, !String.eqb_refl.
  - unfold find_playlist. simpl. by rewrite String.eqb_refl.
  - lia.
  - exists results, w', p'. destruct Hsamep as (_ & Hn & _ & _ & Hd). simpl in Hn, Hd.
    split; [done |]. split; [done |]. split; [done |]. split; [done |]. split; [done |].
    rewrite Hpitems. by destruct (arg_mode args).
Qed.

Lemma main_reuse_same_name_witness :
  let mine := Sample.playlist "p1" "Mix" "me" [Sample.with_uri "spotify:track:a"] in
  let w := Sample.world [mine]
             (λ n q, Sample.found [Sample.candidate "Yesterday" "The Beatles" "y1"]) in
  ∃ (results : list (option string)) (w' : World) (p' : SpPlaylist),
    @main ascii_text 3 (Sample.args (Some "Mix") (Some "mix") ModeAppend)
      Sample.credentials Sample.files w = (Ok tt, w')
    ∧ find_playlist "new0" (w_playlists w') = Some p'
    ∧ pl_items p' = map added_item (found_of results).
Proof.
  intros mine w.
  destruct (@main_reuse_same_name ascii_text 3
              (Sample.args (Some "Mix") (Some "mix") ModeAppend)
              Sample.credentials Sample.files w
              [{| it_name := "Yesterday"; it_artist := "The Beatles"; it_year := Some 1965 |}]
              "mix" "Mix")
    as (results & w' & p' & Hrun & _ & Hp' & _ & _ & Hitems).
  - intros var _. reflexivity.
  - vm_compute. reflexivity.
  - discriminate.
  - reflexivity.
  - discriminate.
  - reflexivity.
  - reflexivity.
  - repeat constructor. by eexists.
  - simpl. lia.
  - discriminate.
  - intros n q. by eexists.
  - by exists results, w', p'.
Defined.

